(** * MultiSOCIAL toolbox: the multi-person ROI tracker of [pose.py]

    A shallow embedding of the region-of-interest tracker of
    [PoseProcessor] (seeding, per-frame tracking, reseed by assignment,
    deduplication), of its geometry helpers and of the two drivers
    [extract_pose_features] and [embed_pose_video] with their teardown,
    with the properties of the tracker stated and proved over it.

    Numbers.  Python [int] is [Z].  Python [float] is modelled by exact
    rationals [Q]: rounding of float64 arithmetic (and of the float32 cost
    matrix) is not modelled.  For the integer pixel coordinates and the
    margin 0.25 the tracker uses, the arithmetic of [_expand_and_clip_bbox]
    and the comparisons of an IoU against 0.5 and 0.55 are exact in
    float64 as well.  [np.sqrt] has no rational model and is a parameter.

    Collaborators.  The YOLO detector, the per-region MediaPipe estimators
    and [scipy]'s [linear_sum_assignment] are not part of the repository:
    a [Frame] records what the detector and the estimators answer on the
    current image, and the assignment solver is a parameter. *)

From Stdlib Require Import ZArith QArith Qminmax Qround Lia Lqa List Bool
  Sorted.
From stdpp Require Import base list gmap strings sorting.
Import ListNotations.

Open Scope Z_scope.

(** ** Numbers *)

(** Python's [int(x)] on a float: truncation toward zero. *)
Definition py_int (q : Q) : Z :=
  if (Qnum q <? 0)%Z then Qceiling q else Qfloor q.

(** The float value of a Python int. *)
Abbreviation float := inject_Z (only parsing).

(** ** Boxes and geometry *)

(** A box is the tuple [(x1, y1, x2, y2)] of integer pixel coordinates. *)
Definition bbox : Type := Z * Z * Z * Z.

Definition _roi_center (x1 y1 x2 y2 : Z) : Q * Q :=
  let cx := ((1 # 2) * float (x1 + x2))%Q in
  let cy := ((1 # 2) * float (y1 + y2))%Q in
  (cx, cy).

Definition _expand_and_clip_bbox (x1 y1 x2 y2 image_width image_height : Z)
    (margin_ratio : Q) : bbox :=
  let bx1 := float x1 in
  let by1 := float y1 in
  let bx2 := float x2 in
  let by2 := float y2 in
  let bw := Qmax 0 (bx2 - bx1) in
  let bh := Qmax 0 (by2 - by1) in
  if Qle_bool bw 0 || Qle_bool bh 0 then
    (Z.max 0 (Z.min (image_width - 1) x1),
     Z.max 0 (Z.min (image_height - 1) y1),
     Z.max 0 (Z.min image_width x2),
     Z.max 0 (Z.min image_height y2))
  else
    let margin_w := (bw * margin_ratio)%Q in
    let margin_h := (bh * margin_ratio)%Q in
    let ex1 := (bx1 - margin_w)%Q in
    let ey1 := (by1 - margin_h)%Q in
    let ex2 := (bx2 + margin_w)%Q in
    let ey2 := (by2 + margin_h)%Q in
    let ex1 := Qmax 0 (Qmin ex1 (float image_width - 1)) in
    let ey1 := Qmax 0 (Qmin ey1 (float image_height - 1)) in
    let ex2 := Qmax 0 (Qmin ex2 (float image_width - 0)) in
    let ey2 := Qmax 0 (Qmin ey2 (float image_height - 0)) in
    let ex2 := if Qle_bool ex2 ex1
               then Qmin (float image_width * 1) (ex1 + 1) else ex2 in
    let ey2 := if Qle_bool ey2 ey1
               then Qmin (float image_height * 1) (ey1 + 1) else ey2 in
    (py_int ex1, py_int ey1, py_int ex2, py_int ey2).

(** [_smooth_box]: the weighted mean of each coordinate, truncated.  The
    float arithmetic is exact, and so is this model, for a weight that is
    a dyadic fraction, such as the 0.5 the tracker passes
    ([self.smooth_alpha]) and the weights 0 and 1; for another weight
    (0.3, say) the float result can be one below the exact mean, which
    the model does not show. *)
Definition _smooth_box (old_box new_box : bbox) (alpha : Q) : bbox :=
  let '(ox1, oy1, ox2, oy2) := old_box in
  let '(nx1, ny1, nx2, ny2) := new_box in
  let sx1 := py_int (alpha * float nx1 + (1 - alpha) * float ox1) in
  let sy1 := py_int (alpha * float ny1 + (1 - alpha) * float oy1) in
  let sx2 := py_int (alpha * float nx2 + (1 - alpha) * float ox2) in
  let sy2 := py_int (alpha * float ny2 + (1 - alpha) * float oy2) in
  (sx1, sy1, sx2, sy2).

Definition _iou (a b : bbox) : Q :=
  let '(ax1, ay1, ax2, ay2) := a in
  let '(bx1, by1, bx2, by2) := b in
  let inter_x1 := Z.max ax1 bx1 in
  let inter_y1 := Z.max ay1 by1 in
  let inter_x2 := Z.min ax2 bx2 in
  let inter_y2 := Z.min ay2 by2 in
  let inter_w := Z.max 0 (inter_x2 - inter_x1) in
  let inter_h := Z.max 0 (inter_y2 - inter_y1) in
  let inter_area := inter_w * inter_h in
  let area_a := Z.max 0 (ax2 - ax1) * Z.max 0 (ay2 - ay1) in
  let area_b := Z.max 0 (bx2 - bx1) * Z.max 0 (by2 - by1) in
  let union := area_a + area_b - inter_area in
  if union <=? 0 then 0%Q
  else (float inter_area / float union)%Q.

(** The quantities [_iou] computes on the way, named for the statements. *)
Definition box_area (a : bbox) : Z :=
  let '(ax1, ay1, ax2, ay2) := a in
  Z.max 0 (ax2 - ax1) * Z.max 0 (ay2 - ay1).

Definition inter_area (a b : bbox) : Z :=
  let '(ax1, ay1, ax2, ay2) := a in
  let '(bx1, by1, bx2, by2) := b in
  Z.max 0 (Z.min ax2 bx2 - Z.max ax1 bx1)
  * Z.max 0 (Z.min ay2 by2 - Z.max ay1 by1).

Definition union_area (a b : bbox) : Z :=
  box_area a + box_area b - inter_area a b.

(** Two boxes are disjoint when one lies entirely to one side of the other
    (touching edges included). *)
Definition disjoint_boxes (a b : bbox) : Prop :=
  let '(ax1, ay1, ax2, ay2) := a in
  let '(bx1, by1, bx2, by2) := b in
  ax2 <= bx1 \/ bx2 <= ax1 \/ ay2 <= by1 \/ by2 <= ay1.

(** A box has positive area when it is ordered on both axes. *)
Definition positive_area (a : bbox) : Prop :=
  let '(ax1, ay1, ax2, ay2) := a in ax1 < ax2 /\ ay1 < ay2.

(** ** Data model *)

(** One landmark of a MediaPipe landmark list. *)
Record landmark := mk_landmark {
  lmk_x : Q;
  lmk_y : Q;
  lmk_z : Q;
  lmk_visibility : Q
}.

(** One row of [results.xyxy[0]]: a float tensor
    [(x1, y1, x2, y2, confidence, class)]. *)
Record detection := mk_detection {
  det_x1 : Q;
  det_y1 : Q;
  det_x2 : Q;
  det_y2 : Q;
  det_conf : Q;
  det_cls : Q
}.

(** An entry of [locked_rois]: the dict with keys ["x1"], ["y1"], ["x2"],
    ["y2"], ["lost"], ["pose"], ["overlap_streak"].  [pose] identifies the
    MediaPipe [Pose] instance the region owns. *)
Record roi := mk_roi {
  x1 : Z;
  y1 : Z;
  x2 : Z;
  y2 : Z;
  lost : Z;
  pose : nat;
  overlap_streak : Z
}.

Definition roi_box (r : roi) : bbox := (x1 r, y1 r, x2 r, y2 r).

Definition set_lost (v : Z) (r : roi) : roi :=
  {| x1 := x1 r; y1 := y1 r; x2 := x2 r; y2 := y2 r;
     lost := v; pose := pose r; overlap_streak := overlap_streak r |}.

Definition set_overlap_streak (v : Z) (r : roi) : roi :=
  {| x1 := x1 r; y1 := y1 r; x2 := x2 r; y2 := y2 r;
     lost := lost r; pose := pose r; overlap_streak := v |}.

(** ** Collaborators and effects *)

(** A call either returns a value or raises. *)
Inductive outcome (A : Type) : Type :=
| Returns (a : A)
| Raises.
Arguments Returns {A} a.
Arguments Raises {A}.

(** What the tracker does to its collaborators, newest event first. *)
Inductive event : Type :=
| EvYoloInit
| EvPredict
| EvProcess (h : nat) (crop : bbox)
| EvPoseNew (h : nat)
| EvPoseClose (h : nat).

Global Instance event_eq_dec : EqDecision event.
Proof. solve_decision. Defined.

(** The mutable state outside [locked_rois]: [self.yolo] (loaded or [None]),
    [self._frame_counter], the supply of estimator instances, the log. *)
Record world := mk_world {
  yolo : bool;
  _frame_counter : Z;
  next_pose : nat;
  trace : list event
}.

Definition log (e : event) (w : world) : world :=
  {| yolo := yolo w; _frame_counter := _frame_counter w;
     next_pose := next_pose w; trace := e :: trace w |}.

(** [self._frame_counter += 1] *)
Definition tick (w : world) : world :=
  {| yolo := yolo w; _frame_counter := _frame_counter w + 1;
     next_pose := next_pose w; trace := trace w |}.

(** [mp.solutions.pose.Pose(...)]: a fresh estimator instance. *)
Definition new_pose (w : world) : nat * world :=
  (next_pose w,
   {| yolo := yolo w; _frame_counter := _frame_counter w;
      next_pose := S (next_pose w);
      trace := EvPoseNew (next_pose w) :: trace w |}).

(** The current image, seen through the collaborators: what
    [self.yolo.predict(image_rgb, size=640).xyxy[0]] answers on it, and
    what the estimator instance [h] answers on the crop of a box
    ([None]: no landmarks). *)
Record Frame := mk_Frame {
  image_width : Z;
  image_height : Z;
  yolo_predict : outcome (list detection);
  pose_process : nat -> bbox -> outcome (option (list landmark))
}.

(** [[b[:4].int().tolist() for b in boxes if int(b[5]) == 0]] *)
Definition person_boxes_of (boxes : list detection) : list bbox :=
  map (fun b => (py_int (det_x1 b), py_int (det_y1 b),
                 py_int (det_x2 b), py_int (det_y2 b)))
      (List.filter (fun b => py_int (det_cls b) =? 0) boxes).


(** ** Seeding *)

(** [_ensure_yolo]: loads the detector when [self.yolo is None];
    [yolo_init_ok] tells whether [YOLOv5("yolov5s.pt")] (and the download of
    its weights) succeeds.  A failure is re-raised as [RuntimeError]. *)
Definition _ensure_yolo (yolo_init_ok : bool) (w : world) : outcome world :=
  if yolo w then Returns w
  else if yolo_init_ok then
    Returns {| yolo := true; _frame_counter := _frame_counter w;
               next_pose := next_pose w; trace := EvYoloInit :: trace w |}
  else Raises.

(** The result of a step of the tracker: the ROI list it returns, or the
    exception that escapes, with the list as the caller still holds it. *)
Inductive seed_result : Type :=
| Seeded (locked_rois : list roi) (w : world)
| SeedRaised (locked_rois : list roi) (w : world).

(** The [for (x1, y1, x2, y2) in person_boxes] loop of the seeding step. *)
Fixpoint seed_boxes (person_boxes : list bbox) (image_width image_height : Z)
    (margin_ratio : Q) (locked_rois : list roi) (w : world)
    : list roi * world :=
  match person_boxes with
  | [] => (locked_rois, w)
  | (x1, y1, x2, y2) :: rest =>
    let '(x1e, y1e, x2e, y2e) :=
      _expand_and_clip_bbox x1 y1 x2 y2 image_width image_height
        margin_ratio in
    let '(roi_pose, w1) := new_pose w in
    seed_boxes rest image_width image_height margin_ratio
      (locked_rois ++ [ {| x1 := x1e; y1 := y1e; x2 := x2e; y2 := y2e;
                           lost := 0; pose := roi_pose;
                           overlap_streak := 0 |} ])
      w1
  end.

Definition _seed_rois_if_needed (yolo_init_ok : bool) (f : Frame)
    (locked_rois : list roi) (margin_ratio : Q) (w : world) : seed_result :=
  match _ensure_yolo yolo_init_ok w with
  | Raises => SeedRaised locked_rois w
  | Returns w0 =>
    match locked_rois with
    | [] =>
      let w1 := log EvPredict w0 in
      match yolo_predict f with
      | Raises => SeedRaised locked_rois w1
      | Returns boxes =>
        let person_boxes := person_boxes_of boxes in
        let '(rois, w2) :=
          seed_boxes person_boxes (image_width f) (image_height f)
            margin_ratio locked_rois w1 in
        Seeded rois w2
      end
    | _ :: _ => Seeded locked_rois w0
    end
  end.

(** ** The per-frame step *)

(** The remap of a hit's landmarks to full-frame coordinates, inside
    [try: ... except Exception: pass]: the float division by an [int] zero
    raises at the first landmark, and then nothing is emitted. *)
Definition map_landmarks (x1e y1e x2e y2e image_width image_height : Z)
    (landmarks : list landmark) : option (list landmark) :=
  match landmarks with
  | [] => Some []
  | _ :: _ =>
    if (image_width =? 0) || (image_height =? 0) then None
    else Some (map (fun lmk =>
      {| lmk_x := (lmk_x lmk * float (x2e - x1e) + float x1e)
                  / float image_width;
         lmk_y := (lmk_y lmk * float (y2e - y1e) + float y1e)
                  / float image_height;
         lmk_z := lmk_z lmk;
         lmk_visibility := lmk_visibility lmk |}%Q) landmarks)
  end.

Inductive track_result : Type :=
| Tracked (locked_rois : list roi) (outputs : list (nat * list landmark))
    (rois_needing_reseed : list nat) (w : world)
| TrackRaised (locked_rois : list roi) (w : world).

(** [for person_id, roi in enumerate(locked_rois)]: the estimator call is
    outside any [try], so its exception leaves the loop and the function;
    the regions before it keep their updates. *)
Fixpoint track_rois (frame_threshold : Z) (f : Frame) (person_id : nat)
    (locked_rois : list roi) (w : world) : track_result :=
  match locked_rois with
  | [] => Tracked [] [] [] w
  | roi :: rest =>
    let '(x1e, y1e, x2e, y2e) := roi_box roi in
    let w1 := log (EvProcess (pose roi) (x1e, y1e, x2e, y2e)) w in
    match pose_process f (pose roi) (x1e, y1e, x2e, y2e) with
    | Raises => TrackRaised (roi :: rest) w1
    | Returns (Some pose_landmarks) =>
      let roi' := set_lost 0 roi in
      let emitted :=
        match map_landmarks x1e y1e x2e y2e (image_width f) (image_height f)
                pose_landmarks with
        | Some original_landmarks => [(person_id, original_landmarks)]
        | None => []
        end in
      match track_rois frame_threshold f (S person_id) rest w1 with
      | Tracked rois outputs need w2 =>
        Tracked (roi' :: rois) (emitted ++ outputs) need w2
      | TrackRaised rois w2 => TrackRaised (roi' :: rois) w2
      end
    | Returns None =>
      let roi' := set_lost (lost roi + 1) roi in
      let marked :=
        if frame_threshold <=? lost roi' then [person_id] else [] in
      match track_rois frame_threshold f (S person_id) rest w1 with
      | Tracked rois outputs need w2 =>
        Tracked (roi' :: rois) outputs (marked ++ need) w2
      | TrackRaised rois w2 => TrackRaised (roi' :: rois) w2
      end
    end
  end.

(** The constants of the reseed: [reserved_iou = 0.5] and
    [lambda_iou = 0.5] in the step, [self.smooth_alpha = 0.5] set by
    [__init__]. *)
Definition reserved_iou : Q := 1 # 2.
Definition lambda_iou : Q := 1 # 2.
Definition smooth_alpha : Q := 1 # 2.

(** [healthy_boxes]: the boxes of the regions with [lost == 0]. *)
Definition healthy_boxes_of (locked_rois : list roi) : list bbox :=
  map roi_box (List.filter (fun r => lost r =? 0) locked_rois).

(** The [for hb in healthy_boxes: if iou >= reserved_iou: ...; break]
    loops: is the box within [reserved_iou] of a healthy region? *)
Definition reserved (healthy_boxes : list bbox) (b : bbox) : bool :=
  existsb (fun hb => Qle_bool reserved_iou (_iou b hb)) healthy_boxes.

Definition filtered_boxes_of (healthy_boxes person_boxes : list bbox)
    : list bbox :=
  List.filter (fun b => negb (reserved healthy_boxes b)) person_boxes.

Inductive reseed_result : Type :=
| Reseeded (locked_rois : list roi) (w : world)
| ReseedRaised (locked_rois : list roi) (w : world).

Inductive step_result : Type :=
| Returned (outputs : list (nat * list landmark)) (locked_rois : list roi)
    (w : world)
| Raised (locked_rois : list roi) (w : world).

Section Tracker.

(** [np.sqrt], and [scipy.optimize.linear_sum_assignment], which returns
    the row and the column indices of the pairing it chose. *)
Variable np_sqrt : Q -> Q.
Variable linear_sum_assignment : list (list Q) -> list nat * list nat.

(** [diag = np.sqrt(image_width * image_width + image_height * image_height)] *)
Definition diag_of (f : Frame) : Q :=
  np_sqrt (float (image_width f * image_width f
                  + image_height f * image_height f)).

(** The entry [cost[i, j]] for the region [rr] and the detection [det]. *)
Definition cost_entry (diag : Q) (rr : roi) (det : bbox) : Q :=
  let '(cx, cy) := _roi_center (x1 rr) (y1 rr) (x2 rr) (y2 rr) in
  let '(dcx, dcy) :=
    let '(bx1, by1, bx2, by2) := det in _roi_center bx1 by1 bx2 by2 in
  let dx := (dcx - cx)%Q in
  let dy := (dcy - cy)%Q in
  let dist_norm :=
    (np_sqrt (dx * dx + dy * dy) / Qmax (1 # 1000000) diag)%Q in
  let iou_val := _iou (roi_box rr) det in
  (dist_norm + lambda_iou * (1 - iou_val))%Q.

(** One row per region needing reseed, one column per kept detection.
    The indices of [rois_needing_reseed] come from [enumerate], so the
    lookup always succeeds. *)
Definition cost_matrix (diag : Q) (locked_rois : list roi)
    (rois_needing_reseed : list nat) (person_boxes : list bbox)
    : list (list Q) :=
  map (fun idx =>
         match locked_rois !! idx with
         | Some rr => map (cost_entry diag rr) person_boxes
         | None => []
         end) rois_needing_reseed.

(** The guards of the loop over [zip(row_ind, col_ind)], which read
    nothing the loop changes: the index checks, the gate on the cost and
    the final conflict check.  The result is the slot to reseed, the
    detection it was paired with and the expanded box. *)
Definition accepted_match (f : Frame) (cost : list (list Q)) (max_dist : Q)
    (healthy_boxes : list bbox) (rois_needing_reseed : list nat)
    (person_boxes : list bbox) (rc : nat * nat)
    : option (nat * bbox * bbox) :=
  let '(r_i, c_j) := rc in
  if (r_i <? length rois_needing_reseed)%nat
     && (c_j <? length person_boxes)%nat then
    match cost !! r_i ≫= (.!! c_j),
          rois_needing_reseed !! r_i, person_boxes !! c_j with
    | Some c, Some roi_index, Some (rx1, ry1, rx2, ry2) =>
      if Qle_bool c max_dist then
        let nb := _expand_and_clip_bbox rx1 ry1 rx2 ry2
                    (image_width f) (image_height f) (1 # 4) in
        if reserved healthy_boxes nb then None
        else Some (roi_index, (rx1, ry1, rx2, ry2), nb)
      else None
    | _, _, _ => None
    end
  else None.

(** The body of the loop once a pair is accepted: the old estimator is
    closed (an error of [close] is swallowed), the box smoothed, a new
    estimator made, [lost] reset. *)
Definition apply_reseed (roi_index : nat) (nb : bbox)
    (st : list roi * world) : list roi * world :=
  let '(locked_rois, w) := st in
  match locked_rois !! roi_index with
  | Some roi =>
    let w1 := log (EvPoseClose (pose roi)) w in
    let '(sx1, sy1, sx2, sy2) :=
      _smooth_box (roi_box roi) nb smooth_alpha in
    let '(roi_pose, w2) := new_pose w1 in
    (<[roi_index := {| x1 := sx1; y1 := sy1; x2 := sx2; y2 := sy2;
                       lost := 0; pose := roi_pose;
                       overlap_streak := overlap_streak roi |}]>
       locked_rois, w2)
  | None => st
  end.

Definition reseed_pair (f : Frame) (cost : list (list Q)) (max_dist : Q)
    (healthy_boxes : list bbox) (rois_needing_reseed : list nat)
    (person_boxes : list bbox) (st : list roi * world) (rc : nat * nat)
    : list roi * world :=
  match accepted_match f cost max_dist healthy_boxes rois_needing_reseed
          person_boxes rc with
  | Some (roi_index, _, nb) => apply_reseed roi_index nb st
  | None => st
  end.

(** [if rois_needing_reseed: ...].  The detector call is outside any
    [try]; with [self.yolo] still [None] the attribute access raises. *)
Definition reseed_step (f : Frame) (locked_rois : list roi)
    (rois_needing_reseed : list nat) (w : world) : reseed_result :=
  match rois_needing_reseed with
  | [] => Reseeded locked_rois w
  | _ :: _ =>
    if yolo w then
      let w1 := log EvPredict w in
      match yolo_predict f with
      | Raises => ReseedRaised locked_rois w1
      | Returns boxes =>
        let person_boxes := person_boxes_of boxes in
        let healthy_boxes := healthy_boxes_of locked_rois in
        let person_boxes := filtered_boxes_of healthy_boxes person_boxes in
        match person_boxes with
        | [] => Reseeded locked_rois w1
        | _ :: _ =>
          let diag := diag_of f in
          let cost :=
            cost_matrix diag locked_rois rois_needing_reseed person_boxes in
          let '(row_ind, col_ind) := linear_sum_assignment cost in
          let max_dist := ((8 # 100) * diag)%Q in
          let '(rois, w2) :=
            fold_left
              (reseed_pair f cost max_dist healthy_boxes
                 rois_needing_reseed person_boxes)
              (zip row_ind col_ind) (locked_rois, w1) in
          Reseeded rois w2
        end
      end
    else ReseedRaised locked_rois w
  end.

(** *** Deduplication

    The source runs the pass inside [try: ... except Exception: pass];
    nothing in it can raise here, as every index is in range and every
    key is present. *)

Definition bump_streak (r : roi) : roi :=
  set_overlap_streak (overlap_streak r + 1) r.

(** The body of the inner loop for the pair [(i, j)]. *)
Definition dedup_pair (i j : nat) (st : list roi * gset nat * world)
    : list roi * gset nat * world :=
  let '(locked_rois, to_remove, w) := st in
  match locked_rois !! i, locked_rois !! j with
  | Some ri, Some rj =>
    let iou_val := _iou (roi_box ri) (roi_box rj) in
    if negb (Qle_bool iou_val (55 # 100)) then
      let locked_rois := alter bump_streak i locked_rois in
      let locked_rois := alter bump_streak j locked_rois in
      match locked_rois !! i, locked_rois !! j with
      | Some ri, Some rj =>
        if (3 <=? overlap_streak ri) && (3 <=? overlap_streak rj) then
          let drop := if lost rj <=? lost ri then i else j in
          let w :=
            match locked_rois !! drop with
            | Some rd => log (EvPoseClose (pose rd)) w
            | None => w
            end in
          (locked_rois, {[drop]} ∪ to_remove, w)
        else (locked_rois, to_remove, w)
      | _, _ => (locked_rois, to_remove, w)
      end
    else
      let locked_rois := alter (set_overlap_streak 0) i locked_rois in
      let locked_rois := alter (set_overlap_streak 0) j locked_rois in
      (locked_rois, to_remove, w)
  | _, _ => st
  end.

(** [for j in range(i + 1, n): if j in to_remove: continue; ...] *)
Definition dedup_inner (n i : nat) (st : list roi * gset nat * world)
    : list roi * gset nat * world :=
  fold_left
    (fun st j =>
       if decide (j ∈ st.1.2) then st else dedup_pair i j st)
    (seq (S i) (n - S i)) st.

(** [for i in range(n): if i in to_remove: continue; ...] *)
Definition dedup_outer (n : nat) (st : list roi * gset nat * world)
    : list roi * gset nat * world :=
  fold_left
    (fun st i =>
       if decide (i ∈ st.1.2) then st else dedup_inner n i st)
    (seq 0 n) st.

(** [[r for idx, r in enumerate(locked_rois) if idx not in to_remove]] *)
Fixpoint keep_rois (to_remove : gset nat) (idx : nat)
    (locked_rois : list roi) : list roi :=
  match locked_rois with
  | [] => []
  | r :: rest =>
    if decide (idx ∈ to_remove) then keep_rois to_remove (S idx) rest
    else r :: keep_rois to_remove (S idx) rest
  end.

Definition dedup (locked_rois : list roi) (w : world) : list roi * world :=
  let n := length locked_rois in
  let '(locked_rois, to_remove, w) := dedup_outer n (locked_rois, ∅, w) in
  if decide (to_remove = ∅) then (locked_rois, w)
  else (keep_rois to_remove 0 locked_rois, w).

(** *** The step *)

(** The first half of the step: the tracking loop, then the reseed. *)
Definition track_and_reseed (frame_threshold : Z) (f : Frame)
    (locked_rois : list roi) (w : world) : step_result :=
  match track_rois frame_threshold f 0 locked_rois w with
  | TrackRaised rois w1 => Raised rois w1
  | Tracked rois outputs rois_needing_reseed w1 =>
    match reseed_step f rois rois_needing_reseed w1 with
    | ReseedRaised rois w2 => Raised rois w2
    | Reseeded rois w2 => Returned outputs rois w2
    end
  end.

Definition _process_multiperson_frame (frame_threshold : Z) (f : Frame)
    (locked_rois : list roi) (w : world) : step_result :=
  match locked_rois with
  | [] => Returned [] locked_rois w
  | _ :: _ =>
    match track_and_reseed frame_threshold f locked_rois w with
    | Raised rois w2 => Raised rois w2
    | Returned outputs rois w2 =>
      let w3 := tick w2 in
      let '(rois, w4) := dedup rois w3 in
      Returned outputs rois w4
    end
  end.

(** The multi-person branch of the frame loop of [extract_pose_features]
    for one frame: seed, skip the frame when there is still no region,
    else run the step. *)
Definition frame_step (yolo_init_ok : bool) (frame_threshold : Z)
    (f : Frame) (locked_rois : list roi) (w : world) : step_result :=
  match _seed_rois_if_needed yolo_init_ok f locked_rois (1 # 4) w with
  | SeedRaised rois w1 => Raised rois w1
  | Seeded [] w1 => Returned [] [] w1
  | Seeded rois w1 => _process_multiperson_frame frame_threshold f rois w1
  end.

End Tracker.

(** The ROI list a step leaves behind, returned or not. *)
Definition result_rois (r : step_result) : list roi :=
  match r with
  | Returned _ rois _ => rois
  | Raised rois _ => rois
  end.

Definition result_world (r : step_result) : world :=
  match r with
  | Returned _ _ w => w
  | Raised _ w => w
  end.

(** Consecutive frames of the frame loop once regions exist (seeding is
    then a no-op): the step is run on each frame in turn, and an exception
    ends the loop.  The result is that of the last frame run. *)
Fixpoint run_frames (np_sqrt : Q -> Q)
    (linear_sum_assignment : list (list Q) -> list nat * list nat)
    (frame_threshold : Z) (frames : list Frame) (locked_rois : list roi)
    (w : world) : step_result :=
  match frames with
  | [] => Returned [] locked_rois w
  | f :: rest =>
    match _process_multiperson_frame np_sqrt linear_sum_assignment
            frame_threshold f locked_rois w with
    | Returned outputs rois w' =>
        match rest with
        | [] => Returned outputs rois w'
        | _ :: _ => run_frames np_sqrt linear_sum_assignment frame_threshold
                      rest rois w'
        end
    | Raised rois w' => Raised rois w'
    end
  end.


(** A detection box expanded by the margin 0.25 and clipped to the frame. *)
Definition expand_box (f : Frame) (b : bbox) : bbox :=
  let '(bx1, by1, bx2, by2) := b in
  _expand_and_clip_bbox bx1 by1 bx2 by2 (image_width f) (image_height f)
    (1 # 4).



(** How often the detector ran in a stretch of the log. *)
Definition detector_runs (evs : list event) : nat :=
  length (List.filter (fun e => bool_decide (e = EvPredict)) evs).

(** The remap of one landmark of a hit in the region [r]:
    [full = (local * region_size + region_origin) / frame_size]. *)
Definition to_full_frame (f : Frame) (r : roi) (lmk : landmark) : landmark :=
  {| lmk_x := (lmk_x lmk * float (x2 r - x1 r) + float (x1 r))
              / float (image_width f);
     lmk_y := (lmk_y lmk * float (y2 r - y1 r) + float (y1 r))
              / float (image_height f);
     lmk_z := lmk_z lmk;
     lmk_visibility := lmk_visibility lmk |}%Q.

(** The default of the [frame_threshold] argument of [PoseProcessor]. *)
Definition default_frame_threshold : Z := 10.

(** The estimator call the tracking loop makes for a region. *)
Definition process_call (r : roi) : event := EvProcess (pose r) (roi_box r).

(** The center of a box, and the Euclidean distance between the centers of
    two boxes. *)
Definition box_center (b : bbox) : Q * Q :=
  let '(bx1, by1, bx2, by2) := b in _roi_center bx1 by1 bx2 by2.

Definition center_distance (np_sqrt : Q -> Q) (a b : bbox) : Q :=
  let '(cx, cy) := box_center a in
  let '(dcx, dcy) := box_center b in
  np_sqrt ((dcx - cx) * (dcx - cx) + (dcy - cy) * (dcy - cy))%Q.

(** A box lies within the frame. *)
Definition in_frame (f : Frame) (b : bbox) : Prop :=
  let '(bx1, by1, bx2, by2) := b in
  (0 <= bx1 <= image_width f /\ 0 <= bx2 <= image_width f)
  /\ (0 <= by1 <= image_height f /\ 0 <= by2 <= image_height f).

(** The cost of pairing a region with a detection, in the words of the
    specification: the distance between the centers of the two boxes
    divided by the frame diagonal, plus 0.5 times (1 - IoU). *)
Definition pairing_cost (np_sqrt : Q -> Q) (f : Frame) (rr : roi)
    (det : bbox) : Q :=
  (center_distance np_sqrt (roi_box rr) det / diag_of np_sqrt f
   + (1 # 2) * (1 - _iou (roi_box rr) det))%Q.

(** The box has IoU below 0.5 with the box of every healthy region of the
    list ([lost == 0]). *)
Definition unreserved (locked_rois : list roi) (b : bbox) : Prop :=
  forall hb, In hb (healthy_boxes_of locked_rois) -> (_iou b hb < 1 # 2)%Q.





(** ** Teardown, and the frame loops of the two drivers *)

(** [_cleanup_locked_rois]: one [try] around the whole loop, so the first
    [close] that raises ends the teardown; [close_raises h] tells whether
    closing the estimator [h] raises. *)
Fixpoint _cleanup_locked_rois (close_raises : nat -> bool)
    (locked_rois : list roi) (w : world) : world :=
  match locked_rois with
  | [] => w
  | roi :: rest =>
    let w1 := log (EvPoseClose (pose roi)) w in
    if close_raises (pose roi) then w1
    else _cleanup_locked_rois close_raises rest w1
  end.

(** A cell of a row of [keypoints_by_person]: the frame index and the
    person id are ints, the landmark values floats. *)
Inductive cell : Type :=
| CInt (z : Z)
| CFloat (q : Q).

(** [row.extend([lmk.x, lmk.y, lmk.z, lmk.visibility])] for every landmark. *)
Definition landmark_cells (landmarks : list landmark) : list cell :=
  flat_map (fun lmk => [CFloat (lmk_x lmk); CFloat (lmk_y lmk);
                        CFloat (lmk_z lmk); CFloat (lmk_visibility lmk)])
    landmarks.

(** [row = [frame_idx, person_id]] followed by the landmark values. *)
Definition make_row (frame_idx person_id : nat) (landmarks : list landmark)
    : list cell :=
  CInt (Z.of_nat frame_idx) :: CInt (Z.of_nat person_id)
  :: landmark_cells landmarks.

(** [keypoints_by_person[person_id].append(row)], the list being made on
    the first row of the person. *)
Definition append_row (person_id : nat) (row : list cell)
    (keypoints_by_person : gmap nat (list (list cell)))
    : gmap nat (list (list cell)) :=
  <[person_id := default [] (keypoints_by_person !! person_id) ++ [row]]>
    keypoints_by_person.

(** [for person_id, mp_landmarks in mp_outputs: ...] *)
Definition append_rows (frame_idx : nat)
    (mp_outputs : list (nat * list landmark))
    (keypoints_by_person : gmap nat (list (list cell)))
    : gmap nat (list (list cell)) :=
  fold_left (fun kbp out => append_row out.1 (make_row frame_idx out.1 out.2)
                              kbp)
    mp_outputs keypoints_by_person.

(** The column names of the CSV files. *)
Definition landmark_names : list string :=
  ["Nose"; "Left_eye_inner"; "Left_eye"; "Left_eye_outer"; "Right_eye_inner";
   "Right_eye"; "Right_eye_outer"; "Left_ear"; "Right_ear"; "Mouth_left";
   "Mouth_right"; "Left_shoulder"; "Right_shoulder"; "Left_elbow";
   "Right_elbow"; "Left_wrist"; "Right_wrist"; "Left_pinky"; "Right_pinky";
   "Left_index"; "Right_index"; "Left_thumb"; "Right_thumb"; "Left_hip";
   "Right_hip"; "Left_knee"; "Right_knee"; "Left_ankle"; "Right_ankle";
   "Left_heel"; "Right_heel"; "Left_foot_index"; "Right_foot_index"]%string.

Definition columns : list string :=
  ["frame"; "person_id"]%string
  ++ flat_map (fun n => [n +:+ "_x"; n +:+ "_y"; n +:+ "_z";
                         n +:+ "_confidence"]%string) landmark_names.

Inductive loop_result : Type :=
| LoopDone (frame_idx : nat)
    (keypoints_by_person : gmap nat (list (list cell)))
    (locked_rois : list roi) (w : world)
| LoopRaised (locked_rois : list roi) (w : world).

Inductive extract_result : Type :=
| Extracted (keypoints_by_person : gmap nat (list (list cell))) (w : world)
| ExtractRaised (w : world).

(** What [embed_pose_video] returns: [None] without an output folder, the
    output video (for every frame written, the landmark lists drawn on
    it), or the exception that escapes. *)
Inductive embed_result : Type :=
| EmbedNone
| Embedded (written : list (list (list landmark))) (w : world)
| EmbedRaised (written : list (list (list landmark))) (w : world).

Section Drivers.

(** The collaborators of the drivers: [np.sqrt] and the assignment solver
    as before; whether the detector loads; the answer of the estimator
    [self.pose] of the single-person mode on a frame; whether [close] of
    an estimator raises; whether [pd.DataFrame(keypoints, columns=columns)]
    raises on a table (it does when the rows have not as many cells as
    there are columns) and whether [to_csv] raises on the file of a
    person; whether [draw_landmarks] raises on a landmark list.  The
    frames of a video are those [cap.read()] returns before its first
    failure.  Status and progress callbacks are left out. *)
Variable np_sqrt : Q -> Q.
Variable linear_sum_assignment : list (list Q) -> list nat * list nat.
Variable yolo_init_ok : bool.
Variable self_pose : Frame -> outcome (option (list landmark)).
Variable close_raises : nat -> bool.
Variable dataframe_raises : list (list cell) -> bool.
Variable to_csv_raises : nat -> bool.
Variable draw_raises : list landmark -> bool.
Variable frame_threshold : Z.
Variable enable_multi_person_pose : bool.

(** The [while] loop of [extract_pose_features]. *)
Fixpoint extract_frames (frames : list Frame) (frame_idx : nat)
    (keypoints_by_person : gmap nat (list (list cell)))
    (locked_rois : list roi) (w : world) : loop_result :=
  match frames with
  | [] => LoopDone frame_idx keypoints_by_person locked_rois w
  | f :: rest =>
    if enable_multi_person_pose then
      match frame_step np_sqrt linear_sum_assignment yolo_init_ok
              frame_threshold f locked_rois w with
      | Raised rois w1 => LoopRaised rois w1
      | Returned mp_outputs rois w1 =>
        extract_frames rest (S frame_idx)
          (append_rows frame_idx mp_outputs keypoints_by_person) rois w1
      end
    else
      match self_pose f with
      | Raises => LoopRaised locked_rois w
      | Returns None =>
        extract_frames rest (S frame_idx) keypoints_by_person locked_rois w
      | Returns (Some pose_landmarks) =>
        extract_frames rest (S frame_idx)
          (append_row 0 (make_row frame_idx 0 pose_landmarks)
             keypoints_by_person)
          locked_rois w
      end
  end.

(** The loop [for person_id, keypoints in keypoints_by_person.items()]
    that saves one CSV file per person: it raises when the [DataFrame] of
    a table cannot be built or its file cannot be written.  Which files
    were written before the failure is not modelled. *)
Definition save_raises (keypoints_by_person : gmap nat (list (list cell)))
    : bool :=
  existsb (fun entry => dataframe_raises entry.2 || to_csv_raises entry.1)
    (map_to_list keypoints_by_person).

(** [extract_pose_features]: the frame loop, the teardown, then the
    saving of the tables, one per person id.  Nothing catches an
    exception of the loop (the teardown is then not run) or of the
    saving (the teardown has then run). *)
Definition extract_pose_features (frames : list Frame) (w : world)
    : extract_result :=
  match extract_frames frames 0 ∅ [] w with
  | LoopRaised _ w1 => ExtractRaised w1
  | LoopDone _ keypoints_by_person locked_rois w1 =>
    let w2 := _cleanup_locked_rois close_raises locked_rois w1 in
    if save_raises keypoints_by_person then ExtractRaised w2
    else Extracted keypoints_by_person w2
  end.

(** The drawing of the outputs of a frame in the multi-person mode: each
    call is in its own [try], a failure is reported and skipped. *)
Definition draw_outputs (mp_outputs : list (nat * list landmark))
    : list (list landmark) :=
  List.filter (fun lms => negb (draw_raises lms)) (map snd mp_outputs).

(** The [while] loop of [embed_pose_video]; [written] is the output video
    so far, newest frame last. *)
Fixpoint embed_frames (frames : list Frame)
    (written : list (list (list landmark)))
    (locked_rois : list roi) (w : world) : embed_result * list roi :=
  match frames with
  | [] => (Embedded written w, locked_rois)
  | f :: rest =>
    if enable_multi_person_pose then
      match frame_step np_sqrt linear_sum_assignment yolo_init_ok
              frame_threshold f locked_rois w with
      | Raised rois w1 => (EmbedRaised written w1, rois)
      | Returned mp_outputs rois w1 =>
        embed_frames rest (written ++ [draw_outputs mp_outputs]) rois w1
      end
    else
      match self_pose f with
      | Raises => (EmbedRaised written w, locked_rois)
      | Returns None => embed_frames rest (written ++ [[]]) locked_rois w
      | Returns (Some pose_landmarks) =>
        if draw_raises pose_landmarks
        then (EmbedRaised written w, locked_rois)
        else embed_frames rest (written ++ [[pose_landmarks]]) locked_rois w
      end
  end.

(** [embed_pose_video]; [output_video_folder] tells whether the folder is
    set. *)
Definition embed_pose_video (output_video_folder : bool)
    (frames : list Frame) (w : world) : embed_result :=
  if output_video_folder then
    match embed_frames frames [] [] w with
    | (Embedded written w1, locked_rois) =>
      Embedded written (_cleanup_locked_rois close_raises locked_rois w1)
    | (r, _) => r
    end
  else EmbedNone.

End Drivers.

(** ** Invariants of the ROI list *)

(** A box is ordered and lies within the frame. *)
Definition box_ok (f : Frame) (b : bbox) : Prop :=
  let '(bx1, by1, bx2, by2) := b in
  (0 <= bx1 < bx2 /\ bx2 <= image_width f)
  /\ (0 <= by1 < by2 /\ by2 <= image_height f).

(** A detection box the clipping handles as its docstring says: ordered,
    with its far corner at least [(1, 1)]. *)
Definition det_ok (b : bbox) : Prop :=
  let '(bx1, by1, bx2, by2) := b in
  (bx1 < bx2 /\ 1 <= bx2) /\ (by1 < by2 /\ 1 <= by2).

(** What the detector answers on the frame, if it answers, is handled by
    the clipping. *)
Definition detections_ok (f : Frame) : Prop :=
  forall boxes b,
    yolo_predict f = Returns boxes -> In b (person_boxes_of boxes) ->
    det_ok b.

(** Every region is ordered and within the frame. *)
Definition rois_ok (f : Frame) (locked_rois : list roi) : Prop :=
  Forall (fun r => box_ok f (roi_box r)) locked_rois.

(** Every region owns an estimator of its own, made before now. *)
Definition estimators_owned (locked_rois : list roi) (w : world) : Prop :=
  NoDup (map pose locked_rois)
  /\ Forall (fun r => (pose r < next_pose w)%nat) locked_rois.

(** A region without its streak: what deduplication leaves alone. *)
Definition region_core (r : roi) : bbox * Z * nat :=
  (roi_box r, lost r, pose r).

(** The frame index and the person id a row starts with. *)
(** The table of a person after [n] frames: one row for each of some
    frames below [n], in increasing order of the frame, each starting with
    the frame index and the person id; [Q] holds of the landmark lists. *)
Definition table_ok (Q : list landmark -> Prop) (n person_id : nat)
    (rows : list (list cell)) : Prop :=
  exists entries : list (nat * list landmark),
    entries <> []
    /\ rows = map (fun e => make_row e.1 person_id e.2) entries
    /\ StronglySorted lt (map fst entries)
    /\ Forall (fun e => (e.1 < n)%nat /\ Q e.2) entries.

(** The rows of the single-person mode: one for every frame on which
    [self.pose] finds landmarks, counted from the frame index [i]. *)
Fixpoint single_person_rows
    (self_pose : Frame -> outcome (option (list landmark)))
    (i : nat) (frames : list Frame) : list (list cell) :=
  match frames with
  | [] => []
  | f :: rest =>
    match self_pose f with
    | Returns (Some lms) =>
      make_row i 0 lms :: single_person_rows self_pose (S i) rest
    | _ => single_person_rows self_pose (S i) rest
    end
  end.

(** The index of the last region among those with the smallest [lost], in
    a list of [lost] values. *)
Definition keeper (losts : list Z) (m : nat) : Prop :=
  exists lm, losts !! m = Some lm
    /\ forall k lk, losts !! k = Some lk ->
         lm <= lk /\ (lk = lm -> (k <= m)%nat).

(** ** The life cycle of the estimators *)

(** Every call of an estimator in the log comes before any [close] of the
    same estimator (the log has the newest event first). *)
Fixpoint uses_open (evs : list event) : Prop :=
  match evs with
  | [] => True
  | EvProcess h _ :: older => ~ In (EvPoseClose h) older /\ uses_open older
  | _ :: older => uses_open older
  end.

(** The life cycle of the estimators, for the handles [hs] of the regions
    and the indices [to_remove] already dropped by a deduplication pass:
    only estimators that were made have been closed, no estimator was
    called after its [close], the estimator of a region still kept is not
    closed, and an estimator made is closed or held by a region still
    kept. *)
Definition lifecycle (hs : list nat) (to_remove : gset nat) (w : world)
    : Prop :=
  (forall h, In (EvPoseClose h) (trace w) -> (h < next_pose w)%nat)
  /\ uses_open (trace w)
  /\ (forall idx h, hs !! idx = Some h -> idx ∉ to_remove ->
        ~ In (EvPoseClose h) (trace w))
  /\ (forall h, In (EvPoseNew h) (trace w) ->
        In (EvPoseClose h) (trace w)
        \/ exists idx, hs !! idx = Some h /\ idx ∉ to_remove).

(** The state of the tracker between two steps. *)
Definition tracker_ok (locked_rois : list roi) (w : world) : Prop :=
  estimators_owned locked_rois w /\ lifecycle (map pose locked_rois) ∅ w.

(** The state of a deduplication pass over regions with the handles
    [hs], none of them at or above [n0]. *)
Definition dedup_state_ok (hs : list nat) (n0 : nat)
    (st : list roi * gset nat * world) : Prop :=
  map pose st.1.1 = hs /\ next_pose st.2 = n0 /\ lifecycle hs st.1.2 st.2.

(** ** Stand-ins for the collaborators, for the examples

    The integer square root (monotone, as [np.sqrt] is) and the pairing
    along the diagonal of the cost matrix. *)
Definition sqrt_floor (q : Q) : Q := float (Z.sqrt (Qfloor q)).

Definition diagonal_assignment (cost : list (list Q)) : list nat * list nat :=
  let k := Nat.min (length cost) (length (default [] (head cost))) in
  (seq 0 k, seq 0 k).
(** ** Example scenes

    Two overlapping regions (IoU 0.8) on a 640 x 480 frame, and frames that
    differ in what the collaborators answer. *)
Definition region_a : roi :=
  {| x1 := 0; y1 := 0; x2 := 10; y2 := 10;
     lost := 0; pose := 0; overlap_streak := 0 |}.

Definition region_b : roi :=
  {| x1 := 0; y1 := 0; x2 := 10; y2 := 8;
     lost := 0; pose := 1; overlap_streak := 0 |}.

(** A region far from the two, which has missed for nine frames. *)
Definition region_stale : roi :=
  {| x1 := 300; y1 := 200; x2 := 340; y2 := 300;
     lost := 9; pose := 2; overlap_streak := 0 |}.

Definition world0 : world :=
  {| yolo := true; _frame_counter := 0; next_pose := 3; trace := [] |}.

Definition person_at (bx1 by1 bx2 by2 : Z) : detection :=
  {| det_x1 := float bx1; det_y1 := float by1;
     det_x2 := float bx2; det_y2 := float by2;
     det_conf := 9 # 10; det_cls := 0 |}.

Definition one_landmark : list landmark :=
  [ {| lmk_x := 1 # 2; lmk_y := 1 # 4; lmk_z := 0; lmk_visibility := 1 |} ].

(** Every estimator finds its person. *)
Definition frame_all_hit : Frame :=
  {| image_width := 640; image_height := 480;
     yolo_predict := Returns [];
     pose_process := fun _ _ => Returns (Some one_landmark) |}.

(** The estimator 0 finds its person, the others do not; the detector sees
    the given persons. *)
Definition frame_first_hits (dets : list detection) : Frame :=
  {| image_width := 640; image_height := 480;
     yolo_predict := Returns dets;
     pose_process := fun h _ =>
       if (h =? 0)%nat then Returns (Some one_landmark) else Returns None |}.

(** The estimator 1 raises. *)
Definition frame_estimator_raises : Frame :=
  {| image_width := 640; image_height := 480;
     yolo_predict := Returns [];
     pose_process := fun h _ =>
       if (h =? 1)%nat then Raises else Returns None |}.

(** No estimator finds its person, and the detector raises. *)
Definition frame_detector_raises : Frame :=
  {| image_width := 640; image_height := 480;
     yolo_predict := Raises;
     pose_process := fun _ _ => Returns None |}.

(** The same, on a frame of 10 x 10 pixels. *)
Definition frame_small (dets : list detection) : Frame :=
  {| image_width := 10; image_height := 10;
     yolo_predict := Returns dets;
     pose_process := fun _ _ => Returns None |}.

(** The detector is not loaded yet. *)
Definition world_unloaded : world :=
  {| yolo := false; _frame_counter := 0; next_pose := 0; trace := [] |}.



(** The 33 landmarks of a pose. *)
Definition full_landmarks : list landmark :=
  repeat {| lmk_x := 1 # 2; lmk_y := 1 # 4; lmk_z := 0;
            lmk_visibility := 1 |} 33.

(** A frame of a video on which every estimator finds a whole pose and
    the detector sees the given persons. *)
Definition frame_full_pose (dets : list detection) : Frame :=
  {| image_width := 640; image_height := 480;
     yolo_predict := Returns dets;
     pose_process := fun _ _ => Returns (Some full_landmarks) |}.

(** The estimator of the single-person mode finds a whole pose on the
    frames of 640 pixels width and nothing on the others. *)
Definition self_pose_wide (f : Frame)
    : outcome (option (list landmark)) :=
  if image_width f =? 640 then Returns (Some full_landmarks)
  else Returns None.

(** Two persons side by side, and a short video of them. *)
Definition two_persons : list detection :=
  [person_at 100 100 200 300; person_at 400 100 500 300].

Definition video_two_persons : list Frame :=
  [frame_full_pose two_persons; frame_full_pose two_persons;
   frame_full_pose two_persons].

(** What [pd.DataFrame] does with a table: it raises unless every row
    has as many cells as there are columns. *)
Definition dataframe_checks (rows : list (list cell)) : bool :=
  negb (forallb (fun row => (length row =? length columns)%nat) rows).

(** ** Geometry lemmas *)

Lemma _iou_unfold a b :
  _iou a b = if union_area a b <=? 0 then 0%Q
             else (float (inter_area a b) / float (union_area a b))%Q.
Proof. by destruct a as [[[??]?]?], b as [[[??]?]?]. Qed.

Lemma inter_area_comm a b : inter_area a b = inter_area b a.
Proof.
  destruct a as [[[ax1 ay1] ax2] ay2], b as [[[bx1 by1] bx2] by2]; simpl.
  by rewrite (Z.min_comm ax2), (Z.max_comm ax1), (Z.min_comm ay2),
    (Z.max_comm ay1).
Qed.

Lemma union_area_comm a b : union_area a b = union_area b a.
Proof. unfold union_area. rewrite inter_area_comm. lia. Qed.

Lemma inter_area_nonneg a b : 0 <= inter_area a b.
Proof.
  destruct a as [[[ax1 ay1] ax2] ay2], b as [[[bx1 by1] bx2] by2]; simpl.
  apply Z.mul_nonneg_nonneg; lia.
Qed.

Lemma inter_area_le_l a b : inter_area a b <= box_area a.
Proof.
  destruct a as [[[ax1 ay1] ax2] ay2], b as [[[bx1 by1] bx2] by2]; simpl.
  apply Z.mul_le_mono_nonneg; lia.
Qed.

Lemma inter_area_le_r a b : inter_area a b <= box_area b.
Proof. rewrite inter_area_comm. apply inter_area_le_l. Qed.

Lemma box_area_nonneg a : 0 <= box_area a.
Proof.
  destruct a as [[[ax1 ay1] ax2] ay2]; simpl. apply Z.mul_nonneg_nonneg; lia.
Qed.

Lemma inter_le_union a b : inter_area a b <= union_area a b.
Proof.
  unfold union_area.
  pose proof (inter_area_le_l a b). pose proof (inter_area_le_r a b). lia.
Qed.

Lemma inter_area_self a : inter_area a a = box_area a.
Proof.
  destruct a as [[[ax1 ay1] ax2] ay2]; simpl.
  by rewrite !Z.min_id, !Z.max_id.
Qed.

Lemma inter_area_disjoint a b : disjoint_boxes a b -> inter_area a b = 0.
Proof.
  destruct a as [[[ax1 ay1] ax2] ay2], b as [[[bx1 by1] bx2] by2]; simpl.
  intros [H|[H|[H|H]]].
  - replace (Z.max 0 (Z.min ax2 bx2 - Z.max ax1 bx1)) with 0 by lia. lia.
  - replace (Z.max 0 (Z.min ax2 bx2 - Z.max ax1 bx1)) with 0 by lia. lia.
  - replace (Z.max 0 (Z.min ay2 by2 - Z.max ay1 by1)) with 0 by lia. lia.
  - replace (Z.max 0 (Z.min ay2 by2 - Z.max ay1 by1)) with 0 by lia. lia.
Qed.

Lemma _iou_nonneg a b : (0 <= _iou a b)%Q.
Proof.
  rewrite _iou_unfold. destruct (Z.leb_spec (union_area a b) 0) as [H|H].
  - apply Qle_refl.
  - apply Qle_shift_div_l.
    + change 0%Q with (float 0). rewrite <- Zlt_Qlt. done.
    + rewrite Qmult_0_l. change 0%Q with (float 0). rewrite <- Zle_Qle.
      apply inter_area_nonneg.
Qed.

Lemma _iou_le_1 a b : (_iou a b <= 1)%Q.
Proof.
  rewrite _iou_unfold. destruct (Z.leb_spec (union_area a b) 0) as [H|H].
  - done.
  - apply Qle_shift_div_r.
    + change 0%Q with (float 0). rewrite <- Zlt_Qlt. done.
    + rewrite Qmult_1_l, <- Zle_Qle. apply inter_le_union.
Qed.

Lemma positive_area_box_area a : positive_area a <-> 0 < box_area a.
Proof.
  destruct a as [[[ax1 ay1] ax2] ay2]; simpl. split.
  - intros [Hx Hy]. apply Z.mul_pos_pos; lia.
  - intros H. destruct (Z.le_gt_cases ax2 ax1) as [Hx|Hx].
    + replace (Z.max 0 (ax2 - ax1)) with 0 in H by lia. lia.
    + destruct (Z.le_gt_cases ay2 ay1) as [Hy|Hy]; [|lia].
      replace (Z.max 0 (ay2 - ay1)) with 0 in H by lia. lia.
Qed.

Lemma _iou_comm a b : _iou a b = _iou b a.
Proof.
  by rewrite !_iou_unfold, (inter_area_comm a b), (union_area_comm a b).
Qed.

Lemma _iou_union_zero a b : union_area a b <= 0 -> _iou a b = 0%Q.
Proof.
  intros H. rewrite _iou_unfold.
  by destruct (Z.leb_spec (union_area a b) 0); [|lia].
Qed.

Lemma _iou_disjoint a b : disjoint_boxes a b -> (_iou a b == 0)%Q.
Proof.
  intros H. rewrite _iou_unfold, (inter_area_disjoint a b H).
  destruct (union_area a b <=? 0); [reflexivity|].
  unfold Qdiv. apply Qmult_0_l.
Qed.

Lemma _iou_self_positive a : positive_area a -> (_iou a a == 1)%Q.
Proof.
  intros H%positive_area_box_area. rewrite _iou_unfold.
  unfold union_area. rewrite inter_area_self.
  replace (box_area a + box_area a - box_area a) with (box_area a) by lia.
  destruct (Z.leb_spec (box_area a) 0); [lia|].
  apply Qmult_inv_r. intros Heq.
  change 0%Q with (float 0) in Heq. apply (proj1 (inject_Z_injective _ _)) in Heq. lia.
Qed.

Lemma _iou_self_degenerate a : ~ positive_area a -> _iou a a = 0%Q.
Proof.
  intros H. apply _iou_union_zero. unfold union_area.
  rewrite inter_area_self.
  pose proof (box_area_nonneg a).
  destruct (Z.le_gt_cases (box_area a) 0) as [?|Hpos]; [lia|].
  by apply positive_area_box_area in Hpos.
Qed.

(** ** C9: the IoU *)

(** C9, the claim as stated fails: [iou(a, a)] of a box of zero area is 0.0
    (its union area is 0), not 1.0. *)
Lemma iou_self_zero_area_box :
  _iou (5, 5, 5, 5) (5, 5, 5, 5) = 0%Q
  /\ ~ (_iou (5, 5, 5, 5)%Z (5, 5, 5, 5)%Z == 1)%Q.
Proof. split; [reflexivity | by vm_compute]. Qed.

(** C9, as amended: [_iou] is symmetric; it is 0.0 whenever the union area
    is 0 (no division happens) and for every pair of disjoint boxes;
    [iou(a, a)] is 1.0 for every box of positive area ([x1 < x2] and
    [y1 < y2]) and 0.0 for every other box. *)
Theorem iou_properties (a b : bbox) :
  _iou a b = _iou b a
  /\ (union_area a b <= 0 -> _iou a b = 0%Q)
  /\ (disjoint_boxes a b -> (_iou a b == 0)%Q)
  /\ (positive_area a -> (_iou a a == 1)%Q)
  /\ (~ positive_area a -> _iou a a = 0%Q).
Proof.
  split; [apply _iou_comm|].
  split; [apply _iou_union_zero|].
  split; [apply _iou_disjoint|].
  split; [apply _iou_self_positive | apply _iou_self_degenerate].
Qed.

Lemma iou_properties_witness :
  (_iou (0, 0, 10, 10)%Z (20, 20, 30, 30)%Z == 0)%Q
  /\ (_iou (0, 0, 10, 10)%Z (0, 0, 10, 10)%Z == 1)%Q
  /\ _iou (0, 0, 0, 0) (7, 7, 7, 7) = 0%Q.
Proof.
  destruct (iou_properties (0, 0, 10, 10) (20, 20, 30, 30))
    as (_ & _ & Hdisj & Hself & _).
  destruct (iou_properties (0, 0, 0, 0) (7, 7, 7, 7)) as (_ & Hzero & _).
  split; [apply Hdisj; simpl; lia|].
  split; [apply Hself; simpl; lia|].
  apply Hzero. vm_compute. discriminate.
Defined.

(** ** C1: expansion and clipping *)

Lemma py_int_nonneg (q : Q) : (0 <= q)%Q -> py_int q = Qfloor q.
Proof.
  intros H. unfold py_int.
  destruct (Z.ltb_spec (Qnum q) 0) as [Hneg|]; [|done].
  unfold Qle in H. simpl in H. lia.
Qed.

Lemma Qfloor_nonneg (q : Q) : (0 <= q)%Q -> 0 <= Qfloor q.
Proof. intros H. exact (Qfloor_resp_le 0 q H). Qed.

Lemma Qfloor_le_Z (q : Q) (z : Z) : (q <= float z)%Q -> Qfloor q <= z.
Proof. intros H. apply Qfloor_resp_le in H. by rewrite Qfloor_Z in H. Qed.

Lemma Qfloor_step (p q : Q) : (p + 1 <= q)%Q -> Qfloor p < Qfloor q.
Proof.
  intros H.
  assert (Hle : (float (Qfloor p + 1) <= q)%Q).
  { rewrite inject_Z_plus. pose proof (Qfloor_le p).
    change (float 1) with 1%Q. lra. }
  apply Qfloor_resp_le in Hle. rewrite Qfloor_Z in Hle. lia.
Qed.

Lemma Qnum_neg_iff (q : Q) : Qnum q < 0 <-> (q < 0)%Q.
Proof. unfold Qlt. simpl. lia. Qed.

Lemma py_int_comp (p q : Q) : (p == q)%Q -> py_int p = py_int q.
Proof.
  intros Heq. unfold py_int.
  destruct (Z.ltb_spec (Qnum p) 0) as [Hp|Hp],
           (Z.ltb_spec (Qnum q) 0) as [Hq|Hq].
  - by apply Qceiling_comp.
  - apply Qnum_neg_iff in Hp. rewrite Heq in Hp. apply Qnum_neg_iff in Hp. lia.
  - apply Qnum_neg_iff in Hq. rewrite <- Heq in Hq.
    apply Qnum_neg_iff in Hq. lia.
  - by apply Qfloor_comp.
Qed.

(** One axis of the clipping, for a box that has width on it and whose far
    edge is at least 1. *)
Lemma clip_axis_ordered (a b W : Z) (m : Q) :
  a < b -> 1 <= b -> 1 <= W -> (0 <= m)%Q ->
  let e1 := Qmax 0 (Qmin (float a - m) (float W - 1)) in
  let e2 := Qmax 0 (Qmin (float b + m) (float W - 0)) in
  let e2' := if Qle_bool e2 e1 then Qmin (float W * 1) (e1 + 1) else e2 in
  0 <= py_int e1 < py_int e2' /\ py_int e2' <= W.
Proof.
  intros Hab Hb HW Hm e1 e2 e2'.
  assert (HabQ : (float a + 1 <= float b)%Q).
  { change 1%Q with (float 1). rewrite <- inject_Z_plus, <- Zle_Qle. lia. }
  assert (HbQ : (1 <= float b)%Q).
  { change 1%Q with (float 1). by rewrite <- Zle_Qle. }
  assert (HWQ : (1 <= float W)%Q).
  { change 1%Q with (float 1). by rewrite <- Zle_Qle. }
  assert (H1 : (0 <= e1)%Q) by apply Q.le_max_l.
  assert (H1W : (e1 <= float W - 1)%Q).
  { unfold e1. apply Q.max_lub; [lra | apply Q.le_min_r]. }
  assert (H12 : (e1 + 1 <= e2)%Q /\ (e2 <= float W)%Q).
  { unfold e1, e2.
    destruct (Q.max_spec 0 (Qmin (float a - m) (float W - 1))) as [[? ->]|[? ->]];
    destruct (Q.max_spec 0 (Qmin (float b + m) (float W - 0))) as [[? ->]|[? ->]];
    destruct (Q.min_spec (float a - m) (float W - 1)) as [[? Ha]|[? Ha]];
    destruct (Q.min_spec (float b + m) (float W - 0)) as [[? Hb']|[? Hb']];
    rewrite ?Ha, ?Hb' in *; split; lra. }
  destruct H12 as [H12 H2W].
  assert (He2 : e2' = e2).
  { unfold e2'. destruct (Qle_bool e2 e1) eqn:Hle; [|done].
    apply Qle_bool_iff in Hle. lra. }
  rewrite He2, (py_int_nonneg e1 H1), (py_int_nonneg e2) by lra.
  split; [split; [by apply Qfloor_nonneg | by apply Qfloor_step]|].
  by apply Qfloor_le_Z.
Qed.

(** The ordering the docstring of [_expand_and_clip_bbox] promises holds for
    a box with [x1 < x2], [y1 < y2] whose far corner is at least [(1, 1)]. *)
Lemma expand_and_clip_bbox_ordered (bx1 by1 bx2 by2 W H : Z) (margin_ratio : Q) :
  bx1 < bx2 -> by1 < by2 -> 1 <= bx2 -> 1 <= by2 -> 1 <= W -> 1 <= H ->
  (0 <= margin_ratio)%Q ->
  let '(nx1, ny1, nx2, ny2) :=
    _expand_and_clip_bbox bx1 by1 bx2 by2 W H margin_ratio in
  (0 <= nx1 < nx2 /\ nx2 <= W) /\ (0 <= ny1 < ny2 /\ ny2 <= H).
Proof.
  intros Hx Hy Hx2 Hy2 HW HH Hm. unfold _expand_and_clip_bbox.
  assert (Hbw : (Qmax 0 (float bx2 - float bx1) == float bx2 - float bx1)%Q
                /\ (0 < float bx2 - float bx1)%Q).
  { assert (float bx1 < float bx2)%Q by by rewrite <- Zlt_Qlt.
    split; [apply Q.max_r|]; lra. }
  assert (Hbh : (Qmax 0 (float by2 - float by1) == float by2 - float by1)%Q
                /\ (0 < float by2 - float by1)%Q).
  { assert (float by1 < float by2)%Q by by rewrite <- Zlt_Qlt.
    split; [apply Q.max_r|]; lra. }
  destruct Hbw as [Hbw Hbw0], Hbh as [Hbh Hbh0].
  destruct (Qle_bool (Qmax 0 (float bx2 - float bx1)) 0) eqn:Hdx.
  { apply Qle_bool_iff in Hdx. lra. }
  destruct (Qle_bool (Qmax 0 (float by2 - float by1)) 0) eqn:Hdy.
  { apply Qle_bool_iff in Hdy. lra. }
  simpl orb. cbv iota.
  split.
  - apply (clip_axis_ordered bx1 bx2 W
             (Qmax 0 (float bx2 - float bx1) * margin_ratio)); try done.
    apply Qmult_le_0_compat; [apply Q.le_max_l | done].
  - apply (clip_axis_ordered by1 by2 H
             (Qmax 0 (float by2 - float by1) * margin_ratio)); try done.
    apply Qmult_le_0_compat; [apply Q.le_max_l | done].
Qed.




(** C1, where the code breaks the promised ordering: a box of zero area
    (inside the frame) is returned as it is, with [x1 = x2] and [y1 = y2];
    and a box with its far edge on the frame's near border is clipped to
    [0 < ex2 < 1], which the final [int] truncates to 0. *)
Theorem expand_and_clip_bbox_collapsed_outputs :
  _expand_and_clip_bbox 5 5 5 5 100 100 (1 # 4) = (5, 5, 5, 5)
  /\ _expand_and_clip_bbox (-2) 0 0 10 100 100 (1 # 4) = (0, 0, 0, 12).
Proof. split; reflexivity. Qed.

(** ** C10: seeding *)




(** ** C5: the tracking loop *)

Lemma map_landmarks_in_frame (f : Frame) (r : roi) (lms : list landmark) :
  0 < image_width f -> 0 < image_height f ->
  map_landmarks (x1 r) (y1 r) (x2 r) (y2 r) (image_width f) (image_height f)
    lms = Some (map (to_full_frame f r) lms).
Proof.
  intros HW HH. unfold map_landmarks. destruct lms as [|lmk lms]; [done|].
  destruct (Z.eqb_spec (image_width f) 0); [lia|].
  destruct (Z.eqb_spec (image_height f) 0); [lia|]. done.
Qed.

(** The indices the loop emits and marks are those it enumerates. *)
Lemma track_rois_indices (frame_threshold : Z) (f : Frame)
    (locked_rois : list roi) :
  forall (k : nat) (w : world) rois outputs need w',
  track_rois frame_threshold f k locked_rois w = Tracked rois outputs need w' ->
  (forall p lms, In (p, lms) outputs -> (k <= p)%nat)
  /\ (forall p, In p need -> (k <= p < k + length locked_rois)%nat).
Proof.
  induction locked_rois as [|r0 rest IH]; intros k w rois outs need w' Hrun.
  - simpl in Hrun. injection Hrun as <- <- <- <-. by split.
  - cbn [track_rois] in Hrun. unfold roi_box in Hrun.
    destruct (pose_process f (pose r0) (x1 r0, y1 r0, x2 r0, y2 r0))
      as [[lms0|]|]; [| |done];
      destruct (track_rois frame_threshold f (S k) rest _)
        as [rois1 outs1 need1 w1|] eqn:Hrest; try done;
      injection Hrun as <- <- <- <-;
      destruct (IH _ _ _ _ _ _ Hrest) as [IHo IHn]; split.
    + intros p lms [Hin|Hin]%in_app_or.
      * destruct (map_landmarks _ _ _ _ _ _ _); [|done].
        destruct Hin as [[= <- <-]|[]]. lia.
      * apply IHo in Hin. lia.
    + intros p Hin%IHn. simpl. lia.
    + intros p lms Hin%IHo. lia.
    + intros p [Hin|Hin%IHn]%in_app_or; [|simpl; lia].
      destruct (_ <=? _); [|done]. destruct Hin as [<-|[]]. simpl. lia.
Qed.

(** What the loop does to the region at index [i], when no estimator call
    raises, counted from the start index [k] of the enumeration. *)
Lemma track_rois_tracked (frame_threshold : Z) (f : Frame)
    (locked_rois : list roi) :
  0 < image_width f -> 0 < image_height f ->
  forall (k : nat) (w : world),
  (forall r, In r locked_rois ->
             pose_process f (pose r) (roi_box r) <> Raises) ->
  exists rois outputs need w',
    track_rois frame_threshold f k locked_rois w
      = Tracked rois outputs need w'
    /\ length rois = length locked_rois
    /\ forall (i : nat) (r : roi), locked_rois !! i = Some r ->
       match pose_process f (pose r) (roi_box r) with
       | Returns (Some lms) =>
           rois !! i = Some (set_lost 0 r)
           /\ In ((k + i)%nat, map (to_full_frame f r) lms) outputs
           /\ ~ In (k + i)%nat need
       | Returns None =>
           rois !! i = Some (set_lost (lost r + 1) r)
           /\ (In (k + i)%nat need <-> frame_threshold <= lost r + 1)
           /\ (forall lms, ~ In ((k + i)%nat, lms) outputs)
       | Raises => False
       end.
Proof.
  intros HW HH. induction locked_rois as [|roi rest IH]; intros k w Hok.
  - exists [], [], [], w. by repeat split.
  - destruct (IH (S k) (log (EvProcess (pose roi) (roi_box roi)) w))
      as (rois & outs & need & w' & Hrun & Hlen & Hall).
    { intros r Hr. apply Hok. by right. }
    destruct (track_rois_indices _ _ _ _ _ _ _ _ _ Hrun) as [Hout_ge Hneed_ge'].
    assert (Hneed_ge : forall p, In p need -> (S k <= p)%nat).
    { intros p Hp. apply Hneed_ge' in Hp. lia. }
    pose proof (Hok roi (or_introl eq_refl)) as Hroi.
    cbn [track_rois]. unfold roi_box in *. rewrite Hrun.
    destruct (pose_process f (pose roi) (x1 roi, y1 roi, x2 roi, y2 roi))
      as [[lms|]|] eqn:Hp; [| |done].
    + rewrite (map_landmarks_in_frame f roi lms HW HH).
      eexists _, _, _, _. split; [reflexivity|].
      split; [simpl; lia|].
      intros [|i] r Hr.
      * injection Hr as <-. rewrite Hp, Nat.add_0_r.
        split; [done|]. split; [by left|].
        intros Hin%Hneed_ge. lia.
      * specialize (Hall i r Hr). simpl in Hr.
        replace (k + S i)%nat with (S k + i)%nat by lia.
        destruct (pose_process f (pose r) (x1 r, y1 r, x2 r, y2 r))
          as [[lms'|]|]; [| |done].
        -- destruct Hall as (? & ? & ?).
           split; [done|]. split; [by right | done].
        -- destruct Hall as (? & ? & Hno).
           split; [done|]. split; [done|].
           intros lms' Hin. cbn [app In] in Hin.
           destruct Hin as [[= Hk _]|Hin]; [lia|]. by apply (Hno lms').
    + eexists _, _, _, _. split; [reflexivity|].
      split; [simpl; lia|].
      intros [|i] r Hr.
      * injection Hr as <-. rewrite Hp, Nat.add_0_r.
        split; [done|]. cbn [lost set_lost]. split.
        -- split.
           ++ intros [Hin|Hin%Hneed_ge]%in_app_or; [|lia].
              destruct (Z.leb_spec frame_threshold (lost roi + 1)); [done|].
              destruct Hin.
           ++ intros Hthr. apply in_or_app. left.
              destruct (Z.leb_spec frame_threshold (lost roi + 1)); [|lia].
              by left.
        -- intros lms Hin%Hout_ge. lia.
      * specialize (Hall i r Hr). simpl in Hr.
        replace (k + S i)%nat with (S k + i)%nat by lia.
        destruct (pose_process f (pose r) (x1 r, y1 r, x2 r, y2 r))
          as [[lms'|]|]; [| |done].
        -- destruct Hall as (? & ? & Hno).
           split; [done|]. split; [done|].
           intros [Hin|Hin]%in_app_or; [|done].
           destruct (_ <=? _); [|done]. destruct Hin as [Hin|[]]. lia.
        -- destruct Hall as (? & [Hn1 Hn2] & ?).
           split; [done|]. split; [|done]. split.
           ++ intros [Hin|Hin]%in_app_or; [|by apply Hn1].
              destruct (_ <=? _); [|done]. destruct Hin as [Hin|[]]. lia.
           ++ intros Hthr. apply in_or_app. right. by apply Hn2.
Qed.

(** C5: in the tracking loop (on a frame with pixels, no estimator call
    raising), for every region, at its index [i]: on a hit [lost] is reset
    to 0, nothing else of the region changes, and [(i, landmarks)] is
    emitted with every landmark remapped by
    [(local * region_size + region_origin) / frame_size]; on a miss [lost]
    is incremented, nothing is emitted, and [i] is marked as needing reseed
    exactly when the new [lost] has reached [frame_threshold]. *)
Theorem tracking_step_hit_and_miss (frame_threshold : Z) (f : Frame)
    (locked_rois : list roi) (w : world) :
  0 < image_width f -> 0 < image_height f ->
  (forall r, In r locked_rois ->
             pose_process f (pose r) (roi_box r) <> Raises) ->
  exists rois outputs need w',
    track_rois frame_threshold f 0 locked_rois w
      = Tracked rois outputs need w'
    /\ length rois = length locked_rois
    /\ forall (i : nat) (r : roi), locked_rois !! i = Some r ->
       match pose_process f (pose r) (roi_box r) with
       | Returns (Some lms) =>
           rois !! i = Some (set_lost 0 r)
           /\ In (i, map (to_full_frame f r) lms) outputs
           /\ ~ In i need
       | Returns None =>
           rois !! i = Some (set_lost (lost r + 1) r)
           /\ (In i need <-> frame_threshold <= lost r + 1)
           /\ (forall lms, ~ In (i, lms) outputs)
       | Raises => False
       end.
Proof.
  intros HW HH Hok.
  exact (track_rois_tracked frame_threshold f locked_rois HW HH 0%nat w Hok).
Qed.

(** ** C2: errors of the collaborators *)

(** The tracking loop changes neither [self.yolo] nor the ROI count. *)
Lemma track_rois_tracked_inv (frame_threshold : Z) (f : Frame)
    (locked_rois : list roi) :
  forall k w rois outputs need w',
  track_rois frame_threshold f k locked_rois w = Tracked rois outputs need w' ->
  yolo w' = yolo w /\ next_pose w' = next_pose w
  /\ length rois = length locked_rois
  /\ map overlap_streak rois = map overlap_streak locked_rois
  /\ map roi_box rois = map roi_box locked_rois.
Proof.
  induction locked_rois as [|r0 rest IH]; intros k w rois outs need w' Hrun.
  - simpl in Hrun. by injection Hrun as <- <- <- <-.
  - cbn [track_rois] in Hrun. unfold roi_box in Hrun.
    destruct (pose_process f (pose r0) (x1 r0, y1 r0, x2 r0, y2 r0))
      as [[lms0|]|]; [| |done];
      destruct (track_rois frame_threshold f (S k) rest _)
        as [rois1 outs1 need1 w1|] eqn:Hrest; try done;
      injection Hrun as <- <- <- <-;
      destruct (IH _ _ _ _ _ _ Hrest) as (-> & -> & Hl & Hs & Hb);
      cbn [map length]; rewrite Hl, Hs, Hb; done.
Qed.

(** An estimator call that raises ends the loop there: the regions before
    it keep their updates, the region and those after it are untouched
    (no miss is recorded), and the estimators were called once each, up to
    and including the call that raised. *)
Lemma track_rois_raised (frame_threshold : Z) (f : Frame)
    (locked_rois : list roi) :
  forall (k : nat) (w : world) (i : nat) (r : roi),
  locked_rois !! i = Some r ->
  pose_process f (pose r) (roi_box r) = Raises ->
  (forall j r', (j < i)%nat -> locked_rois !! j = Some r' ->
                pose_process f (pose r') (roi_box r') <> Raises) ->
  exists rois w',
    track_rois frame_threshold f k locked_rois w = TrackRaised rois w'
    /\ length rois = length locked_rois
    /\ (forall j, (i <= j)%nat -> rois !! j = locked_rois !! j)
    /\ trace w' = rev (map process_call (take (S i) locked_rois)) ++ trace w.
Proof.
  induction locked_rois as [|r0 rest IH]; intros k w i r Hi Hraise Hbefore.
  - done.
  - destruct i as [|i].
    + injection Hi as ->. cbn [track_rois]. unfold roi_box in *.
      rewrite Hraise. eexists _, _. split; [reflexivity|].
      split; [done|]. split; [done|].
      cbn [take map rev app trace log]. done.
    + simpl in Hi.
      destruct (IH (S k) (log (process_call r0) w) i r Hi Hraise)
        as (rois & w' & Hrun & Hlen & Hsame & Htr).
      { intros j r' Hj Hr'. apply (Hbefore (S j) r'); [lia | done]. }
      pose proof (Hbefore 0%nat r0 ltac:(lia) eq_refl) as H0.
      cbn [track_rois]. unfold process_call, roi_box in *. rewrite Hrun.
      destruct (pose_process f (pose r0) (x1 r0, y1 r0, x2 r0, y2 r0))
        as [[lms0|]|]; [| |done].
      * eexists _, _. split; [reflexivity|]. split; [simpl; lia|].
        split.
        { intros [|j] Hj; [lia|]. simpl. apply Hsame. lia. }
        rewrite Htr. cbn [take map rev trace log].
        by rewrite <- app_assoc.
      * eexists _, _. split; [reflexivity|]. split; [simpl; lia|].
        split.
        { intros [|j] Hj; [lia|]. simpl. apply Hsame. lia. }
        rewrite Htr. cbn [take map rev trace log].
        by rewrite <- app_assoc.
Qed.

(** ** The reseed step *)

Lemma reserved_false (healthy_boxes : list bbox) (b : bbox) :
  reserved healthy_boxes b = false
  <-> forall hb, In hb healthy_boxes -> (_iou b hb < reserved_iou)%Q.
Proof.
  unfold reserved. induction healthy_boxes as [|hb0 rest IH]; simpl.
  - split; [intros _ hb [] | done].
  - rewrite orb_false_iff, IH. split.
    + intros [H0 Hrest] hb [<-|Hin]; [|by apply Hrest].
      apply Qnot_le_lt. intros Hle%Qle_bool_iff. congruence.
    + intros Hall. split; [|intros hb Hin; apply Hall; by right].
      destruct (Qle_bool reserved_iou (_iou b hb0)) eqn:Hle; [|done].
      apply Qle_bool_iff in Hle.
      pose proof (Hall hb0 (or_introl eq_refl)) as Hlt.
      by apply Qlt_not_le in Hlt.
Qed.

Lemma filtered_boxes_of_In (healthy_boxes person_boxes : list bbox) (b : bbox) :
  In b (filtered_boxes_of healthy_boxes person_boxes)
  <-> In b person_boxes /\ reserved healthy_boxes b = false.
Proof.
  unfold filtered_boxes_of. rewrite List.filter_In, negb_true_iff. done.
Qed.

Section TrackerProperties.

Variable np_sqrt : Q -> Q.
Variable linear_sum_assignment : list (list Q) -> list nat * list nat.

Lemma accepted_match_spec (f : Frame) (cost : list (list Q)) (max_dist : Q)
    (healthy_boxes : list bbox) (need : list nat) (person_boxes : list bbox)
    (r_i c_j roi_index : nat) (det nb : bbox) :
  accepted_match f cost max_dist healthy_boxes need person_boxes (r_i, c_j)
    = Some (roi_index, det, nb) ->
  need !! r_i = Some roi_index
  /\ person_boxes !! c_j = Some det
  /\ nb = expand_box f det
  /\ reserved healthy_boxes nb = false
  /\ exists c, cost !! r_i ≫= (.!! c_j) = Some c /\ (c <= max_dist)%Q.
Proof.
  unfold accepted_match.
  destruct ((r_i <? length need)%nat && (c_j <? length person_boxes)%nat);
    [|done].
  destruct (cost !! r_i ≫= (.!! c_j)) as [c|]; [|done].
  destruct (need !! r_i) as [idx|]; [|done].
  destruct (person_boxes !! c_j) as [[[[rx1 ry1] rx2] ry2]|]; [|done].
  destruct (Qle_bool c max_dist) eqn:Hgate; [|done].
  destruct (reserved healthy_boxes _) eqn:Hres; [done|].
  intros [= <- <- <-]. repeat split; try done.
  exists c. split; [done|]. by apply Qle_bool_iff.
Qed.

Lemma apply_reseed_inv (roi_index : nat) (nb : bbox) (rois : list roi)
    (w : world) (rois' : list roi) (w' : world) :
  apply_reseed roi_index nb (rois, w) = (rois', w') ->
  length rois' = length rois
  /\ map overlap_streak rois' = map overlap_streak rois
  /\ yolo w' = yolo w
  /\ (forall i, i <> roi_index -> rois' !! i = rois !! i)
  /\ (rois' !! roi_index = rois !! roi_index
      \/ exists old r', rois !! roi_index = Some old
           /\ rois' !! roi_index = Some r'
           /\ roi_box r' = _smooth_box (roi_box old) nb smooth_alpha
           /\ lost r' = 0).
Proof.
  unfold apply_reseed.
  destruct (rois !! roi_index) as [old|] eqn:Hold.
  - destruct (_smooth_box (roi_box old) nb smooth_alpha)
      as [[[sx1 sy1] sx2] sy2] eqn:Hs.
    cbn [new_pose]. intros [= <- <-].
    split; [by rewrite length_insert|].
    split.
    { apply list_eq. intros i. rewrite !list_lookup_fmap.
      destruct (decide (i = roi_index)) as [->|Hne].
      - rewrite list_lookup_insert_eq by by eapply lookup_lt_Some.
        by rewrite Hold.
      - by rewrite list_lookup_insert_ne. }
    split; [done|].
    split; [intros i Hne; by rewrite list_lookup_insert_ne|].
    right. eexists old, _. split; [done|].
    split; [by rewrite list_lookup_insert_eq by by eapply lookup_lt_Some|].
    done.
  - intros [= <- <-]. repeat split; try done. by left.
Qed.

Lemma reseed_fold_inv (f : Frame) (cost : list (list Q)) (max_dist : Q)
    (healthy_boxes : list bbox) (need : list nat) (person_boxes : list bbox)
    (pairs : list (nat * nat)) :
  forall (rois : list roi) (w : world) (rois' : list roi) (w' : world),
  fold_left (reseed_pair f cost max_dist healthy_boxes need person_boxes)
    pairs (rois, w) = (rois', w') ->
  length rois' = length rois
  /\ map overlap_streak rois' = map overlap_streak rois
  /\ yolo w' = yolo w.
Proof.
  induction pairs as [|rc pairs IH]; intros rois w rois' w' Hfold.
  - simpl in Hfold. by injection Hfold as <- <-.
  - cbn [fold_left] in Hfold.
    destruct (reseed_pair f cost max_dist healthy_boxes need person_boxes
                (rois, w) rc) as [rois1 w1] eqn:Hpair.
    destruct (IH _ _ _ _ Hfold) as (Hlen & Hstreak & Hyolo).
    unfold reseed_pair in Hpair.
    destruct (accepted_match f cost max_dist healthy_boxes need
                person_boxes rc) as [[[idx det] nb]|].
    + destruct (apply_reseed_inv _ _ _ _ _ _ Hpair)
        as (Hlen1 & Hstreak1 & Hyolo1 & _).
      split; [congruence|]. split; congruence.
    + by injection Hpair as <- <-.
Qed.







Lemma apply_reseed_fresh (roi_index : nat) (nb : bbox) (rois : list roi)
    (w : world) (rois' : list roi) (w' : world) :
  apply_reseed roi_index nb (rois, w) = (rois', w') ->
  (next_pose w <= next_pose w')%nat
  /\ length rois' = length rois
  /\ (forall i, i <> roi_index -> rois' !! i = rois !! i)
  /\ ((roi_index < length rois)%nat ->
      exists r', rois' !! roi_index = Some r' /\ lost r' = 0
                 /\ pose r' = next_pose w).
Proof.
  unfold apply_reseed.
  destruct (rois !! roi_index) as [old|] eqn:Hold.
  - destruct (_smooth_box (roi_box old) nb smooth_alpha)
      as [[[sx1 sy1] sx2] sy2].
    cbn [new_pose log next_pose]. intros [= <- <-]. cbn [next_pose].
    split; [lia|]. split; [by rewrite length_insert|].
    split; [intros i Hne; by rewrite list_lookup_insert_ne|].
    intros Hlt. eexists. split; [by rewrite list_lookup_insert_eq|]. done.
  - intros [= <- <-]. split; [lia|]. split; [done|]. split; [done|].
    intros Hlt. apply lookup_ge_None in Hold. lia.
Qed.

(** An accepted pair is applied: its slot holds, when the loop ends, a
    region with [lost = 0] and an estimator made during the loop. *)
Lemma reseed_fold_applied (f : Frame) (cost : list (list Q)) (max_dist : Q)
    (healthy_boxes : list bbox) (need : list nat) (person_boxes : list bbox)
    (n0 : nat) (pairs : list (nat * nat)) :
  forall (rois : list roi) (w : world) (rois' : list roi) (w' : world),
  fold_left (reseed_pair f cost max_dist healthy_boxes need person_boxes)
    pairs (rois, w) = (rois', w') ->
  (n0 <= next_pose w)%nat ->
  (forall i r, rois !! i = Some r -> lost r = 0 -> (n0 <= pose r)%nat ->
     exists r', rois' !! i = Some r' /\ lost r' = 0 /\ (n0 <= pose r')%nat)
  /\ (forall rc i det nb, In rc pairs ->
        accepted_match f cost max_dist healthy_boxes need person_boxes rc
          = Some (i, det, nb) ->
        (i < length rois)%nat ->
        exists r', rois' !! i = Some r' /\ lost r' = 0
                   /\ (n0 <= pose r')%nat).
Proof.
  induction pairs as [|rc pairs IH]; intros rois w rois' w' Hfold Hn0.
  { simpl in Hfold. injection Hfold as <- <-. split; [|done].
    intros i r Hr Hl Hp. by exists r. }
  cbn [fold_left] in Hfold.
  destruct (reseed_pair f cost max_dist healthy_boxes need person_boxes
              (rois, w) rc) as [rois1 w1] eqn:Hpair.
  unfold reseed_pair in Hpair.
  destruct (accepted_match f cost max_dist healthy_boxes need person_boxes rc)
    as [[[idx det] nb]|] eqn:Hacc.
  - destruct (apply_reseed_fresh _ _ _ _ _ _ Hpair)
      as (Hn1 & Hlen1 & Hother & Hidx).
    destruct (IH rois1 w1 rois' w' Hfold ltac:(lia)) as [Hkeep Happ].
    assert (Hslot : (idx < length rois)%nat ->
              exists r', rois' !! idx = Some r' /\ lost r' = 0
                         /\ (n0 <= pose r')%nat).
    { intros Hlt. destruct (Hidx Hlt) as (r1 & Hr1 & Hl1 & Hp1).
      apply (Hkeep idx r1); [done | done | lia]. }
    split.
    + intros i r Hr Hl Hp. destruct (decide (i = idx)) as [->|Hne].
      * apply Hslot. by eapply lookup_lt_Some.
      * apply (Hkeep i r); [by rewrite Hother | done | done].
    + intros rc' i det' nb' [<-|Hin] Hacc' Hlt.
      * assert (i = idx) as -> by congruence. by apply Hslot.
      * apply (Happ rc' i det' nb' Hin Hacc'). by rewrite Hlen1.
  - injection Hpair as <- <-.
    destruct (IH rois w rois' w' Hfold Hn0) as [Hkeep Happ].
    split; [done|].
    intros rc' i det' nb' [<-|Hin] Hacc' Hlt; [congruence|].
    by apply (Happ rc' i det' nb' Hin Hacc').
Qed.

(** The reseed step keeps the ROI count, the streaks and [self.yolo],
    whether it returns or raises. *)
Lemma reseed_step_inv (f : Frame) (rois : list roi) (need : list nat)
    (w : world) :
  match reseed_step np_sqrt linear_sum_assignment f rois need w with
  | Reseeded rois' w' | ReseedRaised rois' w' =>
    length rois' = length rois
    /\ map overlap_streak rois' = map overlap_streak rois
    /\ yolo w' = yolo w
  end.
Proof.
  unfold reseed_step. destruct need as [|n0 need]; [done|].
  destruct (yolo w) eqn:Hyolo; [|by rewrite Hyolo].
  destruct (yolo_predict f) as [boxes|]; [|done].
  destruct (filtered_boxes_of _ _) as [|b0 pbs]; [done|].
  destruct (linear_sum_assignment _) as [row_ind col_ind].
  destruct (fold_left _ _ _) as [rois' w'] eqn:Hfold.
  destruct (reseed_fold_inv _ _ _ _ _ _ _ _ _ _ _ Hfold)
    as (Hl & Hs & Hy).
  cbn [yolo log] in Hy. by rewrite Hl, Hs, Hy.
Qed.

(** *** The cost matrix *)

Lemma cost_matrix_lookup (diag : Q) (rois : list roi) (need : list nat)
    (person_boxes : list bbox) (i j idx : nat) (rr : roi) (det : bbox) :
  need !! i = Some idx -> rois !! idx = Some rr ->
  person_boxes !! j = Some det ->
  cost_matrix np_sqrt diag rois need person_boxes !! i ≫= (.!! j)
  = Some (cost_entry np_sqrt diag rr det).
Proof.
  intros Hi Hidx Hj. unfold cost_matrix.
  rewrite list_lookup_fmap, Hi. cbn [fmap option_fmap option_map mbind option_bind].
  rewrite Hidx, list_lookup_fmap, Hj. done.
Qed.


Lemma cost_entry_formula (diag : Q) (rr : roi) (det : bbox) :
  (1 # 1000000 <= diag)%Q ->
  (cost_entry np_sqrt diag rr det
   == center_distance np_sqrt (roi_box rr) det / diag
      + (1 # 2) * (1 - _iou (roi_box rr) det))%Q.
Proof.
  intros Hdiag. unfold cost_entry, center_distance, box_center, roi_box.
  destruct det as [[[bx1 by1] bx2] by2].
  destruct (_roi_center (x1 rr) (y1 rr) (x2 rr) (y2 rr)) as [cx cy].
  destruct (_roi_center bx1 by1 bx2 by2) as [dcx dcy].
  unfold lambda_iou. by rewrite (Q.max_r _ _ Hdiag).
Qed.

Lemma cost_entry_pairing_cost (f : Frame) (rr : roi) (det : bbox) :
  (1 # 1000000 <= diag_of np_sqrt f)%Q ->
  (cost_entry np_sqrt (diag_of np_sqrt f) rr det
   == pairing_cost np_sqrt f rr det)%Q.
Proof. intros Hdiag. unfold pairing_cost. by apply cost_entry_formula. Qed.

(** *** What the reseed step writes *)


(** A pair of a slot and a kept detection that is within the gate and
    whose expanded box is free passes the guards. *)
Lemma accepted_match_complete (f : Frame) (rois : list roi)
    (need : list nat) (person_boxes : list bbox) (r_i c_j i : nat)
    (old : roi) (det : bbox) :
  need !! r_i = Some i -> person_boxes !! c_j = Some det ->
  rois !! i = Some old ->
  (cost_entry np_sqrt (diag_of np_sqrt f) old det
   <= (8 # 100) * diag_of np_sqrt f)%Q ->
  unreserved rois (expand_box f det) ->
  accepted_match f
    (cost_matrix np_sqrt (diag_of np_sqrt f) rois need person_boxes)
    ((8 # 100) * diag_of np_sqrt f) (healthy_boxes_of rois) need
    person_boxes (r_i, c_j)
  = Some (i, det, expand_box f det).
Proof.
  intros Hneed Hdet Hold Hle Hfree. unfold accepted_match.
  pose proof (lookup_lt_Some _ _ _ Hneed) as Hr.
  pose proof (lookup_lt_Some _ _ _ Hdet) as Hc.
  apply Nat.ltb_lt in Hr, Hc. rewrite Hr, Hc. cbn [andb].
  rewrite (cost_matrix_lookup _ _ _ _ _ _ _ _ _ Hneed Hold Hdet).
  rewrite Hneed. unfold bbox in *. rewrite Hdet.
  destruct det as [[[rx1 ry1] rx2] ry2].
  apply Qle_bool_iff in Hle. rewrite Hle.
  change (_expand_and_clip_bbox rx1 ry1 rx2 ry2 (image_width f)
            (image_height f) (1 # 4))
    with (expand_box f (rx1, ry1, rx2, ry2)).
  by rewrite (proj2 (reserved_false _ _) Hfree).
Qed.



(** Every pair of the assignment that is in range, within the gate and
    whose expanded box is free is applied. *)
Lemma reseed_step_applies (f : Frame) (rois : list roi) (need : list nat)
    (w : world) (rois' : list roi) (w' : world) (boxes : list detection)
    (r_i c_j i : nat) (old : roi) (det : bbox) :
  reseed_step np_sqrt linear_sum_assignment f rois need w
    = Reseeded rois' w' ->
  yolo_predict f = Returns boxes ->
  let kept :=
    filtered_boxes_of (healthy_boxes_of rois) (person_boxes_of boxes) in
  let pairing :=
    linear_sum_assignment
      (cost_matrix np_sqrt (diag_of np_sqrt f) rois need kept) in
  In (r_i, c_j) (zip pairing.1 pairing.2) ->
  need !! r_i = Some i -> kept !! c_j = Some det -> rois !! i = Some old ->
  (cost_entry np_sqrt (diag_of np_sqrt f) old det
   <= (8 # 100) * diag_of np_sqrt f)%Q ->
  unreserved rois (expand_box f det) ->
  exists r', rois' !! i = Some r' /\ lost r' = 0
             /\ (next_pose w <= pose r')%nat.
Proof.
  intros Hstep Hpred kept pairing Hin Hneed Hdet Hold Hle Hfree.
  pose proof (accepted_match_complete f rois need kept r_i c_j i old det
                Hneed Hdet Hold Hle Hfree) as Hacc.
  revert Hstep. unfold reseed_step. rewrite Hpred.
  destruct need as [|n0 need]; [done|].
  destruct (yolo w); [|done].
  fold kept. destruct kept as [|b0 pbs'] eqn:Hkept; [done|].
  fold pairing. destruct pairing as [row_ind col_ind].
  destruct (fold_left _ _ _) as [rois1 w1] eqn:Hfold.
  intros [= <- <-].
  destruct (reseed_fold_applied _ _ _ _ _ _ (next_pose w) _ _ _ _ _ Hfold
              (Nat.le_refl _)) as [_ Happ].
  apply (Happ (r_i, c_j) i det (expand_box f det)); [done | done|].
  by eapply lookup_lt_Some.
Qed.

(** ** C3: reservation of the detections of healthy regions *)


(** ** C6: the cost matrix and the gate *)


(** ** C7: the gate at realistic frame sizes *)

Lemma center_in_frame (f : Frame) (b : bbox) :
  in_frame f b ->
  let '(cx, cy) := box_center b in
  (0 <= cx <= float (image_width f))%Q
  /\ (0 <= cy <= float (image_height f))%Q.
Proof.
  destruct b as [[[bx1 by1] bx2] by2]. intros [[Hx1 Hx2] [Hy1 Hy2]].
  cbn [box_center]. unfold _roi_center. rewrite !inject_Z_plus.
  assert (Hq : forall a b : Z, a <= b -> (float a <= float b)%Q).
  { intros a b Hab. by rewrite <- Zle_Qle. }
  pose proof (Hq 0 bx1 (proj1 Hx1)). pose proof (Hq _ _ (proj2 Hx1)).
  pose proof (Hq 0 bx2 (proj1 Hx2)). pose proof (Hq _ _ (proj2 Hx2)).
  pose proof (Hq 0 by1 (proj1 Hy1)). pose proof (Hq _ _ (proj2 Hy1)).
  pose proof (Hq 0 by2 (proj1 Hy2)). pose proof (Hq _ _ (proj2 Hy2)).
  change (float 0) with 0%Q in *. split; split; lra.
Qed.

Section MonotoneSqrt.

Hypothesis np_sqrt_monotone :
  forall p q : Q, (p <= q)%Q -> (np_sqrt p <= np_sqrt q)%Q.

Lemma center_distance_le_diag (f : Frame) (a b : bbox) :
  in_frame f a -> in_frame f b ->
  (center_distance np_sqrt a b <= diag_of np_sqrt f)%Q.
Proof using np_sqrt_monotone.
  intros Ha%center_in_frame Hb%center_in_frame.
  unfold center_distance, diag_of.
  destruct (box_center a) as [cx cy], (box_center b) as [dcx dcy].
  apply np_sqrt_monotone.
  rewrite inject_Z_plus, !inject_Z_mult.
  destruct Ha as [[? ?] [? ?]], Hb as [[? ?] [? ?]].
  assert ((dcx - cx) * (dcx - cx)
          <= float (image_width f) * float (image_width f))%Q by nra.
  assert ((dcy - cy) * (dcy - cy)
          <= float (image_height f) * float (image_height f))%Q by nra.
  lra.
Qed.

Lemma cost_entry_bound (f : Frame) (rr : roi) (det : bbox) :
  (19 <= diag_of np_sqrt f)%Q ->
  in_frame f (roi_box rr) -> in_frame f det ->
  (cost_entry np_sqrt (diag_of np_sqrt f) rr det <= 3 # 2)%Q.
Proof using np_sqrt_monotone.
  intros Hdiag Hrr Hdet.
  assert (Hguard : (1 # 1000000 <= diag_of np_sqrt f)%Q) by lra.
  rewrite (cost_entry_formula (diag_of np_sqrt f) rr det Hguard).
  pose proof (center_distance_le_diag f (roi_box rr) det Hrr Hdet) as Hdist.
  pose proof (_iou_nonneg (roi_box rr) det) as Hiou.
  assert (Hnorm : (center_distance np_sqrt (roi_box rr) det
                   / diag_of np_sqrt f <= 1)%Q).
  { apply Qle_shift_div_r; lra. }
  lra.
Qed.

(** C7: for a monotone [np.sqrt], on a frame whose diagonal is at
    least 19, with the regions and the person detections of the frame
    within the frame.  The cost of a region and a detection is at most
    1.5, and 1.5 is at most the gate bound [0.08 * diag]; so in a reseed
    step that returns the gate rejects no pair: every pair of the
    assignment that is in range is applied (the slot has [lost = 0] and
    an estimator made by this step) unless the expanded box of its
    detection conflicts with a healthy region. *)
Theorem cost_gate_never_rejects (f : Frame) (rois : list roi)
    (need : list nat) (w : world) (rois' : list roi) (w' : world)
    (boxes : list detection) :
  (19 <= diag_of np_sqrt f)%Q ->
  (forall r, In r rois -> in_frame f (roi_box r)) ->
  yolo_predict f = Returns boxes ->
  (forall det, In det (person_boxes_of boxes) -> in_frame f det) ->
  reseed_step np_sqrt linear_sum_assignment f rois need w
    = Reseeded rois' w' ->
  let diag := diag_of np_sqrt f in
  let kept :=
    filtered_boxes_of (healthy_boxes_of rois) (person_boxes_of boxes) in
  let cost := cost_matrix np_sqrt diag rois need kept in
  (forall rr det, In rr rois -> In det (person_boxes_of boxes) ->
     (pairing_cost np_sqrt f rr det <= 3 # 2)%Q)
  /\ (3 # 2 <= (8 # 100) * diag)%Q
  /\ (forall r_i c_j i old det,
        In (r_i, c_j)
           (zip (linear_sum_assignment cost).1
              (linear_sum_assignment cost).2) ->
        need !! r_i = Some i -> rois !! i = Some old ->
        kept !! c_j = Some det ->
        unreserved rois (expand_box f det) ->
        exists r', rois' !! i = Some r' /\ lost r' = 0
                   /\ (next_pose w <= pose r')%nat).
Proof using np_sqrt_monotone.
  intros Hdiag Hrois Hpred Hdets Hstep diag kept cost.
  assert (Hguard : (1 # 1000000 <= diag_of np_sqrt f)%Q) by lra.
  split.
  { intros rr det Hrr Hdet.
    rewrite <- (cost_entry_pairing_cost f rr det Hguard).
    apply cost_entry_bound; [done | by apply Hrois | by apply Hdets]. }
  split; [unfold diag; lra|].
  intros r_i c_j i old det Hin Hneed Hold Hdet Hfree.
  apply (reseed_step_applies f rois need w rois' w' boxes r_i c_j i old det
           Hstep Hpred Hin Hneed Hdet Hold); [|done].
  assert (Hbound : (cost_entry np_sqrt (diag_of np_sqrt f) old det
                    <= 3 # 2)%Q).
  { apply cost_entry_bound; [done| |].
    - apply Hrois, list_elem_of_In. by eapply list_elem_of_lookup_2.
    - apply Hdets.
      apply list_elem_of_lookup_2, list_elem_of_In in Hdet.
      by apply filtered_boxes_of_In in Hdet as [Hdet _]. }
  lra.
Qed.

End MonotoneSqrt.

(** ** Deduplication *)

Lemma dedup_pair_length (i j : nat) (rois : list roi) (rm : gset nat)
    (w : world) :
  length (dedup_pair i j (rois, rm, w)).1.1 = length rois.
Proof.
  unfold dedup_pair.
  destruct (rois !! i) as [ri|]; [|done].
  destruct (rois !! j) as [rj|]; [|done].
  destruct (negb _).
  - destruct (alter bump_streak j (alter bump_streak i rois) !! i);
      [|by (simpl; rewrite !length_alter)].
    destruct (alter bump_streak j (alter bump_streak i rois) !! j);
      [|by (simpl; rewrite !length_alter)].
    destruct (_ && _); by (simpl; rewrite !length_alter).
  - by (simpl; rewrite !length_alter).
Qed.

Lemma dedup_inner_length (n i : nat) (st : list roi * gset nat * world) :
  length (dedup_inner n i st).1.1 = length st.1.1.
Proof.
  unfold dedup_inner. generalize (seq (S i) (n - S i)). intros js.
  revert st. induction js as [|j js IH]; intros st; [done|].
  cbn [fold_left]. rewrite IH.
  destruct (decide (j ∈ st.1.2)); [done|].
  destruct st as [[rois rm] w]. apply dedup_pair_length.
Qed.

Lemma dedup_outer_length (n : nat) (st : list roi * gset nat * world) :
  length (dedup_outer n st).1.1 = length st.1.1.
Proof.
  unfold dedup_outer. generalize (seq 0 n). intros idxs.
  revert st. induction idxs as [|i idxs IH]; intros st; [done|].
  cbn [fold_left]. rewrite IH.
  destruct (decide (i ∈ st.1.2)); [done|]. apply dedup_inner_length.
Qed.

Lemma keep_rois_length (rm : gset nat) (idx : nat) (rois : list roi) :
  (length (keep_rois rm idx rois) <= length rois)%nat.
Proof.
  revert idx. induction rois as [|r rest IH]; intros idx; [done|].
  cbn [keep_rois]. specialize (IH (S idx)).
  destruct (decide (idx ∈ rm)); simpl; lia.
Qed.

(** Deduplication only removes regions. *)
Lemma dedup_length (rois : list roi) (w : world) :
  (length (dedup rois w).1 <= length rois)%nat.
Proof.
  unfold dedup.
  pose proof (dedup_outer_length (length rois) (rois, ∅, w)) as Hlen.
  destruct (dedup_outer (length rois) (rois, ∅, w)) as [[rois' rm] w'].
  simpl in Hlen. destruct (decide (rm = ∅)); simpl; [lia|].
  pose proof (keep_rois_length rm 0 rois'). lia.
Qed.

(** ** C8: the ROI count *)

Lemma track_rois_raised_length (frame_threshold : Z) (f : Frame)
    (locked_rois : list roi) :
  forall k w rois w',
  track_rois frame_threshold f k locked_rois w = TrackRaised rois w' ->
  length rois = length locked_rois.
Proof.
  induction locked_rois as [|r0 rest IH]; intros k w rois w' Hrun; [done|].
  cbn [track_rois] in Hrun. unfold roi_box in Hrun.
  destruct (pose_process f (pose r0) (x1 r0, y1 r0, x2 r0, y2 r0))
    as [[lms0|]|];
    [ | | by injection Hrun as <- <-];
    destruct (track_rois frame_threshold f (S k) rest _)
      as [rois1 outs1 need1 w1|rois1 w1] eqn:Hrest; try done;
    injection Hrun as <- <-; simpl; f_equal; by eapply IH.
Qed.

(** The first half of the step keeps the ROI count and the streaks. *)
Lemma track_and_reseed_inv (frame_threshold : Z) (f : Frame)
    (locked_rois : list roi) (w : world) :
  match track_and_reseed np_sqrt linear_sum_assignment frame_threshold f
          locked_rois w with
  | Returned _ rois _ =>
      length rois = length locked_rois
      /\ map overlap_streak rois = map overlap_streak locked_rois
  | Raised rois _ => length rois = length locked_rois
  end.
Proof.
  unfold track_and_reseed.
  destruct (track_rois frame_threshold f 0 locked_rois w)
    as [rois outs need w1|rois w1] eqn:Htrack.
  - destruct (track_rois_tracked_inv _ _ _ _ _ _ _ _ _ Htrack)
      as (_ & _ & Hl & Hs & _).
    pose proof (reseed_step_inv f rois need w1) as Hre.
    destruct (reseed_step _ _ _ _ _ _) as [rois2 w2|rois2 w2];
      destruct Hre as (Hl2 & Hs2 & _); [split|]; congruence.
  - by eapply track_rois_raised_length.
Qed.

Lemma process_multiperson_frame_length (frame_threshold : Z) (f : Frame)
    (locked_rois : list roi) (w : world) :
  (length (result_rois
             (_process_multiperson_frame np_sqrt linear_sum_assignment
                frame_threshold f locked_rois w))
   <= length locked_rois)%nat.
Proof.
  unfold _process_multiperson_frame.
  destruct locked_rois as [|r0 rest]; [done|].
  pose proof (track_and_reseed_inv frame_threshold f (r0 :: rest) w) as Hinv.
  destruct (track_and_reseed _ _ _ _ _ _) as [outs rois w2|rois w2].
  - destruct Hinv as [Hl _].
    pose proof (dedup_length rois (tick w2)) as Hd.
    destruct (dedup rois (tick w2)) as [rois3 w4]. simpl in *. lia.
  - simpl in *. lia.
Qed.

Lemma seed_rois_nonempty (yolo_init_ok : bool) (f : Frame)
    (locked_rois : list roi) (margin_ratio : Q) (w : world) :
  locked_rois <> [] ->
  match _seed_rois_if_needed yolo_init_ok f locked_rois margin_ratio w with
  | Seeded rois w' =>
      rois = locked_rois /\ next_pose w' = next_pose w
      /\ detector_runs (trace w') = detector_runs (trace w)
  | SeedRaised rois _ => rois = locked_rois
  end.
Proof.
  intros Hne. unfold _seed_rois_if_needed, _ensure_yolo.
  destruct locked_rois as [|r0 rest]; [done|].
  destruct (yolo w); [done|]. by destruct yolo_init_ok.
Qed.

(** C8: once the ROI list is non-empty the ROI count never grows.
    Seeding on a non-empty list returns the list as it is (no detector
    run, no estimator made); the reseed keeps the count (it only writes
    existing slots); and the list [_process_multiperson_frame] leaves
    behind, returned or not, is no longer than its input, as is the list
    after a whole frame of the frame loop, whatever the detector sees
    on the frame. *)
Theorem roi_count_never_grows (frame_threshold : Z) (f : Frame)
    (locked_rois : list roi) (w : world) :
  (locked_rois <> [] ->
     forall yolo_init_ok margin_ratio,
     match _seed_rois_if_needed yolo_init_ok f locked_rois margin_ratio w
     with
     | Seeded rois w' =>
         rois = locked_rois /\ next_pose w' = next_pose w
         /\ detector_runs (trace w') = detector_runs (trace w)
     | SeedRaised rois _ => rois = locked_rois
     end)
  /\ (forall need,
        match reseed_step np_sqrt linear_sum_assignment f locked_rois
                need w with
        | Reseeded rois _ | ReseedRaised rois _ =>
            length rois = length locked_rois
        end)
  /\ (length (dedup locked_rois w).1 <= length locked_rois)%nat
  /\ (length (result_rois
                (_process_multiperson_frame np_sqrt linear_sum_assignment
                   frame_threshold f locked_rois w))
      <= length locked_rois)%nat
  /\ (locked_rois <> [] ->
      forall yolo_init_ok,
      (length (result_rois
                 (frame_step np_sqrt linear_sum_assignment yolo_init_ok
                    frame_threshold f locked_rois w))
       <= length locked_rois)%nat).
Proof.
  split; [intros Hne ok mr; by apply seed_rois_nonempty|].
  split.
  { intros need. pose proof (reseed_step_inv f locked_rois need w) as H.
    destruct (reseed_step _ _ _ _ _ _); by destruct H. }
  split; [apply dedup_length|].
  split; [apply process_multiperson_frame_length|].
  intros Hne ok. unfold frame_step.
  pose proof (seed_rois_nonempty ok f locked_rois (1 # 4) w Hne) as Hseed.
  destruct (_seed_rois_if_needed ok f locked_rois (1 # 4) w)
    as [rois w1|rois w1].
  - destruct Hseed as (-> & _). destruct locked_rois as [|r0 rest]; [done|].
    apply process_multiperson_frame_length.
  - subst rois. simpl. lia.
Qed.

(** ** C2: errors of the collaborators leave the step *)

(** C2, as amended: an error raised by a region's estimator call, or by
    the detector call of the reseed step, is not caught by the per-frame
    step and is not retried: it leaves [_process_multiperson_frame].
    For the first region [i] whose estimator raises, the step raises,
    the region and all regions after it are untouched (no miss is
    recorded, the remaining regions are not processed), and each
    estimator up to [i] was called exactly once.  When the tracking loop
    has marked a slot and the detector raises, the step raises after
    that one detector call, and the list is as the tracking loop left
    it (same bounds). *)
Theorem collaborator_errors_propagate (frame_threshold : Z) (f : Frame)
    (locked_rois : list roi) (w : world) :
  (forall (i : nat) (r : roi),
     locked_rois !! i = Some r ->
     pose_process f (pose r) (roi_box r) = Raises ->
     (forall j r', (j < i)%nat -> locked_rois !! j = Some r' ->
                   pose_process f (pose r') (roi_box r') <> Raises) ->
     exists rois w',
       _process_multiperson_frame np_sqrt linear_sum_assignment
         frame_threshold f locked_rois w = Raised rois w'
       /\ length rois = length locked_rois
       /\ (forall j, (i <= j)%nat -> rois !! j = locked_rois !! j)
       /\ trace w'
          = rev (map process_call (take (S i) locked_rois)) ++ trace w)
  /\ (forall rois outputs need w1,
        track_rois frame_threshold f 0 locked_rois w
          = Tracked rois outputs need w1 ->
        need <> [] -> yolo w = true -> yolo_predict f = Raises ->
        _process_multiperson_frame np_sqrt linear_sum_assignment
          frame_threshold f locked_rois w
          = Raised rois (log EvPredict w1)
        /\ map roi_box rois = map roi_box locked_rois).
Proof.
  split.
  - intros i r Hi Hraise Hbefore.
    destruct (track_rois_raised frame_threshold f locked_rois 0%nat w i r
                Hi Hraise Hbefore) as (rois & w' & Hrun & Hrest).
    exists rois, w'. split; [|done].
    unfold _process_multiperson_frame, track_and_reseed.
    destruct locked_rois as [|r0 rest]; [done|]. by rewrite Hrun.
  - intros rois outs need w1 Htrack Hneed Hyolo Hpred.
    destruct (track_rois_tracked_inv _ _ _ _ _ _ _ _ _ Htrack)
      as (Hy & _ & _ & _ & Hboxes).
    split; [|done].
    unfold _process_multiperson_frame, track_and_reseed.
    destruct locked_rois as [|r0 rest].
    { simpl in Htrack. by injection Htrack as <- <- <- <-. }
    rewrite Htrack. unfold reseed_step.
    destruct need as [|n0 need]; [done|].
    by rewrite Hy, Hyolo, Hpred.
Qed.

(** ** C4: deduplication of two regions *)

Lemma dedup_two (a b : roi) (w : world) :
  dedup [a; b] w =
    if negb (Qle_bool (_iou (roi_box a) (roi_box b)) (55 # 100)) then
      if (3 <=? overlap_streak a + 1) && (3 <=? overlap_streak b + 1) then
        if lost b <=? lost a
        then ([bump_streak b], log (EvPoseClose (pose a)) w)
        else ([bump_streak a], log (EvPoseClose (pose b)) w)
      else ([bump_streak a; bump_streak b], w)
    else ([set_overlap_streak 0 a; set_overlap_streak 0 b], w).
Proof.
  unfold dedup, dedup_outer, dedup_inner.
  cbn [length seq fold_left fst snd Nat.sub].
  rewrite (decide_False (P := 0%nat ∈ (∅ : gset nat))) by set_solver.
  rewrite (decide_False (P := 1%nat ∈ (∅ : gset nat))) by set_solver.
  unfold dedup_pair. cbn [lookup list_lookup].
  destruct (negb _).
  - cbn [alter list_alter lookup list_lookup].
    cbn [bump_streak set_overlap_streak overlap_streak lost].
    destruct (_ && _).
    + destruct (lost b <=? lost a); cbn [fst snd lookup list_lookup].
      * destruct (decide (1%nat ∈ _)) as [Hin|_]; [set_solver|].
        rewrite decide_False by set_solver. cbn [keep_rois].
        rewrite (decide_True (P := 0%nat ∈ _)) by set_solver.
        rewrite (decide_False (P := 1%nat ∈ _)) by set_solver.
        done.
      * destruct (decide (1%nat ∈ _)) as [_|Hout]; [|set_solver].
        rewrite decide_False by set_solver. cbn [keep_rois].
        rewrite (decide_False (P := 0%nat ∈ _)) by set_solver.
        rewrite (decide_True (P := 1%nat ∈ _)) by set_solver.
        done.
    + cbn [fst snd].
      rewrite (decide_False (P := 1%nat ∈ (∅ : gset nat))) by set_solver.
      by rewrite decide_True.
  - cbn [alter list_alter fst snd].
    rewrite (decide_False (P := 1%nat ∈ (∅ : gset nat))) by set_solver.
    by rewrite decide_True.
Qed.

(** What the comparison of a pair [(i, j)] does to the two slots. *)
Lemma dedup_pair_spec (i j : nat) (rois : list roi) (rm : gset nat)
    (w : world) (ri rj : roi) :
  i <> j -> rois !! i = Some ri -> rois !! j = Some rj ->
  let '(rois', rm', _) := dedup_pair i j (rois, rm, w) in
  ((55 # 100 < _iou (roi_box ri) (roi_box rj))%Q ->
     rois' !! i = Some (bump_streak ri)
     /\ rois' !! j = Some (bump_streak rj)
     /\ rm' = (if (3 <=? overlap_streak ri + 1)
                  && (3 <=? overlap_streak rj + 1)
               then {[ if lost rj <=? lost ri then i else j ]} ∪ rm
               else rm))
  /\ ((_iou (roi_box ri) (roi_box rj) <= 55 # 100)%Q ->
        rois' !! i = Some (set_overlap_streak 0 ri)
        /\ rois' !! j = Some (set_overlap_streak 0 rj)
        /\ rm' = rm).
Proof.
  intros Hij Hi Hj. unfold dedup_pair. rewrite Hi, Hj.
  assert (Hbi : forall g h,
    alter h j (alter g i rois) !! i = Some (g ri)).
  { intros g h. rewrite list_lookup_alter_ne by done.
    by rewrite list_lookup_alter_eq, Hi. }
  assert (Hbj : forall g h,
    alter h j (alter g i rois) !! j = Some (h rj)).
  { intros g h. rewrite list_lookup_alter_eq.
    by rewrite list_lookup_alter_ne, Hj by done. }
  destruct (Qle_bool (_iou (roi_box ri) (roi_box rj)) (55 # 100)) eqn:Hle;
    cbn [negb].
  - apply Qle_bool_iff in Hle. split.
    + intros Hgt. by apply Qlt_not_le in Hgt.
    + intros _. by rewrite Hbi, Hbj.
  - assert (Hgt : (55 # 100 < _iou (roi_box ri) (roi_box rj))%Q).
    { apply Qnot_le_lt. intros H%Qle_bool_iff. congruence. }
    rewrite Hbi, Hbj.
    cbn [bump_streak set_overlap_streak overlap_streak lost].
    destruct (_ && _).
    + split; [|intros Hle'; by apply Qlt_not_le in Hgt].
      intros _. by rewrite Hbi, Hbj.
    + split; [|intros Hle'; by apply Qlt_not_le in Hgt].
      intros _. by rewrite Hbi, Hbj.
Qed.

(** C4, as amended: every compared pair with IoU above 0.55 has the
    [overlap_streak] of both slots incremented, every other compared pair
    has both reset to 0; when both streaks of an overlapping pair have
    reached 3, the slot with the larger [lost] is marked for removal, the
    first index on a tie.  So for a tracker that holds exactly two regions
    on entering each of three consecutive frames, with IoU above 0.55 at
    the deduplication of each, exactly one region remains after the third
    frame: the one whose [lost] is not larger at that frame, which is the
    one with the strictly smaller [lost] when the two differ, and the
    second one when they are equal. *)
Theorem dedup_two_regions_converge (frame_threshold : Z)
    (f1 f2 f3 : Frame) (a0 b0 a1 b1 a1' b1' a2 b2 a2' b2' a3 b3 : roi)
    (w0 w1 w1' w2 w2' w3 : world)
    (o1 o1' o2 o2' o3 : list (nat * list landmark)) :
  let step := _process_multiperson_frame np_sqrt linear_sum_assignment
                frame_threshold in
  let half := track_and_reseed np_sqrt linear_sum_assignment
                frame_threshold in
  (forall i j rois rm w ri rj,
     i <> j -> rois !! i = Some ri -> rois !! j = Some rj ->
     let '(rois', rm', _) := dedup_pair i j (rois, rm, w) in
     ((55 # 100 < _iou (roi_box ri) (roi_box rj))%Q ->
        rois' !! i = Some (bump_streak ri)
        /\ rois' !! j = Some (bump_streak rj)
        /\ rm' = (if (3 <=? overlap_streak ri + 1)
                     && (3 <=? overlap_streak rj + 1)
                  then {[ if lost rj <=? lost ri then i else j ]} ∪ rm
                  else rm))
     /\ ((_iou (roi_box ri) (roi_box rj) <= 55 # 100)%Q ->
           rois' !! i = Some (set_overlap_streak 0 ri)
           /\ rois' !! j = Some (set_overlap_streak 0 rj)
           /\ rm' = rm))
  /\ (0 <= overlap_streak a0 -> 0 <= overlap_streak b0 ->
      half f1 [a0; b0] w0 = Returned o1 [a1; b1] w1 ->
      (55 # 100 < _iou (roi_box a1) (roi_box b1))%Q ->
      step f1 [a0; b0] w0 = Returned o1' [a1'; b1'] w1' ->
      half f2 [a1'; b1'] w1' = Returned o2 [a2; b2] w2 ->
      (55 # 100 < _iou (roi_box a2) (roi_box b2))%Q ->
      step f2 [a1'; b1'] w1' = Returned o2' [a2'; b2'] w2' ->
      half f3 [a2'; b2'] w2' = Returned o3 [a3; b3] w3 ->
      (55 # 100 < _iou (roi_box a3) (roi_box b3))%Q ->
      exists survivor dropped,
        step f3 [a2'; b2'] w2'
          = Returned o3 [bump_streak survivor]
              (log (EvPoseClose (pose dropped)) (tick w3))
        /\ lost survivor <= lost dropped
        /\ (lost a3 < lost b3 -> survivor = a3 /\ dropped = b3)
        /\ (lost b3 < lost a3 -> survivor = b3 /\ dropped = a3)
        /\ (lost a3 = lost b3 -> survivor = b3 /\ dropped = a3)).
Proof.
  intros step half. split.
  { intros i j rois rm w ri rj. apply dedup_pair_spec. }
  intros Ha0 Hb0 H1 Hiou1 Hstep1 H2 Hiou2 Hstep2 H3 Hiou3.
  assert (Hgt : forall a b, (55 # 100 < _iou (roi_box a) (roi_box b))%Q ->
            negb (Qle_bool (_iou (roi_box a) (roi_box b)) (55 # 100))
            = true).
  { intros a b Hlt. apply negb_true_iff.
    destruct (Qle_bool _ _) eqn:Hle; [|done].
    apply Qle_bool_iff in Hle. by apply Qlt_not_le in Hlt. }
  (* a frame that keeps both regions has incremented both streaks *)
  assert (Hkept : forall f a b w o a' b' w' o' a'' b'' w'',
    half f [a; b] w = Returned o [a'; b'] w' ->
    (55 # 100 < _iou (roi_box a') (roi_box b'))%Q ->
    step f [a; b] w = Returned o' [a''; b''] w'' ->
    overlap_streak a'' = overlap_streak a + 1
    /\ overlap_streak b'' = overlap_streak b + 1).
  { intros f a b w o a' b' w' o' a'' b'' w'' Hhalf Hiou Hstep.
    pose proof (track_and_reseed_inv frame_threshold f [a; b] w) as Hinv.
    unfold half in Hhalf. rewrite Hhalf in Hinv. destruct Hinv as [_ Hinv].
    injection Hinv as Hsa Hsb.
    unfold step, _process_multiperson_frame in Hstep.
    rewrite Hhalf, dedup_two, Hgt in Hstep by done.
    destruct (_ && _).
    - by destruct (lost b' <=? lost a').
    - injection Hstep as _ <- <- _. simpl. lia. }
  destruct (Hkept _ _ _ _ _ _ _ _ _ _ _ _ H1 Hiou1 Hstep1) as [Ea1 Eb1].
  destruct (Hkept _ _ _ _ _ _ _ _ _ _ _ _ H2 Hiou2 Hstep2) as [Ea2 Eb2].
  pose proof (track_and_reseed_inv frame_threshold f3 [a2'; b2'] w2') as Hs3.
  unfold half in H3. rewrite H3 in Hs3. destruct Hs3 as [_ Hs3].
  injection Hs3 as Ea3 Eb3.
  unfold step, _process_multiperson_frame.
  rewrite H3, dedup_two, Hgt by done.
  destruct (Z.leb_spec 3 (overlap_streak a3 + 1)) as [_|?]; [|lia].
  destruct (Z.leb_spec 3 (overlap_streak b3 + 1)) as [_|?]; [|lia].
  cbn [andb].
  destruct (Z.leb_spec (lost b3) (lost a3)) as [Hle|Hlt].
  - exists b3, a3. split; [done|]. split; [done|].
    split; [lia|]. split; [done|]. done.
  - exists a3, b3. split; [done|]. split; [lia|].
    split; [done|]. split; lia.
Qed.

End TrackerProperties.

(** ** The theorems on the example scenes *)

Lemma sqrt_floor_monotone (p q : Q) :
  (p <= q)%Q -> (sqrt_floor p <= sqrt_floor q)%Q.
Proof.
  intros Hpq. unfold sqrt_floor. rewrite <- Zle_Qle.
  apply Z.sqrt_le_mono. by apply Qfloor_resp_le.
Qed.

(** C2, the claim as stated fails on both counts: the estimator of the
    second region raises and the step raises, with the second region's
    [lost] still 0 and the third region not processed; and when the
    detector raises in the reseed, the step raises as well. *)
Lemma collaborator_error_leaves_the_step :
  _process_multiperson_frame sqrt_floor diagonal_assignment 10
    frame_estimator_raises [region_a; region_b; region_stale] world0
  = Raised [set_lost 1 region_a; region_b; region_stale]
      (log (process_call region_b) (log (process_call region_a) world0))
  /\ _process_multiperson_frame sqrt_floor diagonal_assignment 10
       frame_detector_raises [region_a; region_stale] world0
     = Raised [set_lost 1 region_a; set_lost 10 region_stale]
         (log EvPredict
            (log (process_call region_stale)
               (log (process_call region_a) world0))).
Proof. split; reflexivity. Qed.

Lemma collaborator_errors_propagate_witness :
  (exists rois w',
     _process_multiperson_frame sqrt_floor diagonal_assignment 10
       frame_estimator_raises [region_a; region_b; region_stale] world0
     = Raised rois w'
     /\ length rois = 3%nat
     /\ (forall j, (1 <= j)%nat ->
           rois !! j = [region_a; region_b; region_stale] !! j)
     /\ trace w' = [process_call region_b; process_call region_a])
  /\ _process_multiperson_frame sqrt_floor diagonal_assignment 10
       frame_detector_raises [region_a; region_stale] world0
     = Raised [set_lost 1 region_a; set_lost 10 region_stale]
         (log EvPredict
            (log (process_call region_stale)
               (log (process_call region_a) world0))).
Proof.
  split.
  - apply (proj1 (collaborator_errors_propagate sqrt_floor diagonal_assignment
                    10 frame_estimator_raises
                    [region_a; region_b; region_stale] world0)
             1%nat region_b); [reflexivity | reflexivity |].
    intros [|j] r' Hj Hr'; [|lia]. injection Hr' as <-. discriminate.
  - apply (proj2 (collaborator_errors_propagate sqrt_floor diagonal_assignment
                    10 frame_detector_raises [region_a; region_stale] world0)
             _ [] [1%nat]); [reflexivity | discriminate | reflexivity
                            | reflexivity].
Defined.

(** C4, the claim as stated fails on a tie: both regions are found on each
    of three frames, so both have [lost = 0] at the third deduplication;
    one region remains, the second, and its [lost] is not strictly smaller
    than that of the region dropped. *)
Lemma dedup_tie_keeps_the_second_region :
  let run := run_frames sqrt_floor diagonal_assignment 10 in
  let two := run [frame_all_hit; frame_all_hit] [region_a; region_b] world0 in
  map lost
    (result_rois
       (track_and_reseed sqrt_floor diagonal_assignment 10 frame_all_hit
          (result_rois two) (result_world two)))
  = [0; 0]
  /\ result_rois
       (run [frame_all_hit; frame_all_hit; frame_all_hit]
          [region_a; region_b] world0)
     = [set_overlap_streak 3 region_b]
  /\ ~ (lost region_b < lost region_a).
Proof. split; [by vm_compute|]. split; [by vm_compute|]. by vm_compute. Qed.

Lemma dedup_two_regions_converge_witness :
  let f := frame_first_hits [] in
  exists w,
    run_frames sqrt_floor diagonal_assignment 10 [f; f; f]
      [region_a; region_b] world0
    = Returned [(0%nat, map (to_full_frame f region_a) one_landmark)]
        [set_overlap_streak 3 region_a] (log (EvPoseClose (pose region_b)) w).
Proof.
  intros f.
  edestruct (dedup_two_regions_converge sqrt_floor diagonal_assignment 10
               f f f region_a region_b) as [_ Hrun].
  edestruct Hrun as (survivor & dropped & H3 & Hle & Hlt & _).
  - by vm_compute.
  - by vm_compute.
  - reflexivity.
  - reflexivity.
  - reflexivity.
  - reflexivity.
  - reflexivity.
  - reflexivity.
  - reflexivity.
  - reflexivity.
  - destruct Hlt as [-> ->]; [reflexivity|].
    eexists. exact H3.
Defined.

Lemma tracking_step_hit_and_miss_witness :
  let f := frame_first_hits [] in
  exists rois outputs need w',
    track_rois default_frame_threshold f 0 [region_a; set_lost 9 region_b]
      world0 = Tracked rois outputs need w'
    /\ length rois = 2%nat
    /\ forall (i : nat) (r : roi),
       [region_a; set_lost 9 region_b] !! i = Some r ->
       match pose_process f (pose r) (roi_box r) with
       | Returns (Some lms) =>
           rois !! i = Some (set_lost 0 r)
           /\ In (i, map (to_full_frame f r) lms) outputs
           /\ ~ In i need
       | Returns None =>
           rois !! i = Some (set_lost (lost r + 1) r)
           /\ (In i need <-> default_frame_threshold <= lost r + 1)
           /\ (forall lms, ~ In (i, lms) outputs)
       | Raises => False
       end.
Proof.
  intros f.
  apply (tracking_step_hit_and_miss default_frame_threshold f
           [region_a; set_lost 9 region_b] world0).
  - reflexivity.
  - reflexivity.
  - intros r [<-|[<-|[]]]; discriminate.
Defined.



Lemma cost_gate_never_rejects_witness :
  let f := frame_first_hits [person_at 310 210 350 310] in
  let rois := [region_a; region_stale] in
  exists rois' w' r',
    reseed_step sqrt_floor diagonal_assignment f rois [1%nat] world0
      = Reseeded rois' w'
    /\ (forall rr det, In rr rois -> In det [(310, 210, 350, 310)] ->
          (pairing_cost sqrt_floor f rr det <= 3 # 2)%Q)
    /\ (3 # 2 <= (8 # 100) * diag_of sqrt_floor f)%Q
    /\ lost region_stale = 9
    /\ rois' !! 1%nat = Some r'
    /\ lost r' = 0 /\ (3 <= pose r')%nat.
Proof.
  intros f rois.
  edestruct (cost_gate_never_rejects sqrt_floor diagonal_assignment
               sqrt_floor_monotone f rois [1%nat] world0)
    as (Hbound & Hgate & Happlied).
  - by vm_compute.
  - intros r [<-|[<-|[]]]; vm_compute; repeat split; discriminate.
  - reflexivity.
  - intros det [<-|[]]; vm_compute; repeat split; discriminate.
  - reflexivity.
  - destruct (Happlied 0%nat 0%nat 1%nat region_stale (310, 210, 350, 310))
      as (r' & Hr' & Hlost & Hpose).
    + left. reflexivity.
    + reflexivity.
    + reflexivity.
    + reflexivity.
    + intros hb [<-|[]]. by vm_compute.
    + eexists _, _, r'. split; [reflexivity|]. split; [exact Hbound|].
      split; [exact Hgate|]. split; [reflexivity|].
      split; [exact Hr'|]. split; [exact Hlost | exact Hpose].
Defined.

Lemma roi_count_never_grows_witness :
  let f := frame_first_hits [person_at 500 100 560 300] in
  (length (result_rois
             (_process_multiperson_frame sqrt_floor diagonal_assignment 10 f
                [region_a; region_stale] world0))
   <= 2)%nat
  /\ (length (result_rois
                (frame_step sqrt_floor diagonal_assignment true 10 f
                   [region_a; region_stale] world0))
      <= 2)%nat.
Proof.
  intros f.
  destruct (roi_count_never_grows sqrt_floor diagonal_assignment 10 f
              [region_a; region_stale] world0)
    as (_ & _ & _ & Hstep & Hframe).
  split; [exact Hstep|]. apply Hframe. discriminate.
Defined.


(** ** Smoothing *)

Lemma py_int_float (z : Z) : py_int (float z) = z.
Proof.
  unfold py_int. destruct (Qnum (float z) <? 0);
    [apply Qceiling_Z | apply Qfloor_Z].
Qed.

Lemma py_int_between (a b : Z) (q : Q) :
  (float a <= q)%Q -> (q <= float b)%Q -> a <= py_int q <= b.
Proof.
  intros Ha Hb. unfold py_int. destruct (Qnum q <? 0).
  - apply Qceiling_resp_le in Ha, Hb. rewrite Qceiling_Z in Ha, Hb. lia.
  - apply Qfloor_resp_le in Ha, Hb. rewrite Qfloor_Z in Ha, Hb. lia.
Qed.

(** One coordinate of the smoothing lies between the old and the new. *)
Lemma smooth_coordinate_between (o n : Z) (alpha : Q) :
  (0 <= alpha)%Q -> (alpha <= 1)%Q ->
  Z.min o n <= py_int (alpha * float n + (1 - alpha) * float o) <= Z.max o n.
Proof.
  intros H0 H1.
  assert (Hq : forall a b : Z, a <= b -> (float a <= float b)%Q).
  { intros a b Hab. by rewrite <- Zle_Qle. }
  apply py_int_between.
  - pose proof (Hq _ _ (Z.le_min_l o n)). pose proof (Hq _ _ (Z.le_min_r o n)).
    nra.
  - pose proof (Hq _ _ (Z.le_max_l o n)). pose proof (Hq _ _ (Z.le_max_r o n)).
    nra.
Qed.

Lemma py_int_half (s : Z) : py_int (s # 2) = s ÷ 2.
Proof.
  unfold py_int. cbn [Qnum]. destruct (Z.ltb_spec s 0) as [Hneg|Hpos].
  - unfold Qceiling, Qfloor, Qopp. cbn [Qnum Qden].
    rewrite <- (Z.opp_involutive s) at 2.
    rewrite Z.quot_opp_l by done.
    by rewrite (Z.quot_div_nonneg (- s) 2) by lia.
  - unfold Qfloor. by rewrite Z.quot_div_nonneg by lia.
Qed.

Lemma smooth_coordinate_half (o n : Z) :
  py_int (smooth_alpha * float n + (1 - smooth_alpha) * float o)
  = (o + n) ÷ 2.
Proof.
  rewrite <- py_int_half. apply py_int_comp. unfold smooth_alpha.
  unfold Qeq, Qplus, Qmult, Qminus, Qopp, inject_Z. simpl. lia.
Qed.

(** X1: with the weight 0.5 that the tracker passes ([self.smooth_alpha],
    for which the float arithmetic is exact on pixel coordinates), every
    coordinate of the smoothed box is the mean of the old and the new
    coordinate truncated toward zero, and so lies between the two: the
    smoothing never moves a box outside the hull of the two boxes. *)
Theorem smooth_box_between (ox1 oy1 ox2 oy2 nx1 ny1 nx2 ny2 : Z) :
  _smooth_box (ox1, oy1, ox2, oy2) (nx1, ny1, nx2, ny2) smooth_alpha
  = ((ox1 + nx1) ÷ 2, (oy1 + ny1) ÷ 2, (ox2 + nx2) ÷ 2, (oy2 + ny2) ÷ 2)
  /\ (Z.min ox1 nx1 <= (ox1 + nx1) ÷ 2 <= Z.max ox1 nx1
      /\ Z.min oy1 ny1 <= (oy1 + ny1) ÷ 2 <= Z.max oy1 ny1)
  /\ (Z.min ox2 nx2 <= (ox2 + nx2) ÷ 2 <= Z.max ox2 nx2
      /\ Z.min oy2 ny2 <= (oy2 + ny2) ÷ 2 <= Z.max oy2 ny2).
Proof.
  assert (Hbetween : forall o n : Z,
            Z.min o n <= (o + n) ÷ 2 <= Z.max o n).
  { intros o n. rewrite <- smooth_coordinate_half.
    by apply smooth_coordinate_between. }
  split; [|by repeat split; apply Hbetween].
  cbn [_smooth_box]. by rewrite !smooth_coordinate_half.
Qed.

(** X2: with the weight 0.5 a box smoothed against itself is the box;
    the weight 0 returns the old box and the weight 1 the new (for these
    three weights the float arithmetic is exact). *)
Theorem smooth_box_fixed_points (old_box new_box : bbox) :
  _smooth_box old_box old_box smooth_alpha = old_box
  /\ _smooth_box old_box new_box 0 = old_box
  /\ _smooth_box old_box new_box 1 = new_box.
Proof.
  destruct old_box as [[[ox1 oy1] ox2] oy2],
           new_box as [[[nx1 ny1] nx2] ny2].
  assert (Hsame : forall z : Z,
            py_int (smooth_alpha * float z + (1 - smooth_alpha) * float z)
            = z).
  { intros z. rewrite <- (py_int_float z) at 3. apply py_int_comp.
    unfold smooth_alpha. ring. }
  assert (Hold : forall o n : Z,
            py_int (0 * float n + (1 - 0) * float o) = o).
  { intros o n. rewrite <- (py_int_float o) at 2. apply py_int_comp. ring. }
  assert (Hnew : forall o n : Z,
            py_int (1 * float n + (1 - 1) * float o) = n).
  { intros o n. rewrite <- (py_int_float n) at 2. apply py_int_comp. ring. }
  cbn [_smooth_box]. by rewrite !Hsame, !Hold, !Hnew.
Qed.

(** The smoothing of two ordered boxes within the frame is one. *)
Lemma smooth_box_ok (f : Frame) (old_box new_box : bbox) (alpha : Q) :
  (0 <= alpha)%Q -> (alpha <= 1)%Q ->
  box_ok f old_box -> box_ok f new_box ->
  box_ok f (_smooth_box old_box new_box alpha).
Proof.
  intros H0 H1.
  destruct old_box as [[[ox1 oy1] ox2] oy2],
           new_box as [[[nx1 ny1] nx2] ny2].
  intros [[[Hox1 Hox] HoW] [[Hoy1 Hoy] HoH]] [[[Hnx1 Hnx] HnW] [[Hny1 Hny] HnH]].
  assert (Haxis : forall o1 o2 n1 n2 W : Z,
    0 <= o1 -> o1 < o2 -> o2 <= W -> 0 <= n1 -> n1 < n2 -> n2 <= W ->
    0 <= py_int (alpha * float n1 + (1 - alpha) * float o1)
         < py_int (alpha * float n2 + (1 - alpha) * float o2)
    /\ py_int (alpha * float n2 + (1 - alpha) * float o2) <= W).
  { intros o1 o2 n1 n2 W Ho1 Ho Ho2 Hn1 Hn Hn2.
    assert (Hq : forall a b : Z, a <= b -> (float a <= float b)%Q).
    { intros a b Hab. by rewrite <- Zle_Qle. }
    pose proof (Hq 0 o1 Ho1) as Q1. pose proof (Hq 0 n1 Hn1) as Q2.
    pose proof (Hq (o1 + 1) o2 ltac:(lia)) as Q3.
    pose proof (Hq (n1 + 1) n2 ltac:(lia)) as Q4.
    pose proof (Hq o2 W Ho2) as Q5. pose proof (Hq n2 W Hn2) as Q6.
    rewrite inject_Z_plus in Q3, Q4.
    change (float 0) with 0%Q in *. change (float 1) with 1%Q in *.
    set (t1 := (alpha * float n1 + (1 - alpha) * float o1)%Q).
    set (t2 := (alpha * float n2 + (1 - alpha) * float o2)%Q).
    assert (Ht1 : (0 <= t1)%Q) by (unfold t1; nra).
    assert (Ht12 : (t1 + 1 <= t2)%Q) by (unfold t1, t2; nra).
    assert (Ht2 : (t2 <= float W)%Q) by (unfold t2; nra).
    rewrite (py_int_nonneg t1), (py_int_nonneg t2) by lra.
    split; [split; [by apply Qfloor_nonneg | by apply Qfloor_step]|].
    by apply Qfloor_le_Z. }
  cbn [_smooth_box box_ok]. split; by apply Haxis.
Qed.

(** ** What deduplication leaves alone *)

Lemma map_alter_same {A B : Type} (g : A -> B) (h : A -> A) (i : nat)
    (l : list A) :
  (forall x, g (h x) = g x) -> map g (alter h i l) = map g l.
Proof.
  intros Hgh. revert i. induction l as [|x l IH]; intros [|i]; simpl.
  - done.
  - done.
  - by rewrite Hgh.
  - f_equal. apply IH.
Qed.

Lemma dedup_pair_core (i j : nat) (rois : list roi) (rm : gset nat)
    (w : world) :
  map region_core (dedup_pair i j (rois, rm, w)).1.1 = map region_core rois
  /\ next_pose (dedup_pair i j (rois, rm, w)).2 = next_pose w
  /\ yolo (dedup_pair i j (rois, rm, w)).2 = yolo w.
Proof.
  unfold dedup_pair.
  destruct (rois !! i) as [ri|]; [|done].
  destruct (rois !! j) as [rj|]; [|done].
  assert (Hb : forall k1 k2 g,
    (forall r, region_core (g r) = region_core r) ->
    map region_core (alter g k2 (alter g k1 rois)) = map region_core rois).
  { intros k1 k2 g Hg. by rewrite !map_alter_same. }
  destruct (negb _).
  - destruct (alter bump_streak j (alter bump_streak i rois) !! i) as [ri'|];
      [|by (cbn [fst snd]; rewrite Hb)].
    destruct (alter bump_streak j (alter bump_streak i rois) !! j) as [rj'|];
      [|by (cbn [fst snd]; rewrite Hb)].
    destruct (_ && _); cbn [fst snd]; rewrite Hb by done; [|done].
    by destruct (alter bump_streak j (alter bump_streak i rois) !! _).
  - cbn [fst snd]. by rewrite Hb.
Qed.

Lemma dedup_inner_core (n i : nat) (st : list roi * gset nat * world) :
  map region_core (dedup_inner n i st).1.1 = map region_core st.1.1
  /\ next_pose (dedup_inner n i st).2 = next_pose st.2
  /\ yolo (dedup_inner n i st).2 = yolo st.2.
Proof.
  unfold dedup_inner. generalize (seq (S i) (n - S i)). intros js.
  revert st. induction js as [|j js IH]; intros st; [done|].
  cbn [fold_left]. destruct (IH (if decide (j ∈ st.1.2) then st
                                 else dedup_pair i j st)) as (-> & -> & ->).
  destruct (decide (j ∈ st.1.2)); [done|].
  destruct st as [[rois rm] w]. apply dedup_pair_core.
Qed.

Lemma dedup_outer_core (n : nat) (st : list roi * gset nat * world) :
  map region_core (dedup_outer n st).1.1 = map region_core st.1.1
  /\ next_pose (dedup_outer n st).2 = next_pose st.2
  /\ yolo (dedup_outer n st).2 = yolo st.2.
Proof.
  unfold dedup_outer. generalize (seq 0 n). intros idxs.
  revert st. induction idxs as [|i idxs IH]; intros st; [done|].
  cbn [fold_left]. destruct (IH (if decide (i ∈ st.1.2) then st
                                 else dedup_inner n i st)) as (-> & -> & ->).
  destruct (decide (i ∈ st.1.2)); [done|]. apply dedup_inner_core.
Qed.

Lemma keep_rois_sublist (rm : gset nat) (idx : nat) (rois : list roi) :
  sublist (keep_rois rm idx rois) rois.
Proof.
  revert idx. induction rois as [|r rest IH]; intros idx; [constructor|].
  cbn [keep_rois]. destruct (decide (idx ∈ rm)); by constructor.
Qed.

Lemma keep_rois_In (rm : gset nat) (idx i : nat) (rois : list roi) (r : roi) :
  rois !! i = Some r -> (idx + i)%nat ∉ rm -> In r (keep_rois rm idx rois).
Proof.
  revert idx i. induction rois as [|r0 rest IH]; intros idx i Hi Hout; [done|].
  cbn [keep_rois]. destruct i as [|i].
  - injection Hi as ->. rewrite Nat.add_0_r in Hout.
    rewrite decide_False by done. by left.
  - simpl in Hi. assert (In r (keep_rois rm (S idx) rest)).
    { apply (IH (S idx) i); [done|]. by replace (S idx + i)%nat
        with (idx + S i)%nat by lia. }
    destruct (decide (idx ∈ rm)); [done | by right].
Qed.

Lemma sublist_In {A : Type} (l1 l2 : list A) (x : A) :
  sublist l1 l2 -> In x l1 -> In x l2.
Proof.
  induction 1 as [|y l1 l2 _ IH|y l1 l2 _ IH]; simpl; [done| |]; tauto.
Qed.

Lemma sublist_Forall {A : Type} (P : A -> Prop) (l1 l2 : list A) :
  sublist l1 l2 -> Forall P l2 -> Forall P l1.
Proof.
  intros Hsub Hall. apply List.Forall_forall. intros x Hx.
  apply (proj1 (List.Forall_forall P l2) Hall). by eapply sublist_In.
Qed.

(** Deduplication only drops regions and counts streaks. *)
Lemma dedup_core_sublist (rois : list roi) (w : world) :
  sublist (map region_core (dedup rois w).1) (map region_core rois)
  /\ next_pose (dedup rois w).2 = next_pose w
  /\ yolo (dedup rois w).2 = yolo w.
Proof.
  unfold dedup.
  pose proof (dedup_outer_core (length rois) (rois, ∅, w)) as Hcore.
  destruct (dedup_outer (length rois) (rois, ∅, w)) as [[rois' rm] w'].
  cbn [fst snd] in Hcore. destruct Hcore as (Hc & Hn & Hy).
  destruct (decide (rm = ∅)); cbn [fst snd]; (split; [|done]).
  - by rewrite Hc.
  - rewrite <- Hc. apply fmap_sublist, keep_rois_sublist.
Qed.

Lemma map_lost_core (rois : list roi) :
  map lost rois = map (fun c : bbox * Z * nat => c.1.2) (map region_core rois).
Proof. by rewrite map_map. Qed.

Lemma dedup_pair_keeper (losts : list Z) (m i j : nat) (rois : list roi)
    (rm : gset nat) (w : world) :
  (i < j)%nat -> map lost rois = losts -> keeper losts m -> m ∉ rm ->
  map lost (dedup_pair i j (rois, rm, w)).1.1 = losts
  /\ m ∉ (dedup_pair i j (rois, rm, w)).1.2.
Proof.
  intros Hij Hlost (lm & Hm & Hmin) Hout. split.
  { rewrite map_lost_core, (proj1 (dedup_pair_core i j rois rm w)).
    by rewrite <- map_lost_core. }
  destruct (rois !! i) as [ri|] eqn:Hi;
    [|by (unfold dedup_pair; rewrite Hi)].
  destruct (rois !! j) as [rj|] eqn:Hj;
    [|by (unfold dedup_pair; rewrite Hi, Hj)].
  pose proof (dedup_pair_spec i j rois rm w ri rj ltac:(lia) Hi Hj) as Hspec.
  destruct (dedup_pair i j (rois, rm, w)) as [[rois' rm'] w'].
  cbn [fst snd]. destruct Hspec as [Hover Hfar].
  assert (Hli : losts !! i = Some (lost ri)).
  { rewrite <- Hlost. change (map lost rois) with (lost <$> rois).
    by rewrite list_lookup_fmap, Hi. }
  assert (Hlj : losts !! j = Some (lost rj)).
  { rewrite <- Hlost. change (map lost rois) with (lost <$> rois).
    by rewrite list_lookup_fmap, Hj. }
  destruct (Hmin i _ Hli) as [Hmi Hti], (Hmin j _ Hlj) as [Hmj Htj].
  destruct (Qlt_le_dec (55 # 100) (_iou (roi_box ri) (roi_box rj)))
    as [Hgt|Hle].
  - destruct (Hover Hgt) as (_ & _ & ->).
    destruct (_ && _); [|done].
    destruct (Z.leb_spec (lost rj) (lost ri)) as [Hji|Hji].
    + intros [->%elem_of_singleton|Hin]%elem_of_union; [|done].
      assert (lm = lost ri) by congruence. lia.
    + intros [->%elem_of_singleton|Hin]%elem_of_union; [|done].
      assert (lm = lost rj) by congruence. lia.
  - by destruct (Hfar Hle) as (_ & _ & ->).
Qed.

Lemma dedup_inner_keeper (losts : list Z) (m n i : nat)
    (st : list roi * gset nat * world) :
  map lost st.1.1 = losts -> keeper losts m -> m ∉ st.1.2 ->
  map lost (dedup_inner n i st).1.1 = losts
  /\ m ∉ (dedup_inner n i st).1.2.
Proof.
  intros Hlost Hkeep Hout. unfold dedup_inner.
  assert (Hjs : Forall (fun j => (i < j)%nat) (seq (S i) (n - S i))).
  { apply List.Forall_forall. intros j Hj%in_seq. lia. }
  revert Hjs. generalize (seq (S i) (n - S i)). intros js Hjs.
  revert st Hlost Hout. induction js as [|j js IH]; intros st Hlost Hout;
    [done|].
  cbn [fold_left]. inversion_clear Hjs as [|?? Hij Hjs'].
  apply IH; [done| |].
  - destruct (decide (j ∈ st.1.2)); [done|]. destruct st as [[rois rm] w].
    by apply (dedup_pair_keeper losts m).
  - destruct (decide (j ∈ st.1.2)); [done|]. destruct st as [[rois rm] w].
    by apply (dedup_pair_keeper losts m).
Qed.

Lemma dedup_outer_keeper (losts : list Z) (m n : nat)
    (st : list roi * gset nat * world) :
  map lost st.1.1 = losts -> keeper losts m -> m ∉ st.1.2 ->
  map lost (dedup_outer n st).1.1 = losts
  /\ m ∉ (dedup_outer n st).1.2.
Proof.
  intros Hlost Hkeep Hout. unfold dedup_outer.
  generalize (seq 0 n). intros idxs.
  revert st Hlost Hout. induction idxs as [|i idxs IH]; intros st Hlost Hout;
    [done|].
  cbn [fold_left].
  apply IH; (destruct (decide (i ∈ st.1.2)); [done|]);
    by apply (dedup_inner_keeper losts m).
Qed.

Lemma keeper_exists (losts : list Z) : losts <> [] -> exists m, keeper losts m.
Proof.
  induction losts as [|x rest IH]; [done|]. intros _.
  destruct rest as [|y rest'].
  { exists 0%nat, x. split; [done|]. intros [|k] lk Hk; [|done].
    injection Hk as <-. split; [lia|done]. }
  destruct (IH ltac:(done)) as (m & lm & Hm & Hmin).
  destruct (Z.lt_ge_cases x lm) as [Hlt|Hge].
  - exists 0%nat, x. split; [done|]. intros [|k] lk Hk.
    + injection Hk as <-. split; [lia|done].
    + destruct (Hmin k lk Hk) as [Hle _]. split; lia.
  - exists (S m), lm. split; [done|]. intros [|k] lk Hk.
    + injection Hk as <-. split; [lia|]. intros _. lia.
    + destruct (Hmin k lk Hk) as [Hle Htie]. split; [done|].
      intros Heq. specialize (Htie Heq). lia.
Qed.

(** X3: deduplication changes nothing of a region but its
    [overlap_streak], and never reorders: the regions it returns are, up
    to their streaks, a sublist of the regions it was given, each with the
    same bounds, the same [lost] and the same estimator; it also makes no
    estimator. *)
Theorem dedup_only_drops (locked_rois : list roi) (w : world) :
  sublist (map region_core (dedup locked_rois w).1)
    (map region_core locked_rois)
  /\ next_pose (dedup locked_rois w).2 = next_pose w.
Proof.
  destruct (dedup_core_sublist locked_rois w) as (Hsub & Hnext & _).
  by split.
Qed.

(** The last region among those with the smallest [lost] survives the
    deduplication, with its box, [lost] and estimator. *)
Lemma dedup_keeps_keeper (rois : list roi) (w : world) (m : nat) (r : roi) :
  keeper (map lost rois) m -> rois !! m = Some r ->
  exists r', In r' (dedup rois w).1 /\ region_core r' = region_core r.
Proof.
  intros Hkeep Hr.
  pose proof (dedup_outer_keeper (map lost rois) m (length rois)
                (rois, ∅, w) eq_refl Hkeep ltac:(set_solver)) as [_ Hout].
  pose proof (dedup_outer_core (length rois) (rois, ∅, w)) as (Hcore & _).
  unfold dedup.
  destruct (dedup_outer (length rois) (rois, ∅, w)) as [[rois' rm] w'].
  cbn [fst snd] in Hout, Hcore.
  assert (Hm' : exists r', rois' !! m = Some r'
                           /\ region_core r' = region_core r).
  { apply (f_equal (fun l => l !! m)) in Hcore.
    change (map region_core rois') with (region_core <$> rois') in Hcore.
    change (map region_core rois) with (region_core <$> rois) in Hcore.
    rewrite !list_lookup_fmap, Hr in Hcore.
    destruct (rois' !! m) as [r'|]; [|done]. exists r'. split; [done|].
    cbn [fmap option_fmap option_map] in Hcore. congruence. }
  destruct Hm' as (r' & Hr' & Hcore'). exists r'. split; [|done].
  destruct (decide (rm = ∅)); cbn [fst].
  - apply list_elem_of_In. by eapply list_elem_of_lookup_2.
  - by apply (keep_rois_In rm 0 m).
Qed.

Lemma dedup_keeps_lowest (rois : list roi) (w : world) :
  rois <> [] ->
  exists r, In r (dedup rois w).1
    /\ forall r0, In r0 rois -> lost r <= lost r0.
Proof.
  intros Hne.
  destruct (keeper_exists (map lost rois)) as (m & Hkeep).
  { by destruct rois. }
  pose proof (dedup_outer_keeper (map lost rois) m (length rois)
                (rois, ∅, w) eq_refl Hkeep ltac:(set_solver)) as [Hlost Hout].
  unfold dedup.
  destruct (dedup_outer (length rois) (rois, ∅, w)) as [[rois' rm] w'].
  cbn [fst snd] in Hlost, Hout.
  destruct Hkeep as (lm & Hm & Hmin).
  assert (Hm' : exists r, rois' !! m = Some r /\ lost r = lm).
  { rewrite <- Hlost in Hm. change (map lost rois') with (lost <$> rois') in Hm.
    rewrite list_lookup_fmap in Hm.
    destruct (rois' !! m) as [r|]; [|done]. exists r. split; [done|].
    by injection Hm. }
  destruct Hm' as (r & Hr & Hlr). exists r. split.
  - destruct (decide (rm = ∅)); cbn [fst].
    + apply list_elem_of_In. by eapply list_elem_of_lookup_2.
    + by apply (keep_rois_In rm 0 m).
  - intros r0 [k Hk]%list_elem_of_In%list_elem_of_lookup.
    assert (Hlk : map lost rois !! k = Some (lost r0)).
    { change (map lost rois) with (lost <$> rois).
      by rewrite list_lookup_fmap, Hk. }
    destruct (Hmin k _ Hlk) as [Hle _]. lia.
Qed.

(** ** Invariants of the ROI list through a frame *)

(** The tracking loop writes [lost] only, whether it ends or raises. *)
Lemma track_rois_fields (frame_threshold : Z) (f : Frame)
    (locked_rois : list roi) :
  forall (k : nat) (w : world),
  match track_rois frame_threshold f k locked_rois w with
  | Tracked rois _ _ w' | TrackRaised rois w' =>
    map pose rois = map pose locked_rois
    /\ map roi_box rois = map roi_box locked_rois
    /\ next_pose w' = next_pose w
  end.
Proof.
  induction locked_rois as [|r0 rest IH]; intros k w; [done|].
  cbn [track_rois]. change (roi_box r0) with (x1 r0, y1 r0, x2 r0, y2 r0).
  cbv beta iota.
  specialize (IH (S k) (log (EvProcess (pose r0) (x1 r0, y1 r0, x2 r0, y2 r0))
                          w)).
  destruct (pose_process f (pose r0) (x1 r0, y1 r0, x2 r0, y2 r0))
    as [[lms0|]|]; [| |done];
    destruct (track_rois frame_threshold f (S k) rest _)
      as [rois1 outs1 need1 w1|rois1 w1];
    destruct IH as (Hp & Hb & Hn); cbn [map]; by rewrite Hp, Hb, Hn.
Qed.

Lemma NoDup_insert_fresh {A : Type} (l : list A) (i : nat) (x : A) :
  NoDup l -> x ∉ l -> NoDup (<[i:=x]> l).
Proof.
  revert i. induction l as [|y l IH]; intros i Hnd Hx; [done|].
  apply NoDup_cons in Hnd as [Hy Hnd].
  apply not_elem_of_cons in Hx as [Hxy Hx].
  destruct i as [|i]; simpl; apply NoDup_cons.
  - by split.
  - split; [|by apply IH].
    intros Hin. destruct (decide (i < length l)%nat) as [Hlt|Hge].
    + apply list_elem_of_lookup in Hin as [j Hj].
      destruct (decide (j = i)) as [->|Hne].
      * rewrite list_lookup_insert_eq in Hj by done. congruence.
      * rewrite list_lookup_insert_ne in Hj by done.
        apply Hy. by eapply list_elem_of_lookup_2.
    + rewrite list_insert_ge in Hin by lia. done.
Qed.

Lemma estimators_owned_poses (rois rois' : list roi) (w w' : world) :
  map pose rois' = map pose rois -> next_pose w' = next_pose w ->
  estimators_owned rois w -> estimators_owned rois' w'.
Proof.
  intros Hp Hn [Hnd Hall]. split; [by rewrite Hp|].
  rewrite Hn. apply Forall_forall. intros r Hr.
  assert (Hin : pose r ∈ map pose rois).
  { rewrite <- Hp. apply list_elem_of_fmap. by exists r. }
  apply list_elem_of_fmap in Hin as (r0 & -> & Hr0).
  by apply (proj1 (Forall_forall _ _) Hall).
Qed.

Lemma apply_reseed_owned (roi_index : nat) (nb : bbox) (rois : list roi)
    (w : world) :
  estimators_owned rois w ->
  estimators_owned (apply_reseed roi_index nb (rois, w)).1
    (apply_reseed roi_index nb (rois, w)).2.
Proof.
  intros [Hnd Hall]. unfold apply_reseed.
  destruct (rois !! roi_index) as [old|] eqn:Hold; [|by split].
  destruct (_smooth_box (roi_box old) nb smooth_alpha)
    as [[[sx1 sy1] sx2] sy2].
  cbn [new_pose fst snd next_pose log]. split.
  - change (map pose ?l) with (pose <$> l). rewrite list_fmap_insert.
    cbn [pose]. apply NoDup_insert_fresh; [done|].
    intros (r & Hr & Hin)%list_elem_of_fmap.
    pose proof (proj1 (Forall_forall _ _) Hall r Hin). simpl in *. lia.
  - apply Forall_insert; [|simpl; lia].
    eapply Forall_impl; [exact Hall|]. simpl. intros r Hr. lia.
Qed.

Lemma reseed_step_owned (np_sqrt : Q -> Q)
    (linear_sum_assignment : list (list Q) -> list nat * list nat)
    (f : Frame) (rois : list roi) (need : list nat) (w : world) :
  estimators_owned rois w ->
  match reseed_step np_sqrt linear_sum_assignment f rois need w with
  | Reseeded rois' w' | ReseedRaised rois' w' => estimators_owned rois' w'
  end.
Proof.
  intros Hown. unfold reseed_step. destruct need as [|n0 need]; [done|].
  destruct (yolo w); [|done].
  destruct (yolo_predict f) as [boxes|]; [|done].
  destruct (filtered_boxes_of _ _) as [|b0 pbs]; [done|].
  destruct (linear_sum_assignment _) as [row_ind col_ind].
  generalize (zip row_ind col_ind). intros pairs.
  assert (Hfold : forall st : list roi * world,
    estimators_owned st.1 st.2 ->
    estimators_owned
      (fold_left (reseed_pair f
                    (cost_matrix np_sqrt (diag_of np_sqrt f) rois
                       (n0 :: need) (b0 :: pbs))
                    ((8 # 100) * diag_of np_sqrt f) (healthy_boxes_of rois)
                    (n0 :: need) (b0 :: pbs)) pairs st).1
      (fold_left (reseed_pair f
                    (cost_matrix np_sqrt (diag_of np_sqrt f) rois
                       (n0 :: need) (b0 :: pbs))
                    ((8 # 100) * diag_of np_sqrt f) (healthy_boxes_of rois)
                    (n0 :: need) (b0 :: pbs)) pairs st).2).
  { induction pairs as [|rc pairs IH]; intros st Hst; [done|].
    cbn [fold_left]. apply IH. unfold reseed_pair.
    destruct (accepted_match _ _ _ _ _ _ _) as [[[idx det] nb]|]; [|done].
    destruct st as [rois1 w1]. by apply apply_reseed_owned. }
  specialize (Hfold (rois, log EvPredict w) Hown).
  by destruct (fold_left _ _ _).
Qed.

Lemma seed_boxes_owned (person_boxes : list bbox) (W H : Z) (margin_ratio : Q)
    (rois : list roi) (w : world) :
  estimators_owned rois w ->
  estimators_owned (seed_boxes person_boxes W H margin_ratio rois w).1
    (seed_boxes person_boxes W H margin_ratio rois w).2.
Proof.
  revert rois w.
  induction person_boxes as [|[[[bx1 by1] bx2] by2] rest IH];
    intros rois w Hown; [done|].
  cbn [seed_boxes].
  destruct (_expand_and_clip_bbox bx1 by1 bx2 by2 W H margin_ratio)
    as [[[x1e y1e] x2e] y2e].
  cbn [new_pose]. apply IH. destruct Hown as [Hnd Hall]. split.
  - rewrite map_app. cbn [map pose]. apply NoDup_app.
    split; [done|]. split; [|apply NoDup_singleton].
    intros h (r & Hh & Hin)%list_elem_of_fmap Heq%list_elem_of_singleton.
    pose proof (proj1 (Forall_forall _ _) Hall r Hin). simpl in *. lia.
  - apply Forall_app. split.
    + eapply Forall_impl; [exact Hall|]. simpl. intros r Hr. lia.
    + apply Forall_singleton. simpl. lia.
Qed.

Lemma estimators_owned_alt (rois : list roi) (w : world) :
  estimators_owned rois w
  <-> NoDup (map pose rois)
      /\ Forall (fun h => (h < next_pose w)%nat) (map pose rois).
Proof.
  unfold estimators_owned. by rewrite (List.Forall_map pose).
Qed.

Lemma map_pose_core (rois : list roi) :
  map pose rois = map (fun c : bbox * Z * nat => c.2) (map region_core rois).
Proof. by rewrite map_map. Qed.

Lemma map_roi_box_core (rois : list roi) :
  map roi_box rois
  = map (fun c : bbox * Z * nat => c.1.1) (map region_core rois).
Proof. by rewrite map_map. Qed.

Lemma dedup_owned (rois : list roi) (w : world) :
  estimators_owned rois w ->
  estimators_owned (dedup rois w).1 (dedup rois w).2.
Proof.
  rewrite !estimators_owned_alt. intros [Hnd Hall].
  destruct (dedup_core_sublist rois w) as (Hsub & Hn & _).
  assert (Hposes : sublist (map pose (dedup rois w).1) (map pose rois)).
  { rewrite !map_pose_core. by apply fmap_sublist. }
  split; [by eapply sublist_NoDup | rewrite Hn; by eapply sublist_Forall].
Qed.

Lemma seed_rois_owned (yolo_init_ok : bool) (f : Frame) (rois : list roi)
    (margin_ratio : Q) (w : world) :
  estimators_owned rois w ->
  match _seed_rois_if_needed yolo_init_ok f rois margin_ratio w with
  | Seeded rois' w' | SeedRaised rois' w' => estimators_owned rois' w'
  end.
Proof.
  intros Hown. unfold _seed_rois_if_needed, _ensure_yolo.
  assert (Hw0 : forall w0, next_pose w0 = next_pose w ->
            match match rois with
                  | [] =>
                    match yolo_predict f with
                    | Returns boxes =>
                      let '(rois0, w2) :=
                        seed_boxes (person_boxes_of boxes) (image_width f)
                          (image_height f) margin_ratio rois
                          (log EvPredict w0) in Seeded rois0 w2
                    | Raises => SeedRaised rois (log EvPredict w0)
                    end
                  | _ :: _ => Seeded rois w0
                  end with
            | Seeded rois' w' | SeedRaised rois' w' =>
              estimators_owned rois' w'
            end).
  { intros w0 Hn.
    assert (Hown0 : estimators_owned rois (log EvPredict w0)).
    { by apply (estimators_owned_poses rois rois w). }
    destruct rois as [|r0 rest].
    - destruct (yolo_predict f) as [boxes|]; [|done].
      pose proof (seed_boxes_owned (person_boxes_of boxes) (image_width f)
                    (image_height f) margin_ratio [] (log EvPredict w0) Hown0)
        as Hseed.
      by destruct (seed_boxes _ _ _ _ _ _).
    - by apply (estimators_owned_poses (r0 :: rest) (r0 :: rest) w). }
  destruct (yolo w); [by apply Hw0|].
  destruct yolo_init_ok; [by apply Hw0 | done].
Qed.

Lemma process_owned (np_sqrt : Q -> Q)
    (linear_sum_assignment : list (list Q) -> list nat * list nat)
    (frame_threshold : Z) (f : Frame) (rois : list roi) (w : world) :
  estimators_owned rois w ->
  estimators_owned
    (result_rois (_process_multiperson_frame np_sqrt linear_sum_assignment
                    frame_threshold f rois w))
    (result_world (_process_multiperson_frame np_sqrt linear_sum_assignment
                     frame_threshold f rois w)).
Proof.
  intros Hown. unfold _process_multiperson_frame, track_and_reseed.
  destruct rois as [|r0 rest]; [done|].
  pose proof (track_rois_fields frame_threshold f (r0 :: rest) 0 w) as Htr.
  destruct (track_rois frame_threshold f 0 (r0 :: rest) w)
    as [rois1 outs need w1|rois1 w1]; destruct Htr as (Hp & _ & Hn);
    pose proof (estimators_owned_poses _ _ _ _ Hp Hn Hown) as Hown1;
    [|done].
  pose proof (reseed_step_owned np_sqrt linear_sum_assignment f rois1 need w1
                Hown1) as Hre.
  destruct (reseed_step _ _ _ _ _ _) as [rois2 w2|rois2 w2]; [|done].
  assert (Hown2 : estimators_owned rois2 (tick w2)).
  { by apply (estimators_owned_poses rois2 rois2 w2). }
  pose proof (dedup_owned rois2 (tick w2) Hown2) as Hd.
  by destruct (dedup rois2 (tick w2)).
Qed.

(** X4: no two regions ever share an estimator.  If the estimators of the
    regions are pairwise distinct instances, all made before now, they
    still are after seeding, after [_process_multiperson_frame] and after
    a whole frame of the frame loop, whether the frame returns or raises:
    the tracking, the reseed (which gives the slot a new instance) and the
    deduplication keep it so.  It holds of the empty list the drivers
    start with. *)
Theorem estimators_stay_owned (np_sqrt : Q -> Q)
    (linear_sum_assignment : list (list Q) -> list nat * list nat)
    (yolo_init_ok : bool) (frame_threshold : Z) (f : Frame)
    (locked_rois : list roi) (w : world) :
  estimators_owned [] w
  /\ (estimators_owned locked_rois w ->
      (forall margin_ratio,
         match _seed_rois_if_needed yolo_init_ok f locked_rois margin_ratio w
         with
         | Seeded rois' w' | SeedRaised rois' w' => estimators_owned rois' w'
         end)
      /\ estimators_owned
           (result_rois (_process_multiperson_frame np_sqrt
                           linear_sum_assignment frame_threshold f
                           locked_rois w))
           (result_world (_process_multiperson_frame np_sqrt
                            linear_sum_assignment frame_threshold f
                            locked_rois w))
      /\ estimators_owned
           (result_rois (frame_step np_sqrt linear_sum_assignment
                           yolo_init_ok frame_threshold f locked_rois w))
           (result_world (frame_step np_sqrt linear_sum_assignment
                            yolo_init_ok frame_threshold f locked_rois w))).
Proof.
  split; [split; [apply NoDup_nil_2 | constructor]|].
  intros Hown. split; [intros mr; by apply seed_rois_owned|].
  split; [by apply process_owned|].
  unfold frame_step.
  pose proof (seed_rois_owned yolo_init_ok f locked_rois (1 # 4) w Hown)
    as Hseed.
  destruct (_seed_rois_if_needed yolo_init_ok f locked_rois (1 # 4) w)
    as [rois1 w1|rois1 w1]; [|done].
  destruct rois1 as [|r1 rest1]; [done|]. by apply process_owned.
Qed.

Lemma expand_box_ok (f : Frame) (b : bbox) :
  1 <= image_width f -> 1 <= image_height f -> det_ok b ->
  box_ok f (expand_box f b).
Proof.
  intros HW HH. destruct b as [[[bx1 by1] bx2] by2].
  intros [[Hx Hx2] [Hy Hy2]]. unfold expand_box, box_ok.
  by apply expand_and_clip_bbox_ordered.
Qed.

Lemma rois_ok_boxes (f : Frame) (rois rois' : list roi) :
  map roi_box rois' = map roi_box rois -> rois_ok f rois -> rois_ok f rois'.
Proof.
  unfold rois_ok. rewrite <- !(List.Forall_map roi_box (box_ok f)).
  by intros ->.
Qed.

Lemma apply_reseed_ok (f : Frame) (roi_index : nat) (nb : bbox)
    (rois : list roi) (w : world) :
  box_ok f nb -> rois_ok f rois ->
  rois_ok f (apply_reseed roi_index nb (rois, w)).1.
Proof.
  intros Hnb Hok.
  destruct (apply_reseed roi_index nb (rois, w)) as [rois' w'] eqn:Happ.
  destruct (apply_reseed_inv _ _ _ _ _ _ Happ) as (_ & _ & _ & Hother & Hidx).
  cbn [fst]. apply Forall_lookup. intros i r Hr.
  pose proof (proj1 (Forall_lookup _ _) Hok) as Hall.
  destruct (decide (i = roi_index)) as [->|Hne].
  - destruct Hidx as [Hsame|(old & r' & Hold & Hr' & Hbox & _)].
    + rewrite Hsame in Hr. by apply (Hall roi_index).
    + assert (r' = r) as -> by congruence. rewrite Hbox.
      apply smooth_box_ok; [done | done | by apply (Hall roi_index) | done].
  - rewrite Hother in Hr by done. by apply (Hall i).
Qed.

Lemma reseed_step_ok (np_sqrt : Q -> Q)
    (linear_sum_assignment : list (list Q) -> list nat * list nat)
    (f : Frame) (rois : list roi) (need : list nat) (w : world) :
  1 <= image_width f -> 1 <= image_height f -> detections_ok f ->
  rois_ok f rois ->
  match reseed_step np_sqrt linear_sum_assignment f rois need w with
  | Reseeded rois' _ | ReseedRaised rois' _ => rois_ok f rois'
  end.
Proof.
  intros HW HH Hdet Hok. unfold reseed_step.
  destruct need as [|n0 need]; [done|].
  destruct (yolo w); [|done].
  destruct (yolo_predict f) as [boxes|] eqn:Hpred; [|done].
  set (pbs := filtered_boxes_of (healthy_boxes_of rois)
                (person_boxes_of boxes)).
  assert (Hpbs : forall det, In det pbs -> det_ok det).
  { intros det [Hin _]%filtered_boxes_of_In. by apply (Hdet boxes). }
  destruct pbs as [|b0 pbs'] eqn:Heq; [done|]. rewrite <- Heq in *.
  destruct (linear_sum_assignment _) as [row_ind col_ind].
  generalize (zip row_ind col_ind). intros pairs.
  assert (Hfold : forall st : list roi * world,
    rois_ok f st.1 ->
    rois_ok f
      (fold_left (reseed_pair f
                    (cost_matrix np_sqrt (diag_of np_sqrt f) rois
                       (n0 :: need) pbs)
                    ((8 # 100) * diag_of np_sqrt f) (healthy_boxes_of rois)
                    (n0 :: need) pbs) pairs st).1).
  { induction pairs as [|rc pairs IH]; intros st Hst; [done|].
    cbn [fold_left]. apply IH. unfold reseed_pair.
    destruct (accepted_match _ _ _ _ _ _ _) as [[[idx det] nb]|] eqn:Hacc;
      [|done].
    destruct rc as [r_i c_j].
    destruct (accepted_match_spec _ _ _ _ _ _ _ _ _ _ _ Hacc)
      as (_ & Hin & -> & _).
    apply list_elem_of_lookup_2, list_elem_of_In in Hin.
    destruct st as [rois1 w1]. apply apply_reseed_ok; [|done].
    apply expand_box_ok; [done | done | by apply Hpbs]. }
  specialize (Hfold (rois, log EvPredict w) Hok).
  by destruct (fold_left _ _ _).
Qed.

Lemma dedup_ok (f : Frame) (rois : list roi) (w : world) :
  rois_ok f rois -> rois_ok f (dedup rois w).1.
Proof.
  unfold rois_ok. rewrite <- !(List.Forall_map roi_box (box_ok f)).
  intros Hok. destruct (dedup_core_sublist rois w) as (Hsub & _).
  eapply sublist_Forall; [|exact Hok].
  rewrite !map_roi_box_core. by apply fmap_sublist.
Qed.

Lemma seed_boxes_ok (f : Frame) (person_boxes : list bbox) (margin_ratio : Q)
    (rois : list roi) (w : world) :
  1 <= image_width f -> 1 <= image_height f -> (0 <= margin_ratio)%Q ->
  (forall b, In b person_boxes -> det_ok b) ->
  rois_ok f rois ->
  rois_ok f (seed_boxes person_boxes (image_width f) (image_height f)
               margin_ratio rois w).1.
Proof.
  intros HW HH Hm. revert rois w.
  induction person_boxes as [|[[[bx1 by1] bx2] by2] rest IH];
    intros rois w Hdet Hok; [done|].
  cbn [seed_boxes].
  pose proof (Hdet _ (or_introl eq_refl)) as [[Hx Hx2] [Hy Hy2]].
  pose proof (expand_and_clip_bbox_ordered bx1 by1 bx2 by2 (image_width f)
                (image_height f) margin_ratio Hx Hy Hx2 Hy2 HW HH Hm) as Hexp.
  destruct (_expand_and_clip_bbox bx1 by1 bx2 by2 (image_width f)
              (image_height f) margin_ratio) as [[[x1e y1e] x2e] y2e].
  cbn [new_pose]. apply IH; [intros b Hb; apply Hdet; by right|].
  apply Forall_app. split; [done|]. by apply Forall_singleton.
Qed.

Lemma process_ok (np_sqrt : Q -> Q)
    (linear_sum_assignment : list (list Q) -> list nat * list nat)
    (frame_threshold : Z) (f : Frame) (rois : list roi) (w : world) :
  1 <= image_width f -> 1 <= image_height f -> detections_ok f ->
  rois_ok f rois ->
  rois_ok f
    (result_rois (_process_multiperson_frame np_sqrt linear_sum_assignment
                    frame_threshold f rois w)).
Proof.
  intros HW HH Hdet Hok. unfold _process_multiperson_frame, track_and_reseed.
  destruct rois as [|r0 rest]; [done|].
  pose proof (track_rois_fields frame_threshold f (r0 :: rest) 0 w) as Htr.
  destruct (track_rois frame_threshold f 0 (r0 :: rest) w)
    as [rois1 outs need w1|rois1 w1]; destruct Htr as (_ & Hb & _);
    pose proof (rois_ok_boxes f _ _ Hb Hok) as Hok1; [|done].
  pose proof (reseed_step_ok np_sqrt linear_sum_assignment f rois1 need w1
                HW HH Hdet Hok1) as Hre.
  destruct (reseed_step _ _ _ _ _ _) as [rois2 w2|rois2 w2]; [|done].
  pose proof (dedup_ok f rois2 (tick w2) Hre) as Hd.
  by destruct (dedup rois2 (tick w2)).
Qed.

(** X5: on a frame with pixels whose person detections are ordered boxes
    with the far corner at least [(1, 1)], the regions stay ordered and
    within the frame: if every region has [0 <= x1 < x2 <= width] and
    [0 <= y1 < y2 <= height], so has every region after
    [_process_multiperson_frame] and after a whole frame of the frame loop
    (seeding included), whether the frame returns or raises.  So the crop
    [image_rgb[y1:y2, x1:x2]] handed to an estimator is never empty. *)
Theorem regions_stay_in_frame (np_sqrt : Q -> Q)
    (linear_sum_assignment : list (list Q) -> list nat * list nat)
    (yolo_init_ok : bool) (frame_threshold : Z) (f : Frame)
    (locked_rois : list roi) (w : world) :
  1 <= image_width f -> 1 <= image_height f -> detections_ok f ->
  rois_ok f locked_rois ->
  rois_ok f
    (result_rois (_process_multiperson_frame np_sqrt linear_sum_assignment
                    frame_threshold f locked_rois w))
  /\ rois_ok f
       (result_rois (frame_step np_sqrt linear_sum_assignment yolo_init_ok
                       frame_threshold f locked_rois w)).
Proof.
  intros HW HH Hdet Hok. split; [by apply process_ok|].
  unfold frame_step, _seed_rois_if_needed.
  destruct (_ensure_yolo yolo_init_ok w) as [w0|]; [|done].
  destruct locked_rois as [|r0 rest].
  - destruct (yolo_predict f) as [boxes|] eqn:Hpred; [|done].
    pose proof (seed_boxes_ok f (person_boxes_of boxes) (1 # 4) []
                  (log EvPredict w0) HW HH ltac:(done)
                  (fun b Hb => Hdet boxes b Hpred Hb) Hok) as Hseed.
    destruct (seed_boxes _ _ _ _ _ _) as [rois1 w1]. cbn [fst] in Hseed.
    destruct rois1 as [|r1 rest1]; [done|]. by apply process_ok.
  - by apply process_ok.
Qed.

(** X6: deduplication never drops every region of smallest [lost].  Of
    the regions whose [lost] is the smallest, the last in list order is
    never dropped (an earlier one can be: a tie drops the first index);
    it stays with its box, [lost] and estimator.  So neither the
    deduplication, nor [_process_multiperson_frame], nor a whole frame of
    the frame loop ever turns a non-empty ROI list into an empty one. *)
Theorem tracker_never_loses_everyone (np_sqrt : Q -> Q)
    (linear_sum_assignment : list (list Q) -> list nat * list nat)
    (yolo_init_ok : bool) (frame_threshold : Z) (f : Frame)
    (locked_rois : list roi) (w : world) :
  locked_rois <> [] ->
  (exists m r r',
     locked_rois !! m = Some r
     /\ (forall k r0, locked_rois !! k = Some r0 ->
           lost r <= lost r0 /\ (lost r0 = lost r -> (k <= m)%nat))
     /\ In r' (dedup locked_rois w).1
     /\ region_core r' = region_core r)
  /\ result_rois (_process_multiperson_frame np_sqrt linear_sum_assignment
                    frame_threshold f locked_rois w) <> []
  /\ result_rois (frame_step np_sqrt linear_sum_assignment yolo_init_ok
                    frame_threshold f locked_rois w) <> [].
Proof.
  intros Hne. split.
  { destruct (keeper_exists (map lost locked_rois)) as (m & Hkeep).
    { by destruct locked_rois. }
    pose proof Hkeep as (lm & Hm & Hmin).
    change (map lost locked_rois) with (lost <$> locked_rois) in Hm, Hmin.
    rewrite list_lookup_fmap in Hm.
    destruct (locked_rois !! m) as [r|] eqn:Hr; [|done].
    injection Hm as <-.
    destruct (dedup_keeps_keeper locked_rois w m r Hkeep Hr)
      as (r' & Hin & Hcore).
    exists m, r, r'. split; [done|]. split; [|done].
    intros k r0 Hk. apply Hmin. by rewrite list_lookup_fmap, Hk. }
  assert (Hstep : forall w0,
    result_rois (_process_multiperson_frame np_sqrt linear_sum_assignment
                   frame_threshold f locked_rois w0) <> []).
  { intros w0. unfold _process_multiperson_frame.
    destruct locked_rois as [|r0 rest]; [done|].
    pose proof (track_and_reseed_inv np_sqrt linear_sum_assignment
                  frame_threshold f (r0 :: rest) w0) as Hinv.
    destruct (track_and_reseed _ _ _ _ _ _) as [outs rois w2|rois w2].
    - destruct Hinv as [Hl _].
      assert (Hrois : rois <> []) by by destruct rois.
      destruct (dedup_keeps_lowest rois (tick w2) Hrois) as (r & Hr & _).
      destruct (dedup rois (tick w2)) as [rois3 w4]. cbn [fst] in Hr.
      cbn [result_rois]. by destruct rois3.
    - cbn [result_rois]. by destruct rois. }
  split; [apply Hstep|].
  unfold frame_step.
  pose proof (seed_rois_nonempty yolo_init_ok f locked_rois (1 # 4) w Hne)
    as Hseed.
  destruct (_seed_rois_if_needed yolo_init_ok f locked_rois (1 # 4) w)
    as [rois1 w1|rois1 w1].
  - destruct Hseed as (-> & _). destruct locked_rois as [|r0 rest]; [done|].
    apply Hstep.
  - by subst rois1.
Qed.

(** ** Teardown *)

(** X7: [_cleanup_locked_rois] closes the estimators of the regions in
    order and stops at the first [close] that raises: the regions after
    it are not closed.  When no [close] raises, the estimator of every
    region is closed, once each.  It makes no estimator and never touches
    the detector. *)
Theorem cleanup_closes_until_first_failure (close_raises : nat -> bool)
    (locked_rois : list roi) (w : world) :
  (forall i r,
     locked_rois !! i = Some r -> close_raises (pose r) = true ->
     (forall j r', (j < i)%nat -> locked_rois !! j = Some r' ->
                   close_raises (pose r') = false) ->
     trace (_cleanup_locked_rois close_raises locked_rois w)
     = rev (map (fun r => EvPoseClose (pose r)) (take (S i) locked_rois))
       ++ trace w)
  /\ ((forall r, In r locked_rois -> close_raises (pose r) = false) ->
      trace (_cleanup_locked_rois close_raises locked_rois w)
      = rev (map (fun r => EvPoseClose (pose r)) locked_rois) ++ trace w)
  /\ next_pose (_cleanup_locked_rois close_raises locked_rois w)
     = next_pose w
  /\ yolo (_cleanup_locked_rois close_raises locked_rois w) = yolo w.
Proof.
  revert w. induction locked_rois as [|r0 rest IH]; intros w.
  { repeat split; try done. }
  cbn [_cleanup_locked_rois].
  destruct (IH (log (EvPoseClose (pose r0)) w)) as (IHfail & IHall & IHn & IHy).
  split; [|split; [|split]].
  - intros [|i] r Hi Hraise Hbefore.
    + injection Hi as ->. by rewrite Hraise.
    + simpl in Hi.
      rewrite (Hbefore 0%nat r0 ltac:(lia) eq_refl).
      rewrite (IHfail i r Hi Hraise).
      * cbn [take map rev trace log]. by rewrite <- app_assoc.
      * intros j r' Hj Hr'. apply (Hbefore (S j) r'); [lia | done].
  - intros Hall. rewrite (Hall r0 (or_introl eq_refl)).
    rewrite IHall by (intros r Hr; apply Hall; by right).
    cbn [map rev trace log]. by rewrite <- app_assoc.
  - by destruct (close_raises (pose r0)).
  - by destruct (close_raises (pose r0)).
Qed.

(** ** The outputs of a frame *)

(** Every output of the tracking loop is a hit of the region at its index,
    with the landmarks of the hit remapped; the indices come in
    increasing order. *)
Lemma track_rois_outputs (frame_threshold : Z) (f : Frame)
    (locked_rois : list roi) :
  forall (k : nat) (w : world) rois outputs need w',
  track_rois frame_threshold f k locked_rois w = Tracked rois outputs need w' ->
  StronglySorted lt (map fst outputs)
  /\ forall p lms, In (p, lms) outputs ->
       exists i r raw,
         p = (k + i)%nat /\ locked_rois !! i = Some r
         /\ pose_process f (pose r) (roi_box r) = Returns (Some raw)
         /\ map_landmarks (x1 r) (y1 r) (x2 r) (y2 r) (image_width f)
              (image_height f) raw = Some lms.
Proof.
  induction locked_rois as [|r0 rest IH]; intros k w rois outs need w' Hrun.
  - simpl in Hrun. injection Hrun as <- <- <- <-. split; [constructor|done].
  - cbn [track_rois] in Hrun.
    change (roi_box r0) with (x1 r0, y1 r0, x2 r0, y2 r0) in Hrun.
    cbv beta iota in Hrun.
    destruct (pose_process f (pose r0) (x1 r0, y1 r0, x2 r0, y2 r0))
      as [[raw0|]|] eqn:Hp; [| |done];
      destruct (track_rois frame_threshold f (S k) rest _)
        as [rois1 outs1 need1 w1|] eqn:Hrest; try done;
      injection Hrun as <- <- <- <-;
      destruct (IH _ _ _ _ _ _ Hrest) as [IHs IHo];
      destruct (track_rois_indices _ _ _ _ _ _ _ _ _ Hrest) as [Hge _].
    + split.
      * destruct (map_landmarks _ _ _ _ _ _ raw0) as [lms0|]; [|done].
        cbn [app map fst]. constructor; [done|].
        apply List.Forall_forall. intros q [[q' lms] [<- Hin]]%in_map_iff.
        apply Hge in Hin. simpl. lia.
      * intros p lms [Hin|Hin]%in_app_or.
        -- destruct (map_landmarks _ _ _ _ _ _ raw0) as [lms0|] eqn:Hmap;
             [|done].
           destruct Hin as [[= <- <-]|[]].
           exists 0%nat, r0, raw0. rewrite Nat.add_0_r. by repeat split.
        -- destruct (IHo p lms Hin) as (i & r & raw & -> & Hi & Hr & Hm).
           exists (S i), r, raw. repeat split; try done. lia.
    + split; [done|].
      intros p lms Hin.
      destruct (IHo p lms Hin) as (i & r & raw & -> & Hi & Hr & Hm).
      exists (S i), r, raw. repeat split; try done. lia.
Qed.

Lemma process_outputs (np_sqrt : Q -> Q)
    (linear_sum_assignment : list (list Q) -> list nat * list nat)
    (frame_threshold : Z) (f : Frame) (locked_rois : list roi) (w : world)
    (outputs : list (nat * list landmark)) (rois' : list roi) (w' : world) :
  _process_multiperson_frame np_sqrt linear_sum_assignment frame_threshold f
    locked_rois w = Returned outputs rois' w' ->
  StronglySorted lt (map fst outputs)
  /\ forall p lms, In (p, lms) outputs ->
       exists r raw,
         locked_rois !! p = Some r
         /\ pose_process f (pose r) (roi_box r) = Returns (Some raw)
         /\ map_landmarks (x1 r) (y1 r) (x2 r) (y2 r) (image_width f)
              (image_height f) raw = Some lms.
Proof.
  unfold _process_multiperson_frame, track_and_reseed.
  destruct locked_rois as [|r0 rest].
  { intros [= <- <- <-]. split; [constructor | done]. }
  destruct (track_rois frame_threshold f 0 (r0 :: rest) w)
    as [rois1 outs need w1|rois1 w1] eqn:Htrack; [|done].
  destruct (reseed_step _ _ _ _ _ _) as [rois2 w2|rois2 w2]; [|done].
  destruct (dedup rois2 (tick w2)) as [rois3 w4]. intros [= <- <- <-].
  destruct (track_rois_outputs _ _ _ _ _ _ _ _ _ Htrack) as [Hs Ho].
  split; [done|]. intros p lms Hin.
  destruct (Ho p lms Hin) as (i & r & raw & -> & Hi & Hr & Hm).
  by exists r, raw.
Qed.

(** X8: what [_process_multiperson_frame] emits.  The outputs come in
    strictly increasing order of person id, so no id is emitted twice;
    every id is an index of the list the step was given (not of the list
    it returns, which deduplication may have compacted), and the output
    is a hit of the region at that index, its landmarks being the
    estimator's remapped to the full frame and as many. *)
Theorem process_outputs_are_hits (np_sqrt : Q -> Q)
    (linear_sum_assignment : list (list Q) -> list nat * list nat)
    (frame_threshold : Z) (f : Frame) (locked_rois : list roi) (w : world)
    (outputs : list (nat * list landmark)) (rois' : list roi) (w' : world) :
  _process_multiperson_frame np_sqrt linear_sum_assignment frame_threshold f
    locked_rois w = Returned outputs rois' w' ->
  StronglySorted lt (map fst outputs)
  /\ NoDup (map fst outputs)
  /\ forall p lms, In (p, lms) outputs ->
       (p < length locked_rois)%nat
       /\ exists r raw,
            locked_rois !! p = Some r
            /\ pose_process f (pose r) (roi_box r) = Returns (Some raw)
            /\ map_landmarks (x1 r) (y1 r) (x2 r) (y2 r) (image_width f)
                 (image_height f) raw = Some lms
            /\ length lms = length raw.
Proof.
  intros Hstep.
  destruct (process_outputs _ _ _ _ _ _ _ _ _ Hstep) as [Hs Ho].
  split; [done|]. split.
  { clear -Hs. induction Hs as [|q l _ IH Hall]; [constructor|].
    apply NoDup_cons. split; [|done].
    intros Hin%list_elem_of_In.
    pose proof (proj1 (List.Forall_forall _ _) Hall q Hin). lia. }
  intros p lms Hin. destruct (Ho p lms Hin) as (r & raw & Hp & Hr & Hm).
  split; [by eapply lookup_lt_Some|].
  exists r, raw. split; [done|]. split; [done|]. split; [done|].
  unfold map_landmarks in Hm. destruct raw as [|l0 raw].
  - by injection Hm as <-.
  - destruct (_ || _); [done|]. injection Hm as <-.
    cbn [length]. f_equal. apply List.length_map.
Qed.

(** ** The tables of [extract_pose_features] *)

Lemma sorted_lt_NoDup (l : list nat) : StronglySorted lt l -> NoDup l.
Proof.
  induction 1 as [|q l _ IH Hall]; [constructor|].
  apply NoDup_cons. split; [|done]. intros Hin%list_elem_of_In.
  pose proof (proj1 (List.Forall_forall _ _) Hall q Hin). lia.
Qed.

Lemma table_ok_mono (Q : list landmark -> Prop) (n n' p : nat)
    (rows : list (list cell)) :
  (n <= n')%nat -> table_ok Q n p rows -> table_ok Q n' p rows.
Proof.
  intros Hn (entries & Hne & Hrows & Hs & Hall).
  exists entries. repeat split; try done.
  eapply Forall_impl; [exact Hall|]. simpl. intros e [? ?]. split; [lia|done].
Qed.

Lemma append_row_lookup (p q : nat) (row : list cell)
    (kbp : gmap nat (list (list cell))) :
  append_row p row kbp !! q
  = if decide (p = q) then Some (default [] (kbp !! p) ++ [row])
    else kbp !! q.
Proof. unfold append_row. apply lookup_insert. Qed.

Lemma append_row_table (Q : list landmark -> Prop) (n p : nat)
    (lms : list landmark) (kbp : gmap nat (list (list cell))) :
  Q lms ->
  (forall rows, kbp !! p = Some rows -> table_ok Q n p rows) ->
  table_ok Q (S n) p (default [] (kbp !! p) ++ [make_row n p lms]).
Proof.
  intros HQ Hold. destruct (kbp !! p) as [rows|]; cbn [default].
  - destruct (Hold rows eq_refl) as (entries & Hne & -> & Hs & Hall).
    exists (entries ++ [(n, lms)]). split; [by destruct entries|].
    split; [by rewrite map_app|]. split.
    + rewrite map_app. apply StronglySorted_app_2; [|done|].
      * intros a b (e & -> & He)%list_elem_of_fmap ->%list_elem_of_singleton.
        apply list_elem_of_In in He.
        by destruct (proj1 (List.Forall_forall _ _) Hall e He).
      * repeat constructor.
    + apply Forall_app. split.
      * eapply Forall_impl; [exact Hall|]. simpl. intros e [? ?].
        split; [lia|done].
      * apply Forall_singleton. simpl. split; [lia|done].
  - exists [(n, lms)]. split; [done|]. split; [done|].
    split; [repeat constructor|]. apply Forall_singleton. simpl.
    split; [lia|done].
Qed.

Lemma append_rows_tables (Q : list landmark -> Prop) (n : nat)
    (outs : list (nat * list landmark)) :
  forall kbp : gmap nat (list (list cell)),
  NoDup (map fst outs) -> Forall (fun o => Q o.2) outs ->
  (forall p rows, kbp !! p = Some rows ->
     table_ok Q (S n) p rows
     /\ (In p (map fst outs) -> table_ok Q n p rows)) ->
  forall p rows, append_rows n outs kbp !! p = Some rows ->
    table_ok Q (S n) p rows.
Proof.
  induction outs as [|[q lms] outs IH]; intros kbp Hnd HQ Hkbp p rows Hp.
  { simpl in Hp. by apply Hkbp. }
  cbn [map fst] in Hnd. apply NoDup_cons in Hnd as [Hq Hnd].
  inversion_clear HQ as [|?? HQq HQrest]. cbn [append_rows fold_left] in Hp.
  apply (IH (append_row q (make_row n q lms) kbp) Hnd HQrest); [|exact Hp].
  intros p' rows' Hp'. rewrite append_row_lookup in Hp'.
  destruct (decide (q = p')) as [<-|Hne].
  - injection Hp' as <-. split.
    + apply append_row_table; [done|].
      intros rows0 Hrows0. apply (Hkbp q rows0 Hrows0). by left.
    + intros Hin%list_elem_of_In. done.
  - destruct (Hkbp p' rows' Hp') as [HS Hn]. split; [done|].
    intros Hin. apply Hn. by right.
Qed.

Section DriverProperties.

Variable np_sqrt : Q -> Q.
Variable linear_sum_assignment : list (list Q) -> list nat * list nat.
Variable yolo_init_ok : bool.
Variable self_pose : Frame -> outcome (option (list landmark)).
Variable close_raises : nat -> bool.
Variable dataframe_raises : list (list cell) -> bool.
Variable to_csv_raises : nat -> bool.
Variable draw_raises : list landmark -> bool.
Variable frame_threshold : Z.

(** A frame of the frame loop emits nothing, or what the step emits on
    the seeded list. *)
Lemma frame_step_returned (f : Frame) (rois : list roi) (w : world)
    (outs : list (nat * list landmark)) (rois' : list roi) (w' : world) :
  frame_step np_sqrt linear_sum_assignment yolo_init_ok frame_threshold f
    rois w = Returned outs rois' w' ->
  outs = []
  \/ exists rois1 w1,
       _process_multiperson_frame np_sqrt linear_sum_assignment
         frame_threshold f rois1 w1 = Returned outs rois' w'.
Proof.
  unfold frame_step.
  destruct (_seed_rois_if_needed _ _ _ _ _) as [rois1 w1|]; [|done].
  destruct rois1 as [|r1 rest1].
  - intros [= <- <- <-]. by left.
  - intros Hstep. right. by exists (r1 :: rest1), w1.
Qed.

Lemma frame_step_outputs (Q : list landmark -> Prop) (f : Frame)
    (rois : list roi) (w : world) (outs : list (nat * list landmark))
    (rois' : list roi) (w' : world) :
  (forall h b raw, pose_process f h b = Returns (Some raw) ->
     forall lms, length lms = length raw -> Q lms) ->
  frame_step np_sqrt linear_sum_assignment yolo_init_ok frame_threshold f
    rois w = Returned outs rois' w' ->
  NoDup (map fst outs) /\ Forall (fun o => Q o.2) outs.
Proof.
  intros HQ [->|(rois1 & w1 & Hstep)]%frame_step_returned.
  { split; constructor. }
  destruct (process_outputs _ _ _ _ _ _ _ _ _ Hstep) as [Hs Ho].
  split; [by apply sorted_lt_NoDup|].
  apply List.Forall_forall. intros [p lms] Hin.
  destruct (Ho p lms Hin) as (r & raw & _ & Hr & Hm). cbn [snd].
  apply (HQ _ _ _ Hr). unfold map_landmarks in Hm.
  destruct raw as [|l0 raw]; [by injection Hm as <-|].
  destruct (_ || _); [done|]. injection Hm as <-.
  cbn [length]. f_equal. apply List.length_map.
Qed.

(** The loop counts every frame it reads, and keeps the tables in order. *)
Lemma extract_frames_tables (Q : list landmark -> Prop) (multi : bool)
    (frames : list Frame) :
  (forall f h b raw, In f frames -> pose_process f h b = Returns (Some raw) ->
     forall lms, length lms = length raw -> Q lms) ->
  (forall f lms, In f frames -> self_pose f = Returns (Some lms) -> Q lms) ->
  forall (i : nat) (kbp : gmap nat (list (list cell))) (rois : list roi)
         (w : world) n kbp' rois' w',
  extract_frames np_sqrt linear_sum_assignment yolo_init_ok self_pose
    frame_threshold multi frames i kbp rois w = LoopDone n kbp' rois' w' ->
  (forall p rows, kbp !! p = Some rows -> table_ok Q i p rows) ->
  n = (i + length frames)%nat
  /\ forall p rows, kbp' !! p = Some rows -> table_ok Q n p rows.
Proof.
  induction frames as [|f rest IH]; intros Hmulti Hsingle i kbp rois w n kbp'
    rois' w' Hloop Hkbp.
  { simpl in Hloop. injection Hloop as <- <- <- <-.
    split; [simpl; lia | done]. }
  assert (Hrest : forall i1 kbp1 rois1 w1,
    extract_frames np_sqrt linear_sum_assignment yolo_init_ok self_pose
      frame_threshold multi rest i1 kbp1 rois1 w1 = LoopDone n kbp' rois' w' ->
    (forall p rows, kbp1 !! p = Some rows -> table_ok Q i1 p rows) ->
    n = (i1 + length rest)%nat
    /\ forall p rows, kbp' !! p = Some rows -> table_ok Q n p rows).
  { intros i1 kbp1 rois1 w1. apply IH.
    - intros f0 h b raw Hf0. apply Hmulti. by right.
    - intros f0 lms Hf0. apply Hsingle. by right. }
  cbn [extract_frames] in Hloop. destruct multi.
  - destruct (frame_step _ _ _ _ _ _ _) as [outs rois1 w1|] eqn:Hstep;
      [|done].
    destruct (frame_step_outputs Q f rois w outs rois1 w1
                (fun h b raw => Hmulti f h b raw (or_introl eq_refl)) Hstep)
      as [Hnd HQ].
    destruct (Hrest _ _ _ _ Hloop) as [-> Htab].
    + apply (append_rows_tables Q i outs kbp Hnd HQ).
      intros p rows Hp. split; [|intros _; by apply Hkbp].
      apply (table_ok_mono Q i); [lia | by apply Hkbp].
    + split; [simpl; lia | done].
  - destruct (self_pose f) as [[lms|]|] eqn:Hpose; [| |done].
    + destruct (Hrest _ _ _ _ Hloop) as [-> Htab].
      * intros p rows Hp. rewrite append_row_lookup in Hp.
        destruct (decide (0%nat = p)) as [<-|Hne].
        -- injection Hp as <-. apply append_row_table.
           ++ by apply (Hsingle f lms (or_introl eq_refl)).
           ++ intros rows0. apply Hkbp.
        -- apply (table_ok_mono Q i); [lia | by apply Hkbp].
      * split; [simpl; lia | done].
    + destruct (Hrest _ _ _ _ Hloop) as [-> Htab].
      * intros p rows Hp. apply (table_ok_mono Q i); [lia | by apply Hkbp].
      * split; [simpl; lia | done].
Qed.


(** X10: when every estimator answers with 33 landmarks, every row of
    every table has as many cells as the CSV has columns, 134. *)
Theorem extract_rows_match_columns (multi : bool) (frames : list Frame)
    (w : world) (keypoints_by_person : gmap nat (list (list cell)))
    (w' : world) :
  (forall f h b raw, In f frames -> pose_process f h b = Returns (Some raw) ->
     length raw = 33%nat) ->
  (forall f lms, In f frames -> self_pose f = Returns (Some lms) ->
     length lms = 33%nat) ->
  extract_pose_features np_sqrt linear_sum_assignment yolo_init_ok self_pose
    close_raises dataframe_raises to_csv_raises frame_threshold multi frames w
    = Extracted keypoints_by_person w' ->
  length columns = 134%nat
  /\ forall person_id rows row,
       keypoints_by_person !! person_id = Some rows -> In row rows ->
       length row = length columns.
Proof.
  intros Hroi Hsingle. unfold extract_pose_features.
  destruct (extract_frames _ _ _ _ _ _ _ _ _ _ _) as [n kbp rois w1|]
    eqn:Hloop; [|done].
  destruct (save_raises _ _ kbp); [done|].
  intros [= <- <-]. split; [reflexivity|].
  assert (H33 : forall f h b raw, In f frames ->
            pose_process f h b = Returns (Some raw) ->
            forall lms : list landmark,
              length lms = length raw -> length lms = 33%nat).
  { intros f h b raw Hf Hr lms ->. by apply (Hroi f h b). }
  destruct (extract_frames_tables (fun lms => length lms = 33%nat) multi
              frames H33 Hsingle _ _ _ _ _ _ _ _ Hloop) as [_ Htab].
  { intros p rows Hp. by rewrite lookup_empty in Hp. }
  intros p rows row Hp Hrow.
  destruct (Htab p rows Hp) as (entries & _ & -> & _ & Hall).
  apply in_map_iff in Hrow as (e & <- & He).
  destruct (proj1 (List.Forall_forall _ _) Hall e He) as [_ Hlen].
  unfold make_row, landmark_cells. cbn [length].
  rewrite (flat_map_constant_length (c := 4%nat)) by done.
  rewrite Hlen. reflexivity.
Qed.

(** The loop over a video is the loop over its first frames, then the loop
    over the rest from the state reached; after an exception no frame is
    read. *)
Lemma extract_frames_app (multi : bool) (pre post : list Frame) :
  forall (i : nat) (kbp : gmap nat (list (list cell))) (rois : list roi)
         (w : world),
  extract_frames np_sqrt linear_sum_assignment yolo_init_ok self_pose
    frame_threshold multi (pre ++ post) i kbp rois w
  = match extract_frames np_sqrt linear_sum_assignment yolo_init_ok self_pose
            frame_threshold multi pre i kbp rois w with
    | LoopDone n kbp1 rois1 w1 =>
      extract_frames np_sqrt linear_sum_assignment yolo_init_ok self_pose
        frame_threshold multi post n kbp1 rois1 w1
    | LoopRaised rois1 w1 => LoopRaised rois1 w1
    end.
Proof.
  induction pre as [|f pre IH]; intros i kbp rois w; [done|].
  cbn [app extract_frames]. destruct multi.
  - by destruct (frame_step _ _ _ _ _ _ _).
  - by destruct (self_pose f) as [[lms|]|].
Qed.

Lemma insert_append_row (rows : list (list cell)) (row : list cell)
    (kbp : gmap nat (list (list cell))) :
  <[0%nat := default [] (append_row 0 row kbp !! 0%nat) ++ rows]>
    (append_row 0 row kbp)
  = <[0%nat := default [] (kbp !! 0%nat) ++ row :: rows]> kbp.
Proof.
  unfold append_row. rewrite lookup_insert_eq, insert_insert_eq.
  cbn [default]. f_equal. unfold id.
  by rewrite <- (app_assoc _ [row] rows).
Qed.

Lemma extract_frames_single (frames : list Frame) :
  (forall f, In f frames -> self_pose f <> Raises) ->
  forall (i : nat) (kbp : gmap nat (list (list cell))) (rois : list roi)
         (w : world),
  extract_frames np_sqrt linear_sum_assignment yolo_init_ok self_pose
    frame_threshold false frames i kbp rois w
  = LoopDone (i + length frames)
      (match single_person_rows self_pose i frames with
       | [] => kbp
       | rows => <[0%nat := default [] (kbp !! 0%nat) ++ rows]> kbp
       end) rois w.
Proof.
  induction frames as [|f rest IH]; intros Hok i kbp rois w.
  { simpl. by rewrite Nat.add_0_r. }
  cbn [extract_frames single_person_rows length].
  pose proof (Hok f (or_introl eq_refl)) as Hf.
  assert (Hrest : forall f0, In f0 rest -> self_pose f0 <> Raises).
  { intros f0 Hf0. apply Hok. by right. }
  replace (i + S (length rest))%nat with (S i + length rest)%nat by lia.
  destruct (self_pose f) as [[lms|]|]; [| |done].
  - rewrite (IH Hrest). f_equal.
    destruct (single_person_rows self_pose (S i) rest) as [|r rows'].
    + done.
    + apply insert_append_row.
  - by rewrite (IH Hrest).
Qed.

Lemma save_raises_empty :
  save_raises dataframe_raises to_csv_raises ∅ = false.
Proof. unfold save_raises. by rewrite map_to_list_empty. Qed.

Lemma save_raises_singleton (person_id : nat) (rows : list (list cell)) :
  save_raises dataframe_raises to_csv_raises {[ person_id := rows ]}
  = dataframe_raises rows || to_csv_raises person_id.
Proof.
  unfold save_raises. rewrite map_to_list_singleton. cbn [existsb fst snd].
  by rewrite orb_false_r.
Qed.

(** X12: the single-person mode.  When [self.pose] raises on no frame,
    [extract_pose_features] has nothing to save if no frame has
    landmarks, and otherwise the one table of person 0, with one row for
    every frame that has landmarks, in the order of the frames; it raises
    if that table cannot be made a [DataFrame] or its file cannot be
    written, and returns otherwise.  Either way it leaves the world as it
    was: the detector is not loaded, no region is made and no estimator
    of a region is made or closed. *)
Theorem extract_single_person (frames : list Frame) (w : world) :
  (forall f, In f frames -> self_pose f <> Raises) ->
  extract_pose_features np_sqrt linear_sum_assignment yolo_init_ok self_pose
    close_raises dataframe_raises to_csv_raises frame_threshold false
    frames w
  = match single_person_rows self_pose 0 frames with
    | [] => Extracted ∅ w
    | rows =>
      if dataframe_raises rows || to_csv_raises 0 then ExtractRaised w
      else Extracted {[ 0%nat := rows ]} w
    end.
Proof.
  intros Hok. unfold extract_pose_features.
  rewrite (extract_frames_single frames Hok). cbn [_cleanup_locked_rois].
  destruct (single_person_rows self_pose 0 frames) as [|row rows].
  - by rewrite save_raises_empty.
  - rewrite lookup_empty, insert_empty. cbn [default app].
    by rewrite save_raises_singleton.
Qed.

(** *** The overlay video *)

Lemma embed_frames_written (multi : bool) (frames : list Frame) :
  forall (written : list (list (list landmark))) (rois : list roi)
         (w : world),
  Forall (Forall (fun lms => draw_raises lms = false)) written ->
  match (embed_frames np_sqrt linear_sum_assignment yolo_init_ok self_pose
           draw_raises frame_threshold multi frames written rois w).1 with
  | Embedded wr _ =>
    length wr = (length written + length frames)%nat
    /\ Forall (Forall (fun lms => draw_raises lms = false)) wr
  | EmbedRaised wr _ =>
    (length written <= length wr < length written + length frames)%nat
  | EmbedNone => False
  end.
Proof.
  induction frames as [|f rest IH]; intros written rois w Hw.
  { simpl. split; [lia|done]. }
  assert (Hstep : forall drawn rois' w',
    Forall (fun lms => draw_raises lms = false) drawn ->
    match (embed_frames np_sqrt linear_sum_assignment yolo_init_ok self_pose
             draw_raises frame_threshold multi rest (written ++ [drawn])
             rois' w').1 with
    | Embedded wr _ =>
      length wr = (length written + S (length rest))%nat
      /\ Forall (Forall (fun lms => draw_raises lms = false)) wr
    | EmbedRaised wr _ =>
      (length written <= length wr < length written + S (length rest))%nat
    | EmbedNone => False
    end).
  { intros drawn rois' w' Hd.
    assert (Hw' : Forall (Forall (fun lms => draw_raises lms = false))
                    (written ++ [drawn])).
    { apply Forall_app. split; [done|]. by constructor. }
    specialize (IH (written ++ [drawn]) rois' w' Hw').
    destruct (embed_frames _ _ _ _ _ _ _ _ _ _ _).1;
      rewrite ?length_app in IH; cbn [length] in IH.
    - done.
    - destruct IH as [IH1 IH2]. split; [lia|done].
    - lia. }
  cbn [embed_frames length]. destruct multi.
  - destruct (frame_step _ _ _ _ _ _ _) as [outs rois1 w1|rois1 w1].
    + apply Hstep. unfold draw_outputs. apply List.Forall_forall.
      intros lms Hin. apply filter_In in Hin. destruct Hin as [_ Hin].
      by destruct (draw_raises lms).
    + simpl. lia.
  - destruct (self_pose f) as [[lms|]|].
    + destruct (draw_raises lms) eqn:Hd.
      * simpl. lia.
      * apply Hstep. by repeat constructor.
    + apply Hstep. constructor.
    + simpl. lia.
Qed.

(** X13: the overlay video has one frame for every frame read.  When
    [embed_pose_video] returns the output path, the writer received as
    many frames as the video has, in either mode, and on every one of them
    only landmark lists whose drawing did not fail are drawn (in the
    multi-person mode a failing drawing is skipped, in the single-person
    mode it would have ended the function with the exception). *)
Theorem embed_writes_every_frame (multi : bool) (frames : list Frame)
    (w w' : world) (written : list (list (list landmark))) :
  embed_pose_video np_sqrt linear_sum_assignment yolo_init_ok self_pose
    close_raises draw_raises frame_threshold multi true frames w
  = Embedded written w' ->
  length written = length frames
  /\ Forall (Forall (fun lms => draw_raises lms = false)) written.
Proof.
  unfold embed_pose_video. intros Hemb.
  pose proof (embed_frames_written multi frames [] [] w
                (List.Forall_nil _)) as Hlen.
  destruct (embed_frames _ _ _ _ _ _ _ _ _ _ _) as [[|wr w1|wr w1] rois1];
    cbn [fst] in Hlen; [done| |done].
  injection Hemb as <- _. by cbn [length Nat.add] in Hlen.
Qed.

Lemma loops_agree (frames : list Frame) :
  forall (i : nat) (kbp : gmap nat (list (list cell)))
         (written : list (list (list landmark))) (rois : list roi)
         (w : world),
  match extract_frames np_sqrt linear_sum_assignment yolo_init_ok self_pose
          frame_threshold true frames i kbp rois w,
        embed_frames np_sqrt linear_sum_assignment yolo_init_ok self_pose
          draw_raises frame_threshold true frames written rois w with
  | LoopDone _ _ rois1 w1, (Embedded _ w2, rois2) =>
    rois1 = rois2 /\ w1 = w2
  | LoopRaised rois1 w1, (EmbedRaised _ w2, rois2) =>
    rois1 = rois2 /\ w1 = w2
  | _, _ => False
  end.
Proof.
  induction frames as [|f rest IH]; intros i kbp written rois w.
  { done. }
  cbn [extract_frames embed_frames].
  destruct (frame_step _ _ _ _ _ _ _) as [outs rois1 w1|rois1 w1].
  - apply IH.
  - done.
Qed.

(** X14: in the multi-person mode the two drivers track alike.  On the
    same frames from the same world, the frame loops of
    [extract_pose_features] and [embed_pose_video] either both raise or
    both end, and both functions leave the same world: the same detector
    runs, the same estimators made, called and closed, in the same order.
    Whether a drawing fails has no part in it.  The two differ only after
    the teardown: [extract_pose_features] still raises when the saving of
    its tables does. *)
Theorem embed_and_extract_track_alike (frames : list Frame) (w : world) :
  match extract_pose_features np_sqrt linear_sum_assignment yolo_init_ok
          self_pose close_raises dataframe_raises to_csv_raises
          frame_threshold true frames w,
        embed_pose_video np_sqrt linear_sum_assignment yolo_init_ok
          self_pose close_raises draw_raises frame_threshold true true
          frames w with
  | Extracted _ w1, Embedded _ w2 => w1 = w2
  | ExtractRaised w1, EmbedRaised _ w2 => w1 = w2
  | ExtractRaised w1, Embedded _ w2 =>
    w1 = w2
    /\ exists n keypoints_by_person rois w0,
         extract_frames np_sqrt linear_sum_assignment yolo_init_ok
           self_pose frame_threshold true frames 0 ∅ [] w
         = LoopDone n keypoints_by_person rois w0
         /\ save_raises dataframe_raises to_csv_raises keypoints_by_person
            = true
  | _, _ => False
  end.
Proof.
  unfold extract_pose_features, embed_pose_video.
  pose proof (loops_agree frames 0 ∅ [] [] w) as H.
  destruct (extract_frames _ _ _ _ _ _ _ _ _ _ _)
    as [n kbp rois1 w1|rois1 w1] eqn:Hloop;
    destruct (embed_frames _ _ _ _ _ _ _ _ _ _ _)
      as [[|wr w2|wr w2] rois2]; try done.
  - destruct H as [-> ->].
    destruct (save_raises dataframe_raises to_csv_raises kbp) eqn:Hsave;
      [|done].
    split; [done|]. by exists n, kbp, rois2, w2.
  - by destruct H as [_ ->].
Qed.

End DriverProperties.

(** ** The life cycle of the estimators *)

Lemma lifecycle_same (hs : list nat) (rm : gset nat) (w w' : world) :
  trace w' = trace w -> next_pose w' = next_pose w ->
  lifecycle hs rm w -> lifecycle hs rm w'.
Proof. unfold lifecycle. intros -> ->. done. Qed.

Lemma lifecycle_quiet (hs : list nat) (rm : gset nat) (w w' : world)
    (e : event) :
  trace w' = e :: trace w -> next_pose w' = next_pose w ->
  e = EvYoloInit \/ e = EvPredict ->
  lifecycle hs rm w -> lifecycle hs rm w'.
Proof.
  unfold lifecycle. intros -> -> He (H1 & H3 & H2 & H4).
  split; [|split; [|split]].
  - intros h [Hh|Hh]; [destruct He; congruence|]. by apply H1.
  - by destruct He as [->| ->].
  - intros idx h Hidx Hrm [Hh|Hh]; [destruct He; congruence|].
    by apply (H2 idx h).
  - intros h [Hh|Hh]; [destruct He; congruence|].
    destruct (H4 h Hh) as [Hc|Hl]; [left; by right | by right].
Qed.

Lemma lifecycle_process (hs : list nat) (rm : gset nat) (w : world)
    (idx h : nat) (b : bbox) :
  hs !! idx = Some h -> idx ∉ rm ->
  lifecycle hs rm w -> lifecycle hs rm (log (EvProcess h b) w).
Proof.
  unfold lifecycle. intros Hidx Hrm (H1 & H3 & H2 & H4). cbn [log trace next_pose].
  split; [|split; [|split]].
  - intros h' [Hh|Hh]; [done|]. by apply H1.
  - split; [by apply (H2 idx h)|done].
  - intros idx' h' Hidx' Hrm' [Hh|Hh]; [done|]. by apply (H2 idx' h').
  - intros h' [Hh|Hh]; [done|].
    destruct (H4 h' Hh) as [Hc|Hl]; [left; by right | by right].
Qed.

Lemma lifecycle_close (hs : list nat) (rm : gset nat) (w : world)
    (drop h : nat) :
  NoDup hs -> Forall (fun h => (h < next_pose w)%nat) hs ->
  hs !! drop = Some h ->
  lifecycle hs rm w ->
  lifecycle hs ({[drop]} ∪ rm) (log (EvPoseClose h) w).
Proof.
  unfold lifecycle. intros Hnd Hall Hdrop (H1 & H3 & H2 & H4).
  cbn [log trace next_pose uses_open].
  split; [|split; [|split]].
  - intros h' [Hh|Hh]; [|by apply H1]. injection Hh as <-.
    by apply (Forall_lookup_1 _ _ _ _ Hall Hdrop).
  - done.
  - intros idx' h' Hidx' Hrm' [Hh|Hh].
    + injection Hh as <-.
      assert (idx' = drop) as -> by by eapply NoDup_lookup.
      set_solver.
    + apply (H2 idx' h'); [done| set_solver | done].
  - intros h' [Hh|Hh]; [done|].
    destruct (H4 h' Hh) as [Hc|(idx' & Hidx' & Hrm')]; [left; by right|].
    destruct (decide (idx' = drop)) as [->|Hne].
    + left. left. congruence.
    + right. exists idx'. split; [done|set_solver].
Qed.

Lemma lifecycle_push (hs : list nat) (w : world) :
  lifecycle hs ∅ w ->
  lifecycle (hs ++ [next_pose w]) ∅ (new_pose w).2.
Proof.
  unfold lifecycle. intros (H1 & H3 & H2 & H4).
  cbn [new_pose snd trace next_pose uses_open].
  split; [|split; [|split]].
  - intros h [Hh|Hh]; [done|]. specialize (H1 h Hh). lia.
  - done.
  - intros idx h Hidx _ [Hh|Hh]; [done|].
    apply lookup_app_Some in Hidx as [Hidx|[_ Hidx]].
    + by apply (H2 idx h).
    + apply list_lookup_singleton_Some in Hidx as [_ <-].
      specialize (H1 _ Hh). lia.
  - intros h [Hh|Hh].
    + injection Hh as <-. right. exists (length hs). split; [|set_solver].
      by rewrite lookup_app_r, Nat.sub_diag.
    + destruct (H4 h Hh) as [Hc|(idx & Hidx & _)]; [left; by right|].
      right. exists idx. split; [|set_solver].
      by apply lookup_app_l_Some.
Qed.

Lemma lifecycle_replace (hs : list nat) (w : world) (idx old : nat) :
  NoDup hs -> Forall (fun h => (h < next_pose w)%nat) hs ->
  hs !! idx = Some old ->
  lifecycle hs ∅ w ->
  lifecycle (<[idx := next_pose w]> hs) ∅
    (new_pose (log (EvPoseClose old) w)).2.
Proof.
  unfold lifecycle. intros Hnd Hall Hidx (H1 & H3 & H2 & H4).
  cbn [new_pose log snd trace next_pose uses_open].
  pose proof (Forall_lookup_1 _ _ _ _ Hall Hidx) as Hold. simpl in Hold.
  split; [|split; [|split]].
  - intros h [Hh|[Hh|Hh]]; [done| |].
    + injection Hh as <-. lia.
    + specialize (H1 h Hh). lia.
  - done.
  - intros i h Hi _ [Hh|[Hh|Hh]]; [done| |].
    + injection Hh as <-.
      destruct (decide (i = idx)) as [->|Hne].
      * rewrite list_lookup_insert_eq in Hi by by eapply lookup_lt_Some.
        injection Hi as Hi. lia.
      * rewrite list_lookup_insert_ne in Hi by done.
        apply Hne. by eapply NoDup_lookup.
    + destruct (decide (i = idx)) as [->|Hne].
      * rewrite list_lookup_insert_eq in Hi by by eapply lookup_lt_Some.
        injection Hi as <-. specialize (H1 _ Hh). lia.
      * rewrite list_lookup_insert_ne in Hi by done.
        by apply (H2 i h).
  - intros h [Hh|[Hh|Hh]]; [| done |].
    + injection Hh as <-. right. exists idx. split; [|set_solver].
      by rewrite list_lookup_insert_eq by by eapply lookup_lt_Some.
    + destruct (H4 h Hh) as [Hc|(i & Hi & _)]; [left; right; by right|].
      destruct (decide (i = idx)) as [->|Hne].
      * left. right. left. congruence.
      * right. exists i. split; [|set_solver].
        by rewrite list_lookup_insert_ne.
Qed.

Lemma track_rois_lifecycle (frame_threshold : Z) (f : Frame) (hs : list nat)
    (locked_rois : list roi) :
  (forall r, In r locked_rois -> exists idx, hs !! idx = Some (pose r)) ->
  forall (k : nat) (w : world),
  lifecycle hs ∅ w ->
  match track_rois frame_threshold f k locked_rois w with
  | Tracked _ _ _ w' | TrackRaised _ w' => lifecycle hs ∅ w'
  end.
Proof.
  induction locked_rois as [|r0 rest IH]; intros Hin k w Hw; [done|].
  cbn [track_rois].
  change (roi_box r0) with (x1 r0, y1 r0, x2 r0, y2 r0). cbv beta iota.
  destruct (Hin r0 (or_introl eq_refl)) as [idx Hidx].
  assert (Hw1 : lifecycle hs ∅
                  (log (EvProcess (pose r0) (x1 r0, y1 r0, x2 r0, y2 r0)) w)).
  { apply (lifecycle_process hs ∅ w idx); [done|set_solver|done]. }
  assert (Hrest : forall r, In r rest -> exists idx, hs !! idx = Some (pose r)).
  { intros r Hr. apply Hin. by right. }
  specialize (IH Hrest (S k) _ Hw1).
  destruct (pose_process f (pose r0) (x1 r0, y1 r0, x2 r0, y2 r0))
    as [[lms|]|]; [| |done];
    by destruct (track_rois frame_threshold f (S k) rest _).
Qed.

Lemma In_poses_lookup (rois : list roi) (r : roi) :
  In r rois -> exists idx, map pose rois !! idx = Some (pose r).
Proof.
  intros Hin. apply list_elem_of_In, list_elem_of_lookup_1 in Hin as [idx Hidx].
  exists idx. by rewrite list_lookup_fmap, Hidx.
Qed.

Lemma apply_reseed_tracker_ok (roi_index : nat) (nb : bbox) (rois : list roi)
    (w : world) :
  tracker_ok rois w ->
  tracker_ok (apply_reseed roi_index nb (rois, w)).1
    (apply_reseed roi_index nb (rois, w)).2.
Proof.
  intros [Hown Hlife]. split; [by apply apply_reseed_owned|].
  unfold apply_reseed. destruct (rois !! roi_index) as [old|] eqn:Hold;
    [|done].
  destruct (_smooth_box (roi_box old) nb smooth_alpha)
    as [[[sx1 sy1] sx2] sy2].
  destruct Hown as [Hnd Hall].
  assert (Hall' : Forall (fun h => (h < next_pose w)%nat) (map pose rois)).
  { apply List.Forall_map. done. }
  assert (Hidx : map pose rois !! roi_index = Some (pose old)).
  { by rewrite list_lookup_fmap, Hold. }
  pose proof (lifecycle_replace (map pose rois) w roi_index (pose old)
                Hnd Hall' Hidx Hlife) as Hnew.
  cbn [new_pose log fst snd next_pose] in *.
  by rewrite list_fmap_insert.
Qed.

Lemma reseed_step_tracker_ok (np_sqrt : Q -> Q)
    (linear_sum_assignment : list (list Q) -> list nat * list nat)
    (f : Frame) (rois : list roi) (need : list nat) (w : world) :
  tracker_ok rois w ->
  match reseed_step np_sqrt linear_sum_assignment f rois need w with
  | Reseeded rois' w' | ReseedRaised rois' w' => tracker_ok rois' w'
  end.
Proof.
  intros Hok. unfold reseed_step. destruct need as [|n0 need]; [done|].
  destruct (yolo w); [|done].
  assert (Hok1 : tracker_ok rois (log EvPredict w)).
  { destruct Hok as [Hown Hlife]. split.
    - by apply (estimators_owned_poses rois rois w).
    - apply (lifecycle_quiet _ _ w _ EvPredict); auto. }
  destruct (yolo_predict f) as [boxes|]; [|done].
  destruct (filtered_boxes_of _ _) as [|b0 pbs]; [done|].
  destruct (linear_sum_assignment _) as [row_ind col_ind].
  generalize (zip row_ind col_ind). intros pairs.
  assert (Hfold : forall st : list roi * world,
    tracker_ok st.1 st.2 ->
    tracker_ok
      (fold_left (reseed_pair f
                    (cost_matrix np_sqrt (diag_of np_sqrt f) rois
                       (n0 :: need) (b0 :: pbs))
                    ((8 # 100) * diag_of np_sqrt f) (healthy_boxes_of rois)
                    (n0 :: need) (b0 :: pbs)) pairs st).1
      (fold_left (reseed_pair f
                    (cost_matrix np_sqrt (diag_of np_sqrt f) rois
                       (n0 :: need) (b0 :: pbs))
                    ((8 # 100) * diag_of np_sqrt f) (healthy_boxes_of rois)
                    (n0 :: need) (b0 :: pbs)) pairs st).2).
  { induction pairs as [|rc pairs IH]; intros st Hst; [done|].
    cbn [fold_left]. apply IH. unfold reseed_pair.
    destruct (accepted_match _ _ _ _ _ _ _) as [[[idx det] nb]|]; [|done].
    destruct st as [rois1 w1]. by apply apply_reseed_tracker_ok. }
  specialize (Hfold (rois, log EvPredict w) Hok1).
  by destruct (fold_left _ _ _).
Qed.

(** What the body of the deduplication does outside the regions: nothing,
    or the [close] of the estimator of the dropped index. *)
Lemma dedup_pair_effect (i j : nat) (rois : list roi) (rm : gset nat)
    (w : world) :
  ((dedup_pair i j (rois, rm, w)).1.2 = rm
   /\ (dedup_pair i j (rois, rm, w)).2 = w)
  \/ exists drop h,
       map pose rois !! drop = Some h
       /\ (dedup_pair i j (rois, rm, w)).1.2 = {[drop]} ∪ rm
       /\ (dedup_pair i j (rois, rm, w)).2 = log (EvPoseClose h) w.
Proof.
  pose proof (dedup_pair_core i j rois rm w) as (Hcore & _).
  assert (Hposes : map pose (dedup_pair i j (rois, rm, w)).1.1
                   = map pose rois).
  { by rewrite !map_pose_core, Hcore. }
  revert Hposes. unfold dedup_pair.
  destruct (rois !! i) as [ri|]; [|by left].
  destruct (rois !! j) as [rj|]; [|by left].
  destruct (negb (Qle_bool _ _)); [|by left].
  destruct (alter bump_streak j (alter bump_streak i rois) !! i)
    as [ri'|] eqn:Hi; [|by left].
  destruct (alter bump_streak j (alter bump_streak i rois) !! j)
    as [rj'|] eqn:Hj; [|by left].
  destruct ((3 <=? overlap_streak ri') && (3 <=? overlap_streak rj'));
    [|by left].
  cbn [fst snd]. intros Hposes. right.
  destruct (lost rj' <=? lost ri').
  - rewrite Hi. exists i, (pose ri'). split; [|done].
    by rewrite <- Hposes, list_lookup_fmap, Hi.
  - rewrite Hj. exists j, (pose rj'). split; [|done].
    by rewrite <- Hposes, list_lookup_fmap, Hj.
Qed.

Lemma dedup_pair_state_ok (hs : list nat) (n0 i j : nat)
    (st : list roi * gset nat * world) :
  NoDup hs -> Forall (fun h => (h < n0)%nat) hs ->
  dedup_state_ok hs n0 st -> dedup_state_ok hs n0 (dedup_pair i j st).
Proof.
  intros Hnd Hall. destruct st as [[rois rm] w].
  intros (Hposes & Hn & Hlife). cbn [fst snd] in *.
  pose proof (dedup_pair_core i j rois rm w) as (Hcore & Hn' & _).
  split; [by rewrite !map_pose_core, Hcore, <- map_pose_core|].
  split; [congruence|].
  destruct (dedup_pair_effect i j rois rm w)
    as [[-> ->]|(drop & h & Hdrop & -> & ->)]; [done|].
  rewrite Hposes in Hdrop. apply lifecycle_close; try done.
  by rewrite Hn.
Qed.

Lemma fold_skip_ok (P : list roi * gset nat * world -> Prop)
    (body : nat -> list roi * gset nat * world
            -> list roi * gset nat * world) :
  (forall i st, P st -> P (body i st)) ->
  forall (idxs : list nat) (st : list roi * gset nat * world),
  P st ->
  P (fold_left (fun st i => if decide (i ∈ st.1.2) then st else body i st)
       idxs st).
Proof.
  intros Hbody. induction idxs as [|i idxs IH]; intros st Hst; [done|].
  cbn [fold_left]. apply IH. destruct (decide (i ∈ st.1.2)); [done|].
  by apply Hbody.
Qed.

Lemma dedup_outer_state_ok (hs : list nat) (n0 n : nat)
    (st : list roi * gset nat * world) :
  NoDup hs -> Forall (fun h => (h < n0)%nat) hs ->
  dedup_state_ok hs n0 st -> dedup_state_ok hs n0 (dedup_outer n st).
Proof.
  intros Hnd Hall. unfold dedup_outer.
  apply (fold_skip_ok (dedup_state_ok hs n0) (dedup_inner n)).
  intros i st0. unfold dedup_inner.
  apply (fold_skip_ok (dedup_state_ok hs n0) (dedup_pair i)).
  intros j st1. by apply dedup_pair_state_ok.
Qed.

Lemma keep_rois_lookup (rm : gset nat) (rois : list roi) :
  forall (idx : nat) (r : roi),
  In r (keep_rois rm idx rois) ->
  exists i, rois !! i = Some r /\ (idx + i)%nat ∉ rm.
Proof.
  induction rois as [|r0 rest IH]; intros idx r Hin; [done|].
  cbn [keep_rois] in Hin.
  destruct (decide (idx ∈ rm)) as [Hrm|Hrm].
  - destruct (IH _ _ Hin) as (i & Hi & Hnot). exists (S i).
    split; [done|]. by replace (idx + S i)%nat with (S idx + i)%nat by lia.
  - destruct Hin as [<-|Hin].
    + exists 0%nat. split; [done|]. by rewrite Nat.add_0_r.
    + destruct (IH _ _ Hin) as (i & Hi & Hnot). exists (S i).
      split; [done|]. by replace (idx + S i)%nat with (S idx + i)%nat by lia.
Qed.

Lemma dedup_tracker_ok (rois : list roi) (w : world) :
  tracker_ok rois w -> tracker_ok (dedup rois w).1 (dedup rois w).2.
Proof.
  intros [Hown Hlife]. split; [by apply dedup_owned|].
  destruct Hown as [Hnd Hall].
  assert (Hall' : Forall (fun h => (h < next_pose w)%nat) (map pose rois)).
  { by apply List.Forall_map. }
  pose proof (dedup_outer_state_ok (map pose rois) (next_pose w) (length rois)
                (rois, ∅, w) Hnd Hall' (conj eq_refl (conj eq_refl Hlife)))
    as Hok.
  unfold dedup. destruct (dedup_outer (length rois) (rois, ∅, w))
    as [[rois' rm] w'].
  destruct Hok as (Hposes & Hn & Hlife'). cbn [fst snd] in *.
  destruct (decide (rm = ∅)) as [->|Hne]; cbn [fst snd].
  - by rewrite Hposes.
  - destruct Hlife' as (H1 & H3 & H2 & H4).
    split; [done|]. split; [done|]. split.
    + intros idx h Hidx _. rewrite list_lookup_fmap in Hidx.
      destruct (keep_rois rm 0 rois' !! idx) as [r|] eqn:Hr; [|done].
      injection Hidx as <-.
      apply list_elem_of_lookup_2, list_elem_of_In, keep_rois_lookup in Hr
        as (i & Hi & Hnot).
      apply (H2 i (pose r)); [|done].
      by rewrite <- Hposes, list_lookup_fmap, Hi.
    + intros h Hh. destruct (H4 h Hh) as [Hc|(i & Hi & Hnot)]; [by left|].
      right. rewrite <- Hposes, list_lookup_fmap in Hi.
      destruct (rois' !! i) as [r|] eqn:Hr; [|done]. injection Hi as <-.
      pose proof (keep_rois_In rm 0 i rois' r Hr Hnot) as Hin.
      apply In_poses_lookup in Hin as [idx Hidx].
      exists idx. split; [done|set_solver].
Qed.

Lemma seed_boxes_tracker_ok (person_boxes : list bbox) (W H : Z)
    (margin_ratio : Q) :
  forall (rois : list roi) (w : world),
  tracker_ok rois w ->
  tracker_ok (seed_boxes person_boxes W H margin_ratio rois w).1
    (seed_boxes person_boxes W H margin_ratio rois w).2.
Proof.
  induction person_boxes as [|[[[bx1 by1] bx2] by2] rest IH];
    intros rois w Hok; [done|].
  pose proof (seed_boxes_owned [(bx1, by1, bx2, by2)] W H margin_ratio rois w
                (proj1 Hok)) as Hown1.
  cbn [seed_boxes] in *.
  destruct (_expand_and_clip_bbox bx1 by1 bx2 by2 W H margin_ratio)
    as [[[x1e y1e] x2e] y2e].
  cbn [new_pose fst snd] in *. apply IH. split; [done|].
  rewrite map_app. cbn [map pose].
  exact (lifecycle_push (map pose rois) w (proj2 Hok)).
Qed.

Lemma seed_rois_tracker_ok (yolo_init_ok : bool) (f : Frame)
    (rois : list roi) (margin_ratio : Q) (w : world) :
  tracker_ok rois w ->
  match _seed_rois_if_needed yolo_init_ok f rois margin_ratio w with
  | Seeded rois' w' | SeedRaised rois' w' => tracker_ok rois' w'
  end.
Proof.
  intros Hok. unfold _seed_rois_if_needed, _ensure_yolo.
  assert (Hw0 : forall w0, tracker_ok rois w0 ->
            match match rois with
                  | [] =>
                    match yolo_predict f with
                    | Returns boxes =>
                      let '(rois0, w2) :=
                        seed_boxes (person_boxes_of boxes) (image_width f)
                          (image_height f) margin_ratio rois
                          (log EvPredict w0) in Seeded rois0 w2
                    | Raises => SeedRaised rois (log EvPredict w0)
                    end
                  | _ :: _ => Seeded rois w0
                  end with
            | Seeded rois' w' | SeedRaised rois' w' => tracker_ok rois' w'
            end).
  { intros w0 Hok0.
    assert (Hok1 : tracker_ok rois (log EvPredict w0)).
    { destruct Hok0 as [Hown Hlife]. split.
      - by apply (estimators_owned_poses rois rois w0).
      - apply (lifecycle_quiet _ _ w0 _ EvPredict); auto. }
    destruct rois as [|r0 rest]; [|done].
    destruct (yolo_predict f) as [boxes|]; [|done].
    pose proof (seed_boxes_tracker_ok (person_boxes_of boxes) (image_width f)
                  (image_height f) margin_ratio [] (log EvPredict w0) Hok1)
      as Hseed.
    by destruct (seed_boxes _ _ _ _ _ _). }
  destruct (yolo w); [by apply Hw0|].
  destruct yolo_init_ok; [|done]. apply Hw0.
  destruct Hok as [Hown Hlife]. split.
  - by apply (estimators_owned_poses rois rois w).
  - apply (lifecycle_quiet _ _ w _ EvYoloInit); auto.
Qed.

Lemma process_tracker_ok (np_sqrt : Q -> Q)
    (linear_sum_assignment : list (list Q) -> list nat * list nat)
    (frame_threshold : Z) (f : Frame) (rois : list roi) (w : world) :
  tracker_ok rois w ->
  tracker_ok
    (result_rois (_process_multiperson_frame np_sqrt linear_sum_assignment
                    frame_threshold f rois w))
    (result_world (_process_multiperson_frame np_sqrt linear_sum_assignment
                     frame_threshold f rois w)).
Proof.
  intros [Hown Hlife]. unfold _process_multiperson_frame, track_and_reseed.
  destruct rois as [|r0 rest]; [done|].
  pose proof (track_rois_fields frame_threshold f (r0 :: rest) 0 w) as Htr.
  pose proof (track_rois_lifecycle frame_threshold f (map pose (r0 :: rest))
                (r0 :: rest) (In_poses_lookup (r0 :: rest)) 0 w Hlife)
    as Hlife1.
  destruct (track_rois frame_threshold f 0 (r0 :: rest) w)
    as [rois1 outs need w1|rois1 w1]; destruct Htr as (Hp & _ & Hn);
    pose proof (estimators_owned_poses _ _ _ _ Hp Hn Hown) as Hown1;
    rewrite <- Hp in Hlife1; [|done].
  pose proof (reseed_step_tracker_ok np_sqrt linear_sum_assignment f rois1
                need w1 (conj Hown1 Hlife1)) as Hre.
  destruct (reseed_step _ _ _ _ _ _) as [rois2 w2|rois2 w2]; [|done].
  assert (Hok2 : tracker_ok rois2 (tick w2)).
  { destruct Hre as [Hown2 Hlife2]. split.
    - by apply (estimators_owned_poses rois2 rois2 w2).
    - by apply (lifecycle_same _ _ w2). }
  pose proof (dedup_tracker_ok rois2 (tick w2) Hok2) as Hd.
  by destruct (dedup rois2 (tick w2)).
Qed.

Lemma frame_step_tracker_ok (np_sqrt : Q -> Q)
    (linear_sum_assignment : list (list Q) -> list nat * list nat)
    (yolo_init_ok : bool) (frame_threshold : Z) (f : Frame)
    (rois : list roi) (w : world) :
  tracker_ok rois w ->
  tracker_ok
    (result_rois (frame_step np_sqrt linear_sum_assignment yolo_init_ok
                    frame_threshold f rois w))
    (result_world (frame_step np_sqrt linear_sum_assignment yolo_init_ok
                     frame_threshold f rois w)).
Proof.
  intros Hok. unfold frame_step.
  pose proof (seed_rois_tracker_ok yolo_init_ok f rois (1 # 4) w Hok) as Hs.
  destruct (_seed_rois_if_needed yolo_init_ok f rois (1 # 4) w)
    as [rois1 w1|rois1 w1]; [|done].
  destruct rois1 as [|r1 rest1]; [done|].
  by apply process_tracker_ok.
Qed.

(** The teardown on a tracker state: estimators are only closed. *)
Lemma cleanup_lifecycle (close_raises : nat -> bool) (rois : list roi) :
  forall (w : world),
  (forall h, In (EvPoseClose h) (trace w) -> (h < next_pose w)%nat) ->
  uses_open (trace w) ->
  Forall (fun r => (pose r < next_pose w)%nat) rois ->
  (forall h, In (EvPoseNew h) (trace w) ->
     In (EvPoseClose h) (trace w) \/ In h (map pose rois)) ->
  (forall h, In (EvPoseClose h)
               (trace (_cleanup_locked_rois close_raises rois w)) ->
     (h < next_pose (_cleanup_locked_rois close_raises rois w))%nat)
  /\ uses_open (trace (_cleanup_locked_rois close_raises rois w))
  /\ ((forall h, close_raises h = false) ->
      forall h, In (EvPoseNew h)
                  (trace (_cleanup_locked_rois close_raises rois w)) ->
        In (EvPoseClose h)
          (trace (_cleanup_locked_rois close_raises rois w))).
Proof.
  induction rois as [|r rest IH]; intros w H1 H3 Hall H4.
  { cbn [_cleanup_locked_rois]. split; [done|]. split; [done|].
    intros _ h Hh. by destruct (H4 h Hh). }
  cbn [_cleanup_locked_rois].
  pose proof (Forall_inv Hall) as Hr. pose proof (Forall_inv_tail Hall) as Ht.
  assert (H1' : forall h, In (EvPoseClose h)
                            (trace (log (EvPoseClose (pose r)) w)) ->
                  (h < next_pose (log (EvPoseClose (pose r)) w))%nat).
  { intros h [Hh|Hh]; [injection Hh as <-; done | by apply H1]. }
  destruct (close_raises (pose r)) eqn:Hcr.
  - split; [done|]. split; [done|]. intros Hno. by rewrite Hno in Hcr.
  - apply IH; try done.
    intros h [Hh|Hh]; [done|].
    destruct (H4 h Hh) as [Hc|[<-|Hin]].
    + left. by right.
    + left. by left.
    + by right.
Qed.

Lemma tracker_ok_start (w : world) : lifecycle [] ∅ w -> tracker_ok [] w.
Proof. intros Hw. split; [|done]. split; [apply NoDup_nil_2 | done]. Qed.

Lemma cleanup_tracker_ok (close_raises : nat -> bool) (rois : list roi)
    (w : world) :
  tracker_ok rois w ->
  uses_open (trace (_cleanup_locked_rois close_raises rois w))
  /\ ((forall h, close_raises h = false) ->
      lifecycle [] ∅ (_cleanup_locked_rois close_raises rois w)).
Proof.
  intros [[_ Hall] (H1 & H3 & H2 & H4)].
  destruct (cleanup_lifecycle close_raises rois w H1 H3 Hall) as (C1 & C3 & C4).
  { intros h Hh. destruct (H4 h Hh) as [Hc|(idx & Hidx & _)]; [by left|].
    right. apply list_elem_of_In. by eapply list_elem_of_lookup_2. }
  split; [done|]. intros Hno. split; [done|]. split; [done|].
  split; [done|]. intros h Hh. left. by apply C4.
Qed.

Section LifecycleProperties.

Variable np_sqrt : Q -> Q.
Variable linear_sum_assignment : list (list Q) -> list nat * list nat.
Variable yolo_init_ok : bool.
Variable self_pose : Frame -> outcome (option (list landmark)).
Variable close_raises : nat -> bool.
Variable dataframe_raises : list (list cell) -> bool.
Variable to_csv_raises : nat -> bool.
Variable draw_raises : list landmark -> bool.
Variable frame_threshold : Z.

Lemma extract_frames_tracker_ok (multi : bool) (frames : list Frame) :
  forall (i : nat) (kbp : gmap nat (list (list cell))) (rois : list roi)
         (w : world),
  tracker_ok rois w ->
  match extract_frames np_sqrt linear_sum_assignment yolo_init_ok self_pose
          frame_threshold multi frames i kbp rois w with
  | LoopDone _ _ rois' w' | LoopRaised rois' w' => tracker_ok rois' w'
  end.
Proof.
  induction frames as [|f rest IH]; intros i kbp rois w Hok; [done|].
  cbn [extract_frames]. destruct multi.
  - pose proof (frame_step_tracker_ok np_sqrt linear_sum_assignment
                  yolo_init_ok frame_threshold f rois w Hok) as Hstep.
    destruct (frame_step _ _ _ _ _ _ _) as [outs rois1 w1|rois1 w1];
      [by apply IH | done].
  - destruct (self_pose f) as [[lms|]|]; [by apply IH | by apply IH | done].
Qed.

Lemma embed_frames_tracker_ok (multi : bool) (frames : list Frame) :
  forall (written : list (list (list landmark))) (rois : list roi)
         (w : world),
  tracker_ok rois w ->
  match embed_frames np_sqrt linear_sum_assignment yolo_init_ok self_pose
          draw_raises frame_threshold multi frames written rois w with
  | (Embedded _ w', rois') | (EmbedRaised _ w', rois') => tracker_ok rois' w'
  | (EmbedNone, _) => True
  end.
Proof.
  induction frames as [|f rest IH]; intros written rois w Hok; [done|].
  cbn [embed_frames]. destruct multi.
  - pose proof (frame_step_tracker_ok np_sqrt linear_sum_assignment
                  yolo_init_ok frame_threshold f rois w Hok) as Hstep.
    destruct (frame_step _ _ _ _ _ _ _) as [outs rois1 w1|rois1 w1];
      [by apply IH | done].
  - destruct (self_pose f) as [[lms|]|]; [|by apply IH | done].
    destruct (draw_raises lms); [done | by apply IH].
Qed.

(** X11: an exception of a frame ends [extract_pose_features] at once.
    If the loop over the first frames of a video ends in some state and
    the next frame raises (the frame step in the multi-person mode, the
    estimator [self.pose] in the single-person mode), the function raises
    with the world as the failing frame left it: no table is saved, the
    frames after it are not read, and the teardown does not run.  From a
    world in which every estimator made so far has been closed, the
    estimators of the regions held at that moment are then left
    unclosed: no [close] of any of them is in the log. *)
Theorem extract_raises_without_teardown (multi : bool)
    (pre post : list Frame) (f : Frame) (w : world) (n : nat)
    (kbp1 : gmap nat (list (list cell))) (rois1 rois2 : list roi)
    (w1 w2 : world) :
  lifecycle [] ∅ w ->
  extract_frames np_sqrt linear_sum_assignment yolo_init_ok self_pose
    frame_threshold multi pre 0 ∅ [] w = LoopDone n kbp1 rois1 w1 ->
  (if multi
   then frame_step np_sqrt linear_sum_assignment yolo_init_ok
          frame_threshold f rois1 w1 = Raised rois2 w2
   else self_pose f = Raises /\ rois2 = rois1 /\ w2 = w1) ->
  extract_pose_features np_sqrt linear_sum_assignment yolo_init_ok self_pose
    close_raises dataframe_raises to_csv_raises frame_threshold multi
    (pre ++ f :: post) w
  = ExtractRaised w2
  /\ forall r, In r rois2 -> ~ In (EvPoseClose (pose r)) (trace w2).
Proof.
  intros Hw Hpre Hf. split.
  - unfold extract_pose_features.
    rewrite (extract_frames_app np_sqrt linear_sum_assignment yolo_init_ok
               self_pose frame_threshold), Hpre.
    cbn [extract_frames]. destruct multi.
    + by rewrite Hf.
    + destruct Hf as (-> & -> & ->). done.
  - pose proof (extract_frames_tracker_ok multi pre 0 ∅ [] w
                  (tracker_ok_start w Hw)) as Hok1.
    rewrite Hpre in Hok1.
    assert (Hok2 : tracker_ok rois2 w2).
    { destruct multi.
      - pose proof (frame_step_tracker_ok np_sqrt linear_sum_assignment
                      yolo_init_ok frame_threshold f rois1 w1 Hok1) as Hs.
        by rewrite Hf in Hs.
      - by destruct Hf as (_ & -> & ->). }
    destruct Hok2 as [_ (_ & _ & H2 & _)].
    intros r [idx Hidx]%In_poses_lookup. by apply (H2 idx).
Qed.

(** X15: no estimator is left open by a driver that returns.  From a
    world in which every estimator made so far has been closed (and none
    was called after its [close]), when [close] raises on no estimator,
    [extract_pose_features] and [embed_pose_video], if they return, leave
    a world of the same kind: every estimator made for a region, at
    seeding or at a reseed, has been closed, by the reseed that replaced
    it, by the deduplication that dropped its region, or by the teardown.
    So the next video starts as this one did. *)
Theorem drivers_close_every_estimator (multi : bool) (frames : list Frame)
    (w : world) :
  lifecycle [] ∅ w ->
  (forall h, close_raises h = false) ->
  match extract_pose_features np_sqrt linear_sum_assignment yolo_init_ok
          self_pose close_raises dataframe_raises to_csv_raises
          frame_threshold multi frames w with
  | Extracted _ w' =>
    lifecycle [] ∅ w'
    /\ forall h, In (EvPoseNew h) (trace w') -> In (EvPoseClose h) (trace w')
  | ExtractRaised _ => True
  end
  /\ match embed_pose_video np_sqrt linear_sum_assignment yolo_init_ok
             self_pose close_raises draw_raises frame_threshold multi true
             frames w with
     | Embedded _ w' =>
       lifecycle [] ∅ w'
       /\ forall h, In (EvPoseNew h) (trace w') ->
                    In (EvPoseClose h) (trace w')
     | _ => True
     end.
Proof.
  intros Hw Hno. apply tracker_ok_start in Hw.
  assert (Hall : forall w', lifecycle [] ∅ w' ->
            forall h, In (EvPoseNew h) (trace w') ->
                      In (EvPoseClose h) (trace w')).
  { intros w' (_ & _ & _ & H4) h Hh.
    by destruct (H4 h Hh) as [Hc|(idx & Hidx & _)]. }
  split.
  - unfold extract_pose_features.
    pose proof (extract_frames_tracker_ok multi frames 0 ∅ [] w Hw) as Hloop.
    destruct (extract_frames _ _ _ _ _ _ _ _ _ _ _)
      as [n kbp rois1 w1|rois1 w1]; [|done].
    destruct (save_raises _ _ kbp); [done|].
    destruct (cleanup_tracker_ok close_raises rois1 w1 Hloop) as [_ Hc].
    split; [by apply Hc | by apply Hall, Hc].
  - unfold embed_pose_video.
    pose proof (embed_frames_tracker_ok multi frames [] [] w Hw) as Hloop.
    destruct (embed_frames _ _ _ _ _ _ _ _ _ _ _)
      as [[|wr w1|wr w1] rois1]; [done| |done].
    destruct (cleanup_tracker_ok close_raises rois1 w1 Hloop) as [_ Hc].
    split; [by apply Hc | by apply Hall, Hc].
Qed.

(** X16: no estimator is called after its [close].  From a world in
    which every estimator made so far has been closed and none was called
    after its [close], whatever the collaborators answer and whether the
    drivers return or raise, every call [process] of an estimator in the
    log comes before every [close] of that estimator: a region whose
    estimator was closed by a reseed has a new one, and a region whose
    estimator was closed by the deduplication is gone from the list
    before the next frame. *)
Theorem no_estimator_called_after_close (multi : bool)
    (frames : list Frame) (w : world) :
  lifecycle [] ∅ w ->
  match extract_pose_features np_sqrt linear_sum_assignment yolo_init_ok
          self_pose close_raises dataframe_raises to_csv_raises
          frame_threshold multi frames w with
  | Extracted _ w' | ExtractRaised w' => uses_open (trace w')
  end
  /\ match embed_pose_video np_sqrt linear_sum_assignment yolo_init_ok
             self_pose close_raises draw_raises frame_threshold multi true
             frames w with
     | Embedded _ w' | EmbedRaised _ w' => uses_open (trace w')
     | EmbedNone => True
     end.
Proof.
  intros Hw. apply tracker_ok_start in Hw. split.
  - unfold extract_pose_features.
    pose proof (extract_frames_tracker_ok multi frames 0 ∅ [] w Hw) as Hloop.
    destruct (extract_frames _ _ _ _ _ _ _ _ _ _ _)
      as [n kbp rois1 w1|rois1 w1].
    + destruct (cleanup_tracker_ok close_raises rois1 w1 Hloop) as [Hopen _].
      by destruct (save_raises _ _ kbp).
    + by destruct Hloop as [_ (_ & H3 & _)].
  - unfold embed_pose_video.
    pose proof (embed_frames_tracker_ok multi frames [] [] w Hw) as Hloop.
    destruct (embed_frames _ _ _ _ _ _ _ _ _ _ _)
      as [[|wr w1|wr w1] rois1]; [done| |].
    + by destruct (cleanup_tracker_ok close_raises rois1 w1 Hloop).
    + by destruct Hloop as [_ (_ & H3 & _)].
Qed.

End LifecycleProperties.

(** ** The drivers return when the collaborators do *)

Lemma track_rois_returns (frame_threshold : Z) (f : Frame)
    (locked_rois : list roi) :
  (forall h b, pose_process f h b <> Raises) ->
  forall (k : nat) (w : world),
  exists rois outputs need w',
    track_rois frame_threshold f k locked_rois w
    = Tracked rois outputs need w'.
Proof.
  intros Hf. induction locked_rois as [|r0 rest IH]; intros k w.
  { by eexists _, _, _, _. }
  cbn [track_rois].
  change (roi_box r0) with (x1 r0, y1 r0, x2 r0, y2 r0). cbv beta iota.
  pose proof (Hf (pose r0) (x1 r0, y1 r0, x2 r0, y2 r0)) as Hr0.
  destruct (IH (S k)
              (log (EvProcess (pose r0) (x1 r0, y1 r0, x2 r0, y2 r0)) w))
    as (rois & outs & need & w' & ->).
  destruct (pose_process f (pose r0) (x1 r0, y1 r0, x2 r0, y2 r0))
    as [[lms|]|]; [| |done]; by eexists _, _, _, _.
Qed.

Lemma seed_boxes_yolo (person_boxes : list bbox) (W H : Z)
    (margin_ratio : Q) :
  forall (rois : list roi) (w : world),
  yolo (seed_boxes person_boxes W H margin_ratio rois w).2 = yolo w.
Proof.
  induction person_boxes as [|[[[bx1 by1] bx2] by2] rest IH];
    intros rois w; [done|].
  cbn [seed_boxes].
  destruct (_expand_and_clip_bbox bx1 by1 bx2 by2 W H margin_ratio)
    as [[[x1e y1e] x2e] y2e].
  cbn [new_pose]. by rewrite IH.
Qed.

Lemma process_returns (np_sqrt : Q -> Q)
    (linear_sum_assignment : list (list Q) -> list nat * list nat)
    (frame_threshold : Z) (f : Frame) (rois : list roi) (w : world) :
  yolo_predict f <> Raises -> (forall h b, pose_process f h b <> Raises) ->
  yolo w = true ->
  exists outputs rois' w',
    _process_multiperson_frame np_sqrt linear_sum_assignment frame_threshold
      f rois w = Returned outputs rois' w'
    /\ yolo w' = true.
Proof.
  intros Hdet Hest Hw. unfold _process_multiperson_frame, track_and_reseed.
  destruct rois as [|r0 rest]; [by eexists _, _, _|].
  destruct (track_rois_returns frame_threshold f (r0 :: rest) Hest 0 w)
    as (rois1 & outs & need & w1 & Htr).
  rewrite Htr.
  destruct (track_rois_tracked_inv _ _ _ _ _ _ _ _ _ Htr) as (Hy1 & _).
  pose proof (reseed_step_inv np_sqrt linear_sum_assignment f rois1 need w1)
    as Hinv.
  assert (Hre : exists rois2 w2,
            reseed_step np_sqrt linear_sum_assignment f rois1 need w1
            = Reseeded rois2 w2).
  { unfold reseed_step. destruct need as [|n0 need]; [by eexists _, _|].
    rewrite Hy1, Hw. destruct (yolo_predict f) as [boxes|]; [|done].
    destruct (filtered_boxes_of _ _) as [|b0 pbs]; [by eexists _, _|].
    destruct (linear_sum_assignment _) as [row_ind col_ind].
    destruct (fold_left _ _ _) as [rois2 w2]. by eexists _, _. }
  destruct Hre as (rois2 & w2 & Hre). rewrite Hre in Hinv |- *.
  destruct Hinv as (_ & _ & Hy2).
  destruct (dedup_core_sublist rois2 (tick w2)) as (_ & _ & Hy3).
  destruct (dedup rois2 (tick w2)) as [rois3 w3].
  eexists _, _, _. split; [done|]. simpl in Hy3. congruence.
Qed.

Lemma frame_step_returns (np_sqrt : Q -> Q)
    (linear_sum_assignment : list (list Q) -> list nat * list nat)
    (yolo_init_ok : bool) (frame_threshold : Z) (f : Frame)
    (rois : list roi) (w : world) :
  yolo_predict f <> Raises -> (forall h b, pose_process f h b <> Raises) ->
  yolo w = true \/ yolo_init_ok = true ->
  exists outputs rois' w',
    frame_step np_sqrt linear_sum_assignment yolo_init_ok frame_threshold
      f rois w = Returned outputs rois' w'
    /\ yolo w' = true.
Proof.
  intros Hdet Hest Hload. unfold frame_step.
  assert (Hseed : exists rois1 w1,
            _seed_rois_if_needed yolo_init_ok f rois (1 # 4) w
            = Seeded rois1 w1 /\ yolo w1 = true).
  { unfold _seed_rois_if_needed.
    assert (Hens : exists w0, _ensure_yolo yolo_init_ok w = Returns w0
                              /\ yolo w0 = true).
    { unfold _ensure_yolo. destruct (yolo w) eqn:Hy; [by exists w|].
      destruct Hload as [?| ->]; [done|]. by eexists. }
    destruct Hens as (w0 & -> & Hy0).
    destruct rois as [|r0 rest]; [|by eexists _, _].
    destruct (yolo_predict f) as [boxes|]; [|done].
    pose proof (seed_boxes_yolo (person_boxes_of boxes) (image_width f)
                  (image_height f) (1 # 4) [] (log EvPredict w0)) as Hy1.
    destruct (seed_boxes _ _ _ _ _ _) as [rois1 w1].
    eexists _, _. split; [done|]. simpl in Hy1. congruence. }
  destruct Hseed as (rois1 & w1 & -> & Hy1).
  destruct rois1 as [|r1 rest1]; [by eexists _, _, _|].
  by apply process_returns.
Qed.

Section ReturnProperties.

Variable np_sqrt : Q -> Q.
Variable linear_sum_assignment : list (list Q) -> list nat * list nat.
Variable yolo_init_ok : bool.
Variable self_pose : Frame -> outcome (option (list landmark)).
Variable close_raises : nat -> bool.
Variable dataframe_raises : list (list cell) -> bool.
Variable to_csv_raises : nat -> bool.
Variable draw_raises : list landmark -> bool.
Variable frame_threshold : Z.

Lemma extract_frames_returns (multi : bool) (frames : list Frame) :
  (forall f, In f frames ->
     yolo_predict f <> Raises /\ (forall h b, pose_process f h b <> Raises)
     /\ self_pose f <> Raises) ->
  forall (i : nat) (kbp : gmap nat (list (list cell))) (rois : list roi)
         (w : world),
  yolo w = true \/ yolo_init_ok = true ->
  exists n kbp' rois' w',
    extract_frames np_sqrt linear_sum_assignment yolo_init_ok self_pose
      frame_threshold multi frames i kbp rois w
    = LoopDone n kbp' rois' w'.
Proof.
  induction frames as [|f rest IH]; intros Hok i kbp rois w Hload.
  { by eexists _, _, _, _. }
  destruct (Hok f (or_introl eq_refl)) as (Hdet & Hest & Hself).
  assert (Hrest : forall f0, In f0 rest ->
            yolo_predict f0 <> Raises
            /\ (forall h b, pose_process f0 h b <> Raises)
            /\ self_pose f0 <> Raises).
  { intros f0 Hf0. apply Hok. by right. }
  cbn [extract_frames]. destruct multi.
  - destruct (frame_step_returns np_sqrt linear_sum_assignment yolo_init_ok
                frame_threshold f rois w Hdet Hest Hload)
      as (outs & rois1 & w1 & -> & Hy1).
    apply (IH Hrest). by left.
  - destruct (self_pose f) as [[lms|]|]; [| |done]; by apply (IH Hrest).
Qed.

Lemma embed_frames_returns (multi : bool) (frames : list Frame) :
  (forall f, In f frames ->
     yolo_predict f <> Raises /\ (forall h b, pose_process f h b <> Raises)
     /\ self_pose f <> Raises) ->
  (multi = false ->
   forall f lms, In f frames -> self_pose f = Returns (Some lms) ->
                 draw_raises lms = false) ->
  forall (written : list (list (list landmark))) (rois : list roi)
         (w : world),
  yolo w = true \/ yolo_init_ok = true ->
  exists written' w' rois',
    embed_frames np_sqrt linear_sum_assignment yolo_init_ok self_pose
      draw_raises frame_threshold multi frames written rois w
    = (Embedded written' w', rois').
Proof.
  induction frames as [|f rest IH]; intros Hok Hdraw written rois w Hload.
  { by eexists _, _, _. }
  destruct (Hok f (or_introl eq_refl)) as (Hdet & Hest & Hself).
  assert (Hrest : forall f0, In f0 rest ->
            yolo_predict f0 <> Raises
            /\ (forall h b, pose_process f0 h b <> Raises)
            /\ self_pose f0 <> Raises).
  { intros f0 Hf0. apply Hok. by right. }
  assert (Hdraw' : multi = false ->
            forall f0 lms, In f0 rest -> self_pose f0 = Returns (Some lms) ->
                           draw_raises lms = false).
  { intros Hm f0 lms Hf0. apply (Hdraw Hm). by right. }
  cbn [embed_frames]. destruct multi.
  - destruct (frame_step_returns np_sqrt linear_sum_assignment yolo_init_ok
                frame_threshold f rois w Hdet Hest Hload)
      as (outs & rois1 & w1 & -> & Hy1).
    apply (IH Hrest Hdraw'). by left.
  - pose proof (Hdraw eq_refl f) as Hd.
    destruct (self_pose f) as [[lms|]|]; [| |done].
    + rewrite (Hd lms (or_introl eq_refl) eq_refl). by apply (IH Hrest Hdraw').
    + by apply (IH Hrest Hdraw').
Qed.

Lemma save_raises_false (keypoints_by_person : gmap nat (list (list cell))) :
  (forall person_id rows,
     keypoints_by_person !! person_id = Some rows ->
     dataframe_raises rows = false /\ to_csv_raises person_id = false) ->
  save_raises dataframe_raises to_csv_raises keypoints_by_person = false.
Proof.
  intros Hall. unfold save_raises.
  destruct (existsb _ _) eqn:Hex; [|done].
  apply existsb_exists in Hex as ([person_id rows] & Hin & Hraise).
  apply list_elem_of_In, elem_of_map_to_list in Hin.
  destruct (Hall person_id rows Hin) as [Hd Hc]. cbn [fst snd] in Hraise.
  by rewrite Hd, Hc in Hraise.
Qed.

Lemma extract_frames_rows_fit (multi : bool) (frames : list Frame)
    (w : world) (n : nat) (kbp : gmap nat (list (list cell)))
    (rois : list roi) (w1 : world) :
  (forall f h b raw, In f frames -> pose_process f h b = Returns (Some raw) ->
     length raw = 33%nat) ->
  (forall f lms, In f frames -> self_pose f = Returns (Some lms) ->
     length lms = 33%nat) ->
  extract_frames np_sqrt linear_sum_assignment yolo_init_ok self_pose
    frame_threshold multi frames 0 ∅ [] w = LoopDone n kbp rois w1 ->
  forall person_id rows,
    kbp !! person_id = Some rows ->
    Forall (fun row => length row = length columns) rows.
Proof.
  intros Hroi Hsingle Hloop.
  assert (H33 : forall f h b raw, In f frames ->
            pose_process f h b = Returns (Some raw) ->
            forall lms : list landmark,
              length lms = length raw -> length lms = 33%nat).
  { intros f h b raw Hf Hr lms ->. by apply (Hroi f h b). }
  destruct (extract_frames_tables np_sqrt linear_sum_assignment yolo_init_ok
              self_pose frame_threshold (fun lms => length lms = 33%nat)
              multi frames H33 Hsingle _ _ _ _ _ _ _ _ Hloop) as [_ Htab].
  { intros p rows Hp. by rewrite lookup_empty in Hp. }
  intros p rows Hp.
  destruct (Htab p rows Hp) as (entries & _ & -> & _ & Hall).
  apply List.Forall_forall. intros row Hrow.
  apply in_map_iff in Hrow as (e & <- & He).
  destruct (proj1 (List.Forall_forall _ _) Hall e He) as [_ Hlen].
  unfold make_row, landmark_cells. cbn [length].
  rewrite (flat_map_constant_length (c := 4%nat)) by done.
  rewrite Hlen. reflexivity.
Qed.

(** X17: the drivers raise only when a collaborator does.  When the
    detector can be loaded (or is loaded already) and, on every frame of
    the video, neither the detector nor an estimator raises, the frame
    loop and the teardown of both drivers come to their end: the reseed
    never finds [self.yolo] still [None] (the seeding of the same frame
    has loaded it) and a failing [close] never gets out of the teardown.
    So [embed_pose_video] returns, in the multi-person mode whatever the
    drawing does, in the single-person mode when the drawing does not
    raise; and [extract_pose_features] returns, in either mode, when in
    addition every estimator answers with the 33 landmarks of a pose,
    [pd.DataFrame] accepts a table whose rows have as many cells as
    there are columns, and the files can be written. *)
Theorem drivers_return_when_collaborators_do (multi : bool)
    (frames : list Frame) (w : world) :
  yolo w = true \/ yolo_init_ok = true ->
  (forall f, In f frames ->
     yolo_predict f <> Raises /\ (forall h b, pose_process f h b <> Raises)
     /\ self_pose f <> Raises) ->
  ((forall f h b raw, In f frames ->
      pose_process f h b = Returns (Some raw) -> length raw = 33%nat) ->
   (forall f lms, In f frames -> self_pose f = Returns (Some lms) ->
      length lms = 33%nat) ->
   (forall rows, Forall (fun row => length row = length columns) rows ->
      dataframe_raises rows = false) ->
   (forall person_id, to_csv_raises person_id = false) ->
   exists keypoints_by_person w',
     extract_pose_features np_sqrt linear_sum_assignment yolo_init_ok
       self_pose close_raises dataframe_raises to_csv_raises
       frame_threshold multi frames w
     = Extracted keypoints_by_person w')
  /\ ((multi = false ->
       forall f lms, In f frames -> self_pose f = Returns (Some lms) ->
                     draw_raises lms = false) ->
      exists written w',
        embed_pose_video np_sqrt linear_sum_assignment yolo_init_ok
          self_pose close_raises draw_raises frame_threshold multi true
          frames w
        = Embedded written w').
Proof.
  intros Hload Hok. split.
  - intros Hroi Hsingle Hframe Hcsv. unfold extract_pose_features.
    destruct (extract_frames_returns multi frames Hok 0 ∅ [] w Hload)
      as (n & kbp & rois1 & w1 & Hloop).
    rewrite Hloop. rewrite save_raises_false; [by eexists _, _|].
    intros person_id rows Hrows. split; [|done]. apply Hframe.
    by apply (extract_frames_rows_fit multi frames w n kbp rois1 w1
                Hroi Hsingle Hloop person_id).
  - intros Hdraw. unfold embed_pose_video.
    destruct (embed_frames_returns multi frames Hok Hdraw [] [] w Hload)
      as (written & w1 & rois1 & ->).
    by eexists _, _.
Qed.

End ReturnProperties.

(** ** More on the geometry *)

Lemma mul_eq_bounds (iw ih wa ha : Z) :
  0 <= iw <= wa -> 0 <= ih <= ha -> 0 < iw * ih -> wa * ha = iw * ih ->
  iw = wa /\ ih = ha.
Proof.
  intros Hw Hh Hpos Heq.
  assert (0 < iw) by nia. assert (0 < ih) by nia. split.
  - destruct (Z.eq_dec iw wa) as [|Hne]; [done|]. exfalso.
    assert ((iw + 1) * ih <= wa * ha) by (apply Z.mul_le_mono_nonneg; lia).
    lia.
  - destruct (Z.eq_dec ih ha) as [|Hne]; [done|]. exfalso.
    assert (iw * (ih + 1) <= wa * ha) by (apply Z.mul_le_mono_nonneg; lia).
    lia.
Qed.

Lemma inter_area_full (a b : bbox) :
  0 < inter_area a b -> box_area a = inter_area a b ->
  box_area b = inter_area a b -> a = b.
Proof.
  destruct a as [[[ax1 ay1] ax2] ay2], b as [[[bx1 by1] bx2] by2].
  cbn [box_area inter_area]. intros Hpos Ha Hb.
  destruct (mul_eq_bounds (Z.max 0 (Z.min ax2 bx2 - Z.max ax1 bx1))
              (Z.max 0 (Z.min ay2 by2 - Z.max ay1 by1))
              (Z.max 0 (ax2 - ax1)) (Z.max 0 (ay2 - ay1)))
    as [Hw Hh]; [lia | lia | done | done |].
  destruct (mul_eq_bounds (Z.max 0 (Z.min ax2 bx2 - Z.max ax1 bx1))
              (Z.max 0 (Z.min ay2 by2 - Z.max ay1 by1))
              (Z.max 0 (bx2 - bx1)) (Z.max 0 (by2 - by1)))
    as [Hw' Hh']; [lia | lia | done | done |].
  assert (0 < Z.max 0 (Z.min ax2 bx2 - Z.max ax1 bx1)) by nia.
  assert (0 < Z.max 0 (Z.min ay2 by2 - Z.max ay1 by1)) by nia.
  repeat f_equal; lia.
Qed.

(** X18: the IoU is a similarity between 0 and 1.  It is 1 exactly for a
    box of positive area against itself, and it is positive exactly when
    the two boxes share area; so the thresholds 0.5 of the reservation
    and 0.55 of the deduplication are met only by boxes that overlap. *)
Theorem iou_range_and_extremes (a b : bbox) :
  ((0 <= _iou a b)%Q /\ (_iou a b <= 1)%Q)
  /\ ((_iou a b == 1)%Q <-> a = b /\ positive_area a)
  /\ ((0 < _iou a b)%Q <-> 0 < inter_area a b).
Proof.
  split; [split; [apply _iou_nonneg | apply _iou_le_1]|]. split.
  - split.
    + rewrite _iou_unfold.
      destruct (Z.leb_spec (union_area a b) 0) as [Hu|Hu]; [done|].
      intros Heq.
      assert (Hi : inter_area a b = union_area a b).
      { apply (proj1 (inject_Z_injective _ _)).
        apply (Qmult_inj_r _ _ (/ float (union_area a b))).
        - intros H0. apply (Qmult_inj_r _ _ (float (union_area a b))) in H0.
          + rewrite Qmult_comm, Qmult_inv_r, Qmult_0_l in H0; [done|].
            change 0%Q with (float 0). rewrite inject_Z_injective. lia.
          + change 0%Q with (float 0). rewrite inject_Z_injective. lia.
        - rewrite Qmult_inv_r.
          + exact Heq.
          + change 0%Q with (float 0). rewrite inject_Z_injective. lia. }
      pose proof (inter_area_le_l a b). pose proof (inter_area_le_r a b).
      unfold union_area in Hi, Hu.
      assert (a = b) as <-.
      { apply inter_area_full; lia. }
      split; [done|]. apply positive_area_box_area. lia.
    + intros [<- Hpos]. by apply _iou_self_positive.
  - rewrite _iou_unfold. pose proof (inter_le_union a b) as Hle.
    destruct (Z.leb_spec (union_area a b) 0) as [Hu|Hu].
    + split; [done|]. lia.
    + split.
      * intros Hpos. destruct (Z.lt_ge_cases 0 (inter_area a b)); [done|].
        exfalso. pose proof (inter_area_nonneg a b).
        assert (inter_area a b = 0) as Hz by lia. rewrite Hz in Hpos.
        unfold Qdiv in Hpos. rewrite Qmult_0_l in Hpos. done.
      * intros Hpos. apply Qlt_shift_div_l.
        -- change 0%Q with (float 0). by rewrite <- Zlt_Qlt.
        -- rewrite Qmult_0_l. change 0%Q with (float 0).
           by rewrite <- Zlt_Qlt.
Qed.

Lemma clip_axis_contains (a b W : Z) (m : Q) :
  0 <= a -> a < b -> b <= W -> (0 <= m)%Q ->
  let e1 := Qmax 0 (Qmin (float a - m) (float W - 1)) in
  let e2 := Qmax 0 (Qmin (float b + m) (float W - 0)) in
  let e2' := if Qle_bool e2 e1 then Qmin (float W * 1) (e1 + 1) else e2 in
  (py_int e1 <= a /\ b <= py_int e2')
  /\ ((m == 0)%Q -> py_int e1 = a /\ py_int e2' = b).
Proof.
  intros Ha Hab Hb Hm e1 e2 e2'.
  assert (HaQ : (0 <= float a)%Q).
  { change 0%Q with (float 0). by rewrite <- Zle_Qle. }
  assert (HabQ : (float a + 1 <= float b)%Q).
  { change 1%Q with (float 1). rewrite <- inject_Z_plus, <- Zle_Qle. lia. }
  assert (HbQ : (float b <= float W)%Q) by by rewrite <- Zle_Qle.
  assert (H1 : (0 <= e1)%Q /\ (e1 <= float a)%Q
               /\ ((m == 0)%Q -> (e1 == float a)%Q)).
  { unfold e1.
    destruct (Q.max_spec 0 (Qmin (float a - m) (float W - 1)))
      as [[? ->]|[? ->]];
    destruct (Q.min_spec (float a - m) (float W - 1)) as [[? Hmin]|[? Hmin]];
    rewrite ?Hmin in *; repeat split; try lra; intros Hm0; lra. }
  assert (H2 : (float b <= e2)%Q /\ (e2 <= float W)%Q
               /\ ((m == 0)%Q -> (e2 == float b)%Q)).
  { unfold e2.
    destruct (Q.max_spec 0 (Qmin (float b + m) (float W - 0)))
      as [[? ->]|[? ->]];
    destruct (Q.min_spec (float b + m) (float W - 0)) as [[? Hmin]|[? Hmin]];
    rewrite ?Hmin in *; repeat split; try lra; intros Hm0; lra. }
  destruct H1 as (H10 & H1a & H1m), H2 as (H2b & H2W & H2m).
  assert (He2 : e2' = e2).
  { unfold e2'. destruct (Qle_bool e2 e1) eqn:Hle; [|done].
    apply Qle_bool_iff in Hle. lra. }
  rewrite He2. split.
  - split.
    + by apply (py_int_between 0 a e1).
    + by apply (py_int_between b W e2).
  - intros Hm0. split.
    + rewrite (py_int_comp e1 (float a)) by by apply H1m.
      apply py_int_float.
    + rewrite (py_int_comp e2 (float b)) by by apply H2m.
      apply py_int_float.
Qed.

(** X19: for a box within the frame and a margin that is not negative,
    the box [_expand_and_clip_bbox] returns contains the box it was
    given; with the margin 0 it is that box. *)
Theorem expand_contains_box (bx1 by1 bx2 by2 W H : Z) (margin_ratio : Q) :
  0 <= bx1 < bx2 /\ bx2 <= W -> 0 <= by1 < by2 /\ by2 <= H ->
  (0 <= margin_ratio)%Q ->
  (let '(nx1, ny1, nx2, ny2) :=
     _expand_and_clip_bbox bx1 by1 bx2 by2 W H margin_ratio in
   (nx1 <= bx1 /\ bx2 <= nx2) /\ (ny1 <= by1 /\ by2 <= ny2))
  /\ ((margin_ratio == 0)%Q ->
      _expand_and_clip_bbox bx1 by1 bx2 by2 W H margin_ratio
      = (bx1, by1, bx2, by2)).
Proof.
  intros [[Hx0 Hx] HxW] [[Hy0 Hy] HyH] Hm. unfold _expand_and_clip_bbox.
  assert (Hbw : (Qmax 0 (float bx2 - float bx1) == float bx2 - float bx1)%Q
                /\ (0 < float bx2 - float bx1)%Q).
  { assert (float bx1 < float bx2)%Q by by rewrite <- Zlt_Qlt.
    split; [apply Q.max_r|]; lra. }
  assert (Hbh : (Qmax 0 (float by2 - float by1) == float by2 - float by1)%Q
                /\ (0 < float by2 - float by1)%Q).
  { assert (float by1 < float by2)%Q by by rewrite <- Zlt_Qlt.
    split; [apply Q.max_r|]; lra. }
  destruct Hbw as [Hbw Hbw0], Hbh as [Hbh Hbh0].
  destruct (Qle_bool (Qmax 0 (float bx2 - float bx1)) 0) eqn:Hdx.
  { apply Qle_bool_iff in Hdx. lra. }
  destruct (Qle_bool (Qmax 0 (float by2 - float by1)) 0) eqn:Hdy.
  { apply Qle_bool_iff in Hdy. lra. }
  simpl orb. cbv iota.
  destruct (clip_axis_contains bx1 bx2 W
              (Qmax 0 (float bx2 - float bx1) * margin_ratio))
    as [Hxin Hxid]; try done.
  { apply Qmult_le_0_compat; [apply Q.le_max_l | done]. }
  destruct (clip_axis_contains by1 by2 H
              (Qmax 0 (float by2 - float by1) * margin_ratio))
    as [Hyin Hyid]; try done.
  { apply Qmult_le_0_compat; [apply Q.le_max_l | done]. }
  split; [done|]. intros Hm0.
  destruct Hxid as [-> ->]; [rewrite Hm0; lra|].
  destruct Hyid as [-> ->]; [rewrite Hm0; lra|]. done.
Qed.

(** ** The further theorems on the example scenes *)

Lemma estimators_stay_owned_witness :
  estimators_owned
    (result_rois (frame_step sqrt_floor diagonal_assignment true 10
                    (frame_first_hits [person_at 310 210 330 290])
                    [region_a; region_b; region_stale] world0))
    (result_world (frame_step sqrt_floor diagonal_assignment true 10
                     (frame_first_hits [person_at 310 210 330 290])
                     [region_a; region_b; region_stale] world0)).
Proof.
  apply (proj2 (estimators_stay_owned sqrt_floor diagonal_assignment true 10
                  (frame_first_hits [person_at 310 210 330 290])
                  [region_a; region_b; region_stale] world0)).
  split.
  - apply (bool_decide_unpack _). vm_compute. exact I.
  - repeat constructor; simpl; lia.
Defined.

Lemma regions_stay_in_frame_witness :
  rois_ok (frame_first_hits [person_at 310 210 330 290])
    (result_rois (_process_multiperson_frame sqrt_floor diagonal_assignment
                    10 (frame_first_hits [person_at 310 210 330 290])
                    [region_a; region_stale] world0))
  /\ rois_ok (frame_first_hits [person_at 310 210 330 290])
       (result_rois (frame_step sqrt_floor diagonal_assignment true 10
                       (frame_first_hits [person_at 310 210 330 290])
                       [region_a; region_stale] world0)).
Proof.
  apply (regions_stay_in_frame sqrt_floor diagonal_assignment true 10
           (frame_first_hits [person_at 310 210 330 290])
           [region_a; region_stale] world0).
  - simpl. lia.
  - simpl. lia.
  - intros boxes b Hb Hin. injection Hb as <-.
    destruct Hin as [<-|[]]. vm_compute. repeat split; discriminate.
  - repeat constructor; simpl; lia.
Defined.

Lemma tracker_never_loses_everyone_witness :
  (exists m r r',
     [set_overlap_streak 2 region_a; set_overlap_streak 2 region_b] !! m
     = Some r
     /\ (forall k r0,
           [set_overlap_streak 2 region_a; set_overlap_streak 2 region_b]
             !! k = Some r0 ->
           lost r <= lost r0 /\ (lost r0 = lost r -> (k <= m)%nat))
     /\ In r' (dedup [set_overlap_streak 2 region_a;
                      set_overlap_streak 2 region_b] world0).1
     /\ region_core r' = region_core r)
  /\ (dedup [set_overlap_streak 2 region_a; set_overlap_streak 2 region_b]
        world0).1 = [set_overlap_streak 3 region_b]
  /\ result_rois (_process_multiperson_frame sqrt_floor diagonal_assignment
                    10 frame_all_hit
                    [set_overlap_streak 2 region_a;
                     set_overlap_streak 2 region_b] world0) <> []
  /\ result_rois (frame_step sqrt_floor diagonal_assignment true 10
                    frame_all_hit
                    [set_overlap_streak 2 region_a;
                     set_overlap_streak 2 region_b] world0) <> [].
Proof.
  destruct (tracker_never_loses_everyone sqrt_floor diagonal_assignment true
              10 frame_all_hit
              [set_overlap_streak 2 region_a; set_overlap_streak 2 region_b]
              world0) as (Hkeep & Hstep & Hframe); [discriminate|].
  split; [exact Hkeep|]. split; [reflexivity|].
  split; [exact Hstep | exact Hframe].
Defined.

Lemma cleanup_closes_until_first_failure_witness :
  trace (_cleanup_locked_rois (fun h => (h =? 1)%nat)
           [region_a; region_b; region_stale] world0)
  = [EvPoseClose 1; EvPoseClose 0]
  /\ trace (_cleanup_locked_rois (fun _ => false)
              [region_a; region_b; region_stale] world0)
     = [EvPoseClose 2; EvPoseClose 1; EvPoseClose 0].
Proof.
  split.
  - apply (proj1 (cleanup_closes_until_first_failure
                    (fun h => (h =? 1)%nat)
                    [region_a; region_b; region_stale] world0)
             1%nat region_b); [reflexivity | reflexivity |].
    intros [|j] r' Hj Hr'; [|lia]. injection Hr' as <-. reflexivity.
  - apply (proj1 (proj2 (cleanup_closes_until_first_failure
                           (fun _ => false)
                           [region_a; region_b; region_stale] world0))).
    reflexivity.
Defined.

Lemma process_outputs_are_hits_witness :
  exists outputs rois' w',
    _process_multiperson_frame sqrt_floor diagonal_assignment 10
      frame_all_hit [region_a; region_stale] world0
    = Returned outputs rois' w'
    /\ map fst outputs = [0%nat; 1%nat]
    /\ StronglySorted lt (map fst outputs)
    /\ NoDup (map fst outputs)
    /\ forall p lms, In (p, lms) outputs ->
         (p < 2)%nat
         /\ exists r raw,
              [region_a; region_stale] !! p = Some r
              /\ pose_process frame_all_hit (pose r) (roi_box r)
                 = Returns (Some raw)
              /\ map_landmarks (x1 r) (y1 r) (x2 r) (y2 r) 640 480 raw
                 = Some lms
              /\ length lms = length raw.
Proof.
  do 3 eexists. split; [reflexivity|]. split; [reflexivity|].
  eapply (process_outputs_are_hits sqrt_floor diagonal_assignment 10
            frame_all_hit [region_a; region_stale] world0).
  reflexivity.
Defined.


Lemma extract_rows_match_columns_witness :
  exists keypoints_by_person w',
    extract_pose_features sqrt_floor diagonal_assignment true self_pose_wide
      (fun _ => false) dataframe_checks (fun _ => false) 10 true
      video_two_persons world_unloaded
    = Extracted keypoints_by_person w'
    /\ length columns = 134%nat
    /\ forall person_id rows row,
         keypoints_by_person !! person_id = Some rows -> In row rows ->
         length row = length columns.
Proof.
  do 2 eexists. split; [vm_compute; reflexivity|].
  eapply (extract_rows_match_columns sqrt_floor diagonal_assignment true
            self_pose_wide (fun _ => false) dataframe_checks
            (fun _ => false) 10 true video_two_persons world_unloaded).
  - intros f h b raw Hf Hr.
    destruct Hf as [<-|[<-|[<-|[]]]]; injection Hr as <-; reflexivity.
  - intros f lms _ Hl. unfold self_pose_wide in Hl.
    destruct (image_width f =? 640); [|discriminate].
    injection Hl as <-. reflexivity.
  - vm_compute. reflexivity.
Defined.

Lemma extract_raises_without_teardown_witness :
  exists w2 rois2,
    extract_pose_features sqrt_floor diagonal_assignment true self_pose_wide
      (fun _ => false) dataframe_checks (fun _ => false) 10 true
      ([frame_full_pose two_persons]
       ++ frame_estimator_raises :: [frame_all_hit]) world_unloaded
    = ExtractRaised w2
    /\ map pose rois2 = [0%nat; 1%nat]
    /\ trace w2
       = [EvProcess 1 (375, 50, 525, 350); EvProcess 0 (75, 50, 225, 350);
          EvProcess 1 (375, 50, 525, 350); EvProcess 0 (75, 50, 225, 350);
          EvPoseNew 1; EvPoseNew 0; EvPredict; EvYoloInit]
    /\ forall r, In r rois2 -> ~ In (EvPoseClose (pose r)) (trace w2).
Proof.
  assert (Hstart : lifecycle [] ∅ world_unloaded).
  { repeat split; done. }
  edestruct (extract_raises_without_teardown sqrt_floor diagonal_assignment
               true self_pose_wide (fun _ => false) dataframe_checks
               (fun _ => false) 10 true
               [frame_full_pose two_persons] [frame_all_hit]
               frame_estimator_raises world_unloaded) as [Hraise Hopen];
    [exact Hstart | reflexivity | reflexivity |].
  do 2 eexists. split; [exact Hraise|].
  split; [|split; [|exact Hopen]]; reflexivity.
Defined.

Lemma extract_single_person_witness :
  extract_pose_features sqrt_floor diagonal_assignment true self_pose_wide
    (fun _ => false) dataframe_checks (fun _ => false) 10 false
    [frame_all_hit; frame_small []; frame_all_hit] world_unloaded
  = Extracted
      {[ 0%nat := [make_row 0 0 full_landmarks;
                   make_row 2 0 full_landmarks] ]}
      world_unloaded
  /\ extract_pose_features sqrt_floor diagonal_assignment true
       self_pose_wide (fun _ => false) dataframe_checks (fun _ => true) 10
       false [frame_all_hit; frame_small []; frame_all_hit] world_unloaded
     = ExtractRaised world_unloaded.
Proof.
  assert (Hok : forall f, In f [frame_all_hit; frame_small []; frame_all_hit]
                  -> self_pose_wide f <> Raises).
  { intros f Hf. destruct Hf as [<-|[<-|[<-|[]]]]; discriminate. }
  split.
  - exact (extract_single_person sqrt_floor diagonal_assignment true
             self_pose_wide (fun _ => false) dataframe_checks
             (fun _ => false) 10
             [frame_all_hit; frame_small []; frame_all_hit] world_unloaded
             Hok).
  - exact (extract_single_person sqrt_floor diagonal_assignment true
             self_pose_wide (fun _ => false) dataframe_checks
             (fun _ => true) 10
             [frame_all_hit; frame_small []; frame_all_hit] world_unloaded
             Hok).
Defined.

Lemma embed_writes_every_frame_witness :
  exists written w',
    embed_pose_video sqrt_floor diagonal_assignment true self_pose_wide
      (fun _ => false) (fun lms => (length lms <? 33)%nat) 10 true true
      [frame_full_pose two_persons; frame_all_hit; frame_all_hit]
      world_unloaded
    = Embedded written w'
    /\ map (@length _) written = [2%nat; 0%nat; 0%nat]
    /\ length written = 3%nat
    /\ Forall (Forall (fun lms => (length lms <? 33)%nat = false)) written.
Proof.
  remember (embed_pose_video sqrt_floor diagonal_assignment true
              self_pose_wide (fun _ => false)
              (fun lms => (length lms <? 33)%nat) 10 true true
              [frame_full_pose two_persons; frame_all_hit; frame_all_hit]
              world_unloaded) as run eqn:Hrun.
  pose proof Hrun as Hvalue. vm_compute in Hvalue.
  rewrite Hvalue in Hrun |- *. symmetry in Hrun.
  do 2 eexists. split; [reflexivity|]. split; [reflexivity|].
  exact (embed_writes_every_frame sqrt_floor diagonal_assignment true
           self_pose_wide (fun _ => false)
           (fun lms => (length lms <? 33)%nat) 10 true
           [frame_full_pose two_persons; frame_all_hit; frame_all_hit]
           world_unloaded _ _ Hrun).
Defined.

Lemma drivers_close_every_estimator_witness :
  exists keypoints_by_person w',
    extract_pose_features sqrt_floor diagonal_assignment true self_pose_wide
      (fun _ => false) dataframe_checks (fun _ => false) 10 true
      video_two_persons world_unloaded
    = Extracted keypoints_by_person w'
    /\ In (EvPoseNew 1) (trace w')
    /\ forall h, In (EvPoseNew h) (trace w') -> In (EvPoseClose h) (trace w').
Proof.
  assert (Hstart : lifecycle [] ∅ world_unloaded).
  { repeat split; done. }
  pose proof (proj1 (drivers_close_every_estimator sqrt_floor
                       diagonal_assignment true self_pose_wide
                       (fun _ => false) dataframe_checks (fun _ => false)
                       (fun _ => false) 10 true video_two_persons
                       world_unloaded Hstart (fun _ => eq_refl))) as Hclosed.
  remember (extract_pose_features sqrt_floor diagonal_assignment true
              self_pose_wide (fun _ => false) dataframe_checks
              (fun _ => false) 10 true video_two_persons world_unloaded)
    as run eqn:Hrun in *.
  vm_compute in Hrun. subst run. cbv beta iota in Hclosed.
  eexists _, _. split; [reflexivity|].
  split; [simpl; tauto | exact (proj2 Hclosed)].
Defined.

Lemma no_estimator_called_after_close_witness :
  exists w',
    extract_pose_features sqrt_floor diagonal_assignment true self_pose_wide
      (fun _ => false) dataframe_checks (fun _ => false) 10 true
      [frame_full_pose two_persons; frame_estimator_raises] world_unloaded
    = ExtractRaised w'
    /\ uses_open (trace w').
Proof.
  assert (Hstart : lifecycle [] ∅ world_unloaded).
  { repeat split; done. }
  pose proof (proj1 (no_estimator_called_after_close sqrt_floor
                       diagonal_assignment true self_pose_wide
                       (fun _ => false) dataframe_checks (fun _ => false)
                       (fun _ => false) 10 true
                       [frame_full_pose two_persons; frame_estimator_raises]
                       world_unloaded Hstart)) as Hopen.
  remember (extract_pose_features sqrt_floor diagonal_assignment true
              self_pose_wide (fun _ => false) dataframe_checks
              (fun _ => false) 10 true
              [frame_full_pose two_persons; frame_estimator_raises]
              world_unloaded) as run eqn:Hrun in *.
  vm_compute in Hrun. subst run. cbv beta iota in Hopen.
  eexists. split; [reflexivity | exact Hopen].
Defined.

Lemma drivers_return_when_collaborators_do_witness :
  (exists keypoints_by_person w',
     extract_pose_features sqrt_floor diagonal_assignment true self_pose_wide
       (fun h => (h =? 1)%nat) dataframe_checks (fun _ => false) 10 true
       video_two_persons world_unloaded
     = Extracted keypoints_by_person w')
  /\ (exists written w',
        embed_pose_video sqrt_floor diagonal_assignment true self_pose_wide
          (fun h => (h =? 1)%nat) (fun _ => true) 10 true true
          video_two_persons world_unloaded
        = Embedded written w').
Proof.
  destruct (drivers_return_when_collaborators_do sqrt_floor
              diagonal_assignment true self_pose_wide
              (fun h => (h =? 1)%nat) dataframe_checks (fun _ => false)
              (fun _ => true) 10 true
              video_two_persons world_unloaded) as [Hext Hemb].
  - by right.
  - intros f Hf.
    destruct Hf as [<-|[<-|[<-|[]]]]; repeat split; try discriminate;
      intros h b; discriminate.
  - split; [|apply Hemb; discriminate]. apply Hext.
    + intros f h b raw Hf Hr.
      destruct Hf as [<-|[<-|[<-|[]]]]; injection Hr as <-; reflexivity.
    + intros f lms _ Hl. unfold self_pose_wide in Hl.
      destruct (image_width f =? 640); [|discriminate].
      injection Hl as <-. reflexivity.
    + intros rows Hrows. unfold dataframe_checks.
      apply negb_false_iff, forallb_forall. intros row Hrow.
      apply Nat.eqb_eq. by apply (proj1 (List.Forall_forall _ _) Hrows).
    + done.
Defined.

Lemma expand_contains_box_witness :
  (let '(nx1, ny1, nx2, ny2) :=
     _expand_and_clip_bbox 100 100 200 300 640 480 (1 # 4) in
   (nx1 <= 100 /\ 200 <= nx2) /\ (ny1 <= 100 /\ 300 <= ny2))
  /\ _expand_and_clip_bbox 100 100 200 300 640 480 0 = (100, 100, 200, 300).
Proof.
  split.
  - apply (expand_contains_box 100 100 200 300 640 480 (1 # 4));
      [lia | lia | discriminate].
  - apply (expand_contains_box 100 100 200 300 640 480 0);
      [lia | lia | discriminate | reflexivity].
Defined.
